(** * Balanced-ternary substrate, hash codec and bit-sliced nonce search of iota.go

    A shallow embedding of [trinary/trinary.go] and of the Go proof-of-work
    kernel ([pow]), with the properties of their specification stated and
    settled over the embedding.

    Conventions.
    - A Go fixed-width integer is a [Z] together with the wrap-around of its
      type written out ([int8], [int64], [uint32], [uint64]).
    - A slice or array is a [list]; in-place writes become functional updates
      ([upd]).
    - A Go function returning [(T, error)] and able to panic returns a
      [result T]: [Ok], [Err e] (the error value) or [Panic]. *)

From Stdlib Require Import Ascii String ZArith Arith Bool List Lia.
Import ListNotations.
Local Open Scope Z_scope.

(** ** Machine integers *)

Module MachineInt.

Definition wrap_signed (w : Z) (x : Z) : Z := (x + 2 ^ (w - 1)) mod 2 ^ w - 2 ^ (w - 1).
Definition wrap_unsigned (w : Z) (x : Z) : Z := x mod 2 ^ w.

Definition int8 (x : Z) : Z := wrap_signed 8 x.
Definition int64 (x : Z) : Z := wrap_signed 64 x.
Definition uint32 (x : Z) : Z := wrap_unsigned 32 x.
Definition uint64 (x : Z) : Z := wrap_unsigned 64 x.

Definition MinInt64 : Z := - 2 ^ 63.
Definition MaxInt64 : Z := 2 ^ 63 - 1.

Definition in_int8 (x : Z) : Prop := - 128 <= x <= 127.
Definition in_int64 (x : Z) : Prop := MinInt64 <= x <= MaxInt64.
Definition in_uint32 (x : Z) : Prop := 0 <= x < 2 ^ 32.
Definition in_uint64 (x : Z) : Prop := 0 <= x < 2 ^ 64.

(** [float64(n)] for an [int64] [n]: the nearest double, ties to even on the
    53-bit significand.  The result is an integer, returned as a [Z]. *)
Definition float64_of_int (n : Z) : Z :=
  let a := Z.abs n in
  let e := Z.log2 a - 52 in
  if e <=? 0 then n
  else
    let m := a / 2 ^ e in
    let r := a mod 2 ^ e in
    let half := 2 ^ (e - 1) in
    let m' := if (half <? r) || ((r =? half) && Z.odd m) then m + 1 else m in
    Z.sgn n * (m' * 2 ^ e).

Lemma int8_small x : in_int8 x -> int8 x = x.
Proof.
  unfold in_int8, int8, wrap_signed; intros H.
  change (2 ^ (8 - 1)) with 128. change (2 ^ 8) with 256.
  rewrite Z.mod_small by lia. lia.
Qed.

Lemma int64_small x : in_int64 x -> int64 x = x.
Proof.
  unfold in_int64, MinInt64, MaxInt64, int64, wrap_signed; intros H.
  change (64 - 1) with 63.
  assert (E : 2 ^ 64 = 2 * 2 ^ 63) by reflexivity.
  rewrite E. rewrite Z.mod_small by lia. lia.
Qed.

Lemma uint32_small x : in_uint32 x -> uint32 x = x.
Proof. unfold in_uint32, uint32, wrap_unsigned; intros; apply Z.mod_small; lia. Qed.

Lemma uint64_small x : in_uint64 x -> uint64 x = x.
Proof. unfold in_uint64, uint64, wrap_unsigned; intros; apply Z.mod_small; lia. Qed.

Lemma float64_of_int_exact n : Z.abs n <= 2 ^ 53 -> float64_of_int n = n.
Proof.
  intros H.
  destruct (Z.eq_dec n (2 ^ 53)) as [-> | N1]; [reflexivity|].
  destruct (Z.eq_dec n (- 2 ^ 53)) as [-> | N2]; [reflexivity|].
  unfold float64_of_int.
  destruct (Z.eq_dec n 0) as [->|Hn]; [reflexivity|].
  assert (L : Z.log2 (Z.abs n) < 53) by (apply Z.log2_lt_pow2; lia).
  destruct (Z.leb_spec (Z.log2 (Z.abs n) - 52) 0); [reflexivity | lia].
Qed.

Lemma int64_decomp x : exists k, int64 x = x + k * 2 ^ 64.
Proof.
  exists (- ((x + 2 ^ 63) / 2 ^ 64)).
  unfold int64, wrap_signed. change (64 - 1) with 63.
  rewrite Z.mod_eq by (apply Z.pow_nonzero; lia). lia.
Qed.

Lemma int64_shift x k : int64 (x + k * 2 ^ 64) = int64 x.
Proof.
  unfold int64, wrap_signed. change (64 - 1) with 63.
  replace (x + k * 2 ^ 64 + 2 ^ 63) with (x + 2 ^ 63 + k * 2 ^ 64) by lia.
  rewrite Z_mod_plus_full. reflexivity.
Qed.

Lemma int64_range x : in_int64 (int64 x).
Proof.
  unfold in_int64, MinInt64, MaxInt64, int64, wrap_signed. change (64 - 1) with 63.
  assert (E : 2 ^ 64 = 2 * 2 ^ 63) by reflexivity.
  pose proof (Z.mod_pos_bound (x + 2 ^ 63) (2 ^ 64) ltac:(lia)). lia.
Qed.

End MachineInt.
Import MachineInt.

(** ** [float64] arithmetic and [math.Log] *)

(** Go's [float64] operations, each rounded to the nearest double with ties
    to even, on finite values away from overflow and underflow, and
    [math.Log] as Go's library computes it from them (the algorithm of
    FreeBSD's [e_log.c]): the length [IntToTrits] allocates is a [float64]
    expression. *)
Module Float64.

(** A finite [float64], [mant * 2^expo]. *)
Record float64 : Type := Float { mant : Z; expo : Z }.

(** The number of bits of [|m|]. *)
Definition bitlen (m : Z) : Z := if m =? 0 then 0 else Z.log2 (Z.abs m) + 1.

(** [m * 2^e] rounded to a significand of 53 bits, ties to even. *)
Definition round (m e : Z) : float64 :=
  let l := bitlen m in
  if l <=? 53 then Float m e
  else
    let sh := l - 53 in
    let a := Z.abs m in
    let q := a / 2 ^ sh in
    let r := a mod 2 ^ sh in
    let half := 2 ^ (sh - 1) in
    let q' := if (half <? r) || ((r =? half) && Z.odd q) then q + 1 else q in
    Float (Z.sgn m * q') (e + sh).

(** [float64(n)] *)
Definition of_int (n : Z) : float64 := round n 0.

Definition add (a b : float64) : float64 :=
  let e := Z.min (expo a) (expo b) in
  round (mant a * 2 ^ (expo a - e) + mant b * 2 ^ (expo b - e)) e.

Definition sub (a b : float64) : float64 := add a (Float (- mant b) (expo b)).

Definition mul (a b : float64) : float64 := round (mant a * mant b) (expo a + expo b).

(** The quotient taken to 128 more bits with a sticky last bit, then
    rounded. *)
Definition div (a b : float64) : float64 :=
  let n := Z.abs (mant a) * 2 ^ 128 in
  let d := Z.abs (mant b) in
  let q := n / d in
  let sticky := if n mod d =? 0 then 0 else 1 in
  round (Z.sgn (mant a) * Z.sgn (mant b) * (2 * q + sticky)) (expo a - expo b - 129).

Definition ltb (a b : float64) : bool :=
  let e := Z.min (expo a) (expo b) in
  mant a * 2 ^ (expo a - e) <? mant b * 2 ^ (expo b - e).

(** [math.Frexp]: [x = frac * 2^exp] with [frac] in [[1/2, 1)]. *)
Definition Frexp (x : float64) : float64 * Z :=
  let l := bitlen (mant x) in (Float (mant x) (- l), expo x + l).

(** [math.Floor], returned as an integer. *)
Definition Floor (x : float64) : Z :=
  if 0 <=? expo x then mant x * 2 ^ expo x else mant x / 2 ^ (- expo x).

(** The positive normal [float64] with the given bits. *)
Definition of_bits (b : Z) : float64 := Float (2 ^ 52 + b mod 2 ^ 52) (b / 2 ^ 52 - 1075).

Definition Ln2Hi : float64 := of_bits 0x3fe62e42fee00000.
Definition Ln2Lo : float64 := of_bits 0x3dea39ef35793c76.
Definition L1 : float64 := of_bits 0x3FE5555555555593.
Definition L2 : float64 := of_bits 0x3FD999999997FA04.
Definition L3 : float64 := of_bits 0x3FD2492494229359.
Definition L4 : float64 := of_bits 0x3FCC71C51D8E78AF.
Definition L5 : float64 := of_bits 0x3FC7466496CB03DE.
Definition L6 : float64 := of_bits 0x3FC39A09D078C69F.
Definition L7 : float64 := of_bits 0x3FC2F112DF3E5244.

(** [Sqrt2/2] as a [float64]. *)
Definition Sqrt2_2 : float64 := of_bits 0x3FE6A09E667F3BCD.

(** [math.Log] on a finite [x > 0]: the reduction [x = 2^k * (1 + f)] and
    the polynomial.  The special cases (NaN, infinities, [x <= 0]) come
    before it in the library and are not reached from [IntToTrits], whose
    argument is at least 2.  Every operation is rounded on its own: no
    multiplication is fused with an addition, as in the code compiled for
    amd64. *)
Definition Log (x : float64) : float64 :=
  let '(f1, ki) := Frexp x in
  let '(f1, ki) := if ltb f1 Sqrt2_2 then (mul f1 (of_int 2), ki - 1) else (f1, ki) in
  let f := sub f1 (of_int 1) in
  let k := of_int ki in
  let s := div f (add (of_int 2) f) in
  let s2 := mul s s in
  let s4 := mul s2 s2 in
  let t1 := mul s2 (add L1 (mul s4 (add L3 (mul s4 (add L5 (mul s4 L7)))))) in
  let t2 := mul s4 (add L2 (mul s4 (add L4 (mul s4 L6)))) in
  let R := add t1 t2 in
  let hfsq := mul (mul (Float 1 (-1)) f) f in
  sub (mul k Ln2Hi) (sub (sub hfsq (add (mul s (add hfsq R)) (mul k Ln2Lo))) f).

End Float64.

(** ** Results of fallible Go functions *)

(** The error values of the two packages; [AtIndex cause i] is
    [errors.Wrapf(cause, "at index %d", i)]. *)
Inductive error : Type :=
| ErrInvalidTrit
| ErrInvalidTrytes
| ErrInvalidTritsLength
| ErrInvalidBytesLength
| ErrInvalidTrytesForProofOfWork
| ErrUnknownProofOfWorkFunc
| AtIndex (cause : error) (i : nat).

Inductive result (A : Type) : Type :=
| Ok (a : A)
| Err (e : error)
| Panic.
Arguments Ok {A} a.
Arguments Err {A} e.
Arguments Panic {A}.

Definition bind {A B : Type} (r : result A) (k : A -> result B) : result B :=
  match r with
  | Ok a => k a
  | Err e => Err e
  | Panic => Panic
  end.

Notation "x <- c1 ;; c2" := (bind c1 (fun x => c2))
  (at level 61, c1 at next level, right associativity).
Notation "' p <- c1 ;; c2" := (bind c1 (fun x => match x with p => c2 end))
  (at level 61, p pattern, c1 at next level, right associativity).

(** ** Slices *)

(** [l[i] = v] on a slice: the bounds check is made by the caller. *)
Fixpoint upd {A : Type} (i : nat) (v : A) (l : list A) : list A :=
  match l, i with
  | [], _ => []
  | _ :: xs, O => v :: xs
  | x :: xs, S j => x :: upd j v xs
  end.

Lemma upd_length {A} (i : nat) (v : A) l : length (upd i v l) = length l.
Proof. revert i; induction l; intros [|i]; simpl; auto. Qed.

Lemma nth_upd_same {A} (i : nat) (v d : A) l :
  (i < length l)%nat -> nth i (upd i v l) d = v.
Proof.
  revert i; induction l; intros [|i]; simpl; intros H; try lia; auto.
  apply IHl; lia.
Qed.

Lemma nth_upd_other {A} (i j : nat) (v d : A) l :
  i <> j -> nth j (upd i v l) d = nth j l d.
Proof.
  revert i j; induction l; intros [|i] [|j]; simpl; intros H; try congruence; auto.
Qed.

Lemma upd_app_at {A} (pre : list A) (i : nat) v x rest :
  length pre = i -> upd i v (pre ++ x :: rest) = pre ++ v :: rest.
Proof.
  intros <-. induction pre; simpl; [reflexivity | f_equal; assumption].
Qed.

Lemma Forall_firstn {A} {P : A -> Prop} (n : nat) {l : list A} :
  Forall P l -> Forall P (firstn n l).
Proof.
  intros H. revert n. induction H as [|x l Hx Hl IH]; intros [|n]; simpl;
    constructor; auto.
Qed.

(** ** Constants of package [consts] used by the code *)

(** Modelled from the spec: package [consts] is imported by the code but is
    not among the sources; the values are those of the specification's list of
    named constants. *)
Module Consts.
Definition TrinaryRadix : Z := 3.
Definition MinTritValue : Z := -1.
Definition MaxTritValue : Z := 1.
Definition HashTrinarySize : nat := 243.
Definition HashBytesSize : nat := 48.
Definition NonceTrinarySize : nat := 81.
Definition IntLength : nat := 12.
Definition TryteAlphabet : string := "9ABCDEFGHIJKLMNOPQRSTUVWXYZ".
End Consts.
Import Consts.

(** ** Package [bigint]: 384-bit integers as 32-bit limbs *)

(** Modelled from the spec: package [bigint] is imported by [trinary.go] but
    is not among the sources.  The specification gives "a 384-bit unsigned
    integer ... represented as twelve 32-bit little-endian limbs" with the
    operations is_null, cmp, not (bitwise complement), add_small (returning
    the new limb count), add, sub and reverse_bytes, and says that
    over/underflow inside them aborts.  Each operation below is written on a
    slice of limbs, least significant first, with a carry chain. *)
Module Bigint.

(** The integer a slice of limbs stands for. *)
Fixpoint limbs_value (b : list Z) : Z :=
  match b with
  | [] => 0
  | x :: rest => x + 2 ^ 32 * limbs_value rest
  end.

Definition limbs_ok (b : list Z) : Prop := Forall in_uint32 b.

(** Modelled from the spec: is_null. *)
Definition IsNull (b : list Z) : bool := forallb (fun x => x =? 0) b.

(** Modelled from the spec: not, the bitwise complement of every limb. *)
Definition Not (b : list Z) : list Z := map (fun x => uint32 (Z.lnot x)) b.

(** Modelled from the spec: one limb of a carry chain. *)
Definition FullAdd (lh rh : Z) (carry : bool) : Z * bool :=
  let v := lh + rh + (if carry then 1 else 0) in
  (uint32 v, 2 ^ 32 <=? v).

Fixpoint add_chain (b rh : list Z) (carry : bool) : list Z * bool :=
  match b, rh with
  | x :: b', y :: rh' =>
      let '(v, c) := FullAdd x y carry in
      let '(r, cout) := add_chain b' rh' c in
      (v :: r, cout)
  | _, _ => ([], carry)
  end.

(** Modelled from the spec: add; slices of different lengths and a carry out
    of the last limb abort. *)
Definition MustAdd (b rh : list Z) : result (list Z) :=
  if negb (length b =? length rh)%nat then Panic
  else let '(r, c) := add_chain b rh false in
       if c then Panic else Ok r.

(** Modelled from the spec: sub, as the addition of the complement plus one;
    slices of different lengths and a borrow out of the last limb abort. *)
Definition MustSub (b rh : list Z) : result (list Z) :=
  if negb (length b =? length rh)%nat then Panic
  else let '(r, noborrow) := add_chain b (Not rh) true in
       if noborrow then Ok r else Panic.

(** Modelled from the spec: cmp, -1, 0 or 1; the most significant limb that
    differs decides. *)
Fixpoint cmp_limbs (lh rh : list Z) : Z :=
  match lh, rh with
  | x :: lh', y :: rh' =>
      let c := cmp_limbs lh' rh' in
      if c =? 0 then (if x <? y then -1 else if y <? x then 1 else 0) else c
  | _, _ => 0
  end.

Definition MustCmp (lh rh : list Z) : result Z :=
  if negb (length lh =? length rh)%nat then Panic
  else Ok (cmp_limbs lh rh).

(** The carry of [AddSmall] running up the limbs; [i] is the index reached.
    Running off the slice is an index out of range. *)
Fixpoint add_carry (b : list Z) (carry : bool) (i : nat) : result (list Z * nat) :=
  match b with
  | [] => if carry then Panic else Ok ([], i)
  | x :: b' =>
      if carry then
        let '(v, c) := FullAdd x 0 carry in
        '(r, j) <- add_carry b' c (S i) ;;
        Ok (v :: r, j)
      else Ok (b, i)
  end.

(** Modelled from the spec: add_small, adding a 32-bit number to the lowest
    limb and returning the limbs with the index after the last carry. *)
Definition AddSmall (b : list Z) (a : Z) : result (list Z * nat) :=
  match b with
  | [] => Panic
  | x :: b' =>
      let '(v, c) := FullAdd x a false in
      '(r, i) <- add_carry b' c 1%nat ;;
      Ok (v :: r, i)
  end.

(** Modelled from the spec: reverse_bytes. *)
Definition Reverse (b : list Z) : list Z := rev b.

(** A byte buffer read as 32-bit limbs and back, as the code does through
    [unsafe.Pointer] on a little-endian machine. *)
Definition limb_bytes (x : Z) : list Z :=
  [x mod 256; (x / 256) mod 256; (x / 65536) mod 256; (x / 16777216) mod 256].

Definition bytes_of_limbs (b : list Z) : list Z := flat_map limb_bytes b.

Fixpoint limbs_of_bytes (bs : list Z) : list Z :=
  match bs with
  | b0 :: b1 :: b2 :: b3 :: rest =>
      (b0 + 256 * b1 + 65536 * b2 + 16777216 * b3) :: limbs_of_bytes rest
  | _ => []
  end.

(** The integer a big-endian byte string stands for. *)
Definition bytes_value (bs : list Z) : Z :=
  fold_left (fun acc b => acc * 256 + b) bs 0.

(** *** What the operations compute *)

(** The weight of the limb at index [n]. *)
Definition weight (n : nat) : Z := 2 ^ (32 * Z.of_nat n).

Arguments weight : simpl never.

Lemma weight_0 : weight 0 = 1.
Proof. reflexivity. Qed.

Lemma weight_succ n : weight (S n) = 2 ^ 32 * weight n.
Proof.
  unfold weight. rewrite Nat2Z.inj_succ.
  replace (32 * Z.succ (Z.of_nat n)) with (32 + 32 * Z.of_nat n) by lia.
  rewrite Z.pow_add_r by lia. reflexivity.
Qed.

Lemma weight_pos n : 0 < weight n.
Proof. unfold weight. apply Z.pow_pos_nonneg; lia. Qed.

Lemma weight_add n m : weight (n + m) = weight n * weight m.
Proof.
  unfold weight. rewrite Nat2Z.inj_add, Z.mul_add_distr_l, Z.pow_add_r by lia.
  reflexivity.
Qed.

Lemma weight_mono n m : (n <= m)%nat -> weight n <= weight m.
Proof.
  intros H. replace m with (n + (m - n))%nat by lia. rewrite weight_add.
  pose proof (weight_pos n). pose proof (weight_pos (m - n)). nia.
Qed.

Lemma limbs_value_bound b : limbs_ok b -> 0 <= limbs_value b < weight (length b).
Proof.
  induction 1 as [|x b Hx Hb IH].
  - simpl. rewrite weight_0. lia.
  - cbn [limbs_value length]. rewrite weight_succ. unfold in_uint32 in Hx. lia.
Qed.

Lemma limbs_value_app a b :
  limbs_value (a ++ b) = limbs_value a + weight (length a) * limbs_value b.
Proof.
  induction a as [|x a IH].
  - cbn [app limbs_value length]. rewrite weight_0. lia.
  - cbn [app limbs_value length]. rewrite IH, weight_succ. lia.
Qed.

Lemma limbs_value_zeros n : limbs_value (repeat 0 n) = 0.
Proof. induction n; simpl; [reflexivity | rewrite IHn; reflexivity]. Qed.

Lemma limbs_ok_zeros n : limbs_ok (repeat 0 n).
Proof. induction n; simpl; constructor; auto. unfold in_uint32. lia. Qed.

Lemma limbs_ok_app a b : limbs_ok a -> limbs_ok b -> limbs_ok (a ++ b).
Proof. intros; apply Forall_app; split; assumption. Qed.

Lemma IsNull_spec b : limbs_ok b -> (IsNull b = true <-> limbs_value b = 0).
Proof.
  induction 1 as [|x b Hx Hb IH].
  - simpl. tauto.
  - cbn [IsNull forallb limbs_value]. fold (IsNull b).
    pose proof (limbs_value_bound b Hb) as B. unfold in_uint32 in Hx.
    rewrite andb_true_iff, Z.eqb_eq, IH. lia.
Qed.

Lemma FullAdd_spec x y c :
  in_uint32 x -> in_uint32 y ->
  in_uint32 (fst (FullAdd x y c))
  /\ fst (FullAdd x y c) + 2 ^ 32 * Z.b2z (snd (FullAdd x y c)) = x + y + Z.b2z c.
Proof.
  unfold in_uint32, FullAdd, uint32, wrap_unsigned. intros Hx Hy. cbn [fst snd].
  fold (Z.b2z c). set (v := x + y + Z.b2z c).
  assert (Hv : 0 <= v < 2 * 2 ^ 32) by (subst v; destruct c; simpl; lia).
  split; [apply Z.mod_pos_bound; lia|].
  destruct (Z.leb_spec (2 ^ 32) v) as [L | L]; cbn [Z.b2z].
  - replace v with ((v - 2 ^ 32) + 1 * 2 ^ 32) at 1 by lia.
    rewrite Z_mod_plus_full, Z.mod_small by lia. lia.
  - rewrite Z.mod_small by lia. lia.
Qed.

Lemma add_chain_spec b : forall rh c,
  limbs_ok b -> limbs_ok rh -> length b = length rh ->
  limbs_ok (fst (add_chain b rh c)) /\ length (fst (add_chain b rh c)) = length b
  /\ limbs_value (fst (add_chain b rh c)) + weight (length b) * Z.b2z (snd (add_chain b rh c))
     = limbs_value b + limbs_value rh + Z.b2z c.
Proof.
  induction b as [|x b IH]; intros rh c Hb Hr L.
  - destruct rh; [|discriminate]. cbn. rewrite weight_0. repeat split; [constructor | lia].
  - destruct rh as [|y rh]; [discriminate|].
    inversion Hb as [|? ? Hx Hb']; subst. inversion Hr as [|? ? Hy Hr']; subst.
    cbn [add_chain].
    pose proof (FullAdd_spec x y c Hx Hy) as [Fv Fe].
    destruct (FullAdd x y c) as [v c'] eqn:EF. cbn [fst snd] in Fv, Fe.
    specialize (IH rh c' Hb' Hr' ltac:(simpl in L; lia)).
    destruct (add_chain b rh c') as [r cout] eqn:EC. cbn [fst snd] in IH |- *.
    destruct IH as (Ok' & Len & Val).
    split; [constructor; assumption|]. split; [simpl; lia|].
    cbn [limbs_value length]. rewrite weight_succ. lia.
Qed.

Lemma Not_spec b :
  limbs_ok b ->
  limbs_ok (Not b) /\ length (Not b) = length b
  /\ limbs_value (Not b) = weight (length b) - 1 - limbs_value b.
Proof.
  induction 1 as [|x b Hx Hb (IHo & IHl & IHv)].
  - cbn. rewrite weight_0. split; [constructor | split; [reflexivity | lia]].
  - cbn [Not map limbs_value length]. fold (Not b). rewrite weight_succ, IHv.
    assert (E : uint32 (Z.lnot x) = 2 ^ 32 - 1 - x).
    { unfold uint32, wrap_unsigned, Z.lnot, in_uint32 in *.
      replace (Z.pred (- x)) with ((2 ^ 32 - 1 - x) + (-1) * 2 ^ 32) by lia.
      rewrite Z_mod_plus_full. apply Z.mod_small. lia. }
    rewrite E. split; [|split; [simpl; lia | lia]].
    constructor; [unfold in_uint32 in *; lia | exact IHo].
Qed.

Lemma MustAdd_spec b rh :
  limbs_ok b -> limbs_ok rh -> length b = length rh ->
  limbs_value b + limbs_value rh < weight (length b) ->
  exists r, MustAdd b rh = Ok r /\ limbs_ok r /\ length r = length b
    /\ limbs_value r = limbs_value b + limbs_value rh.
Proof.
  intros Hb Hr L Bd. unfold MustAdd. rewrite L, Nat.eqb_refl. cbn [negb].
  destruct (add_chain_spec b rh false Hb Hr L) as (O & Len & Val).
  destruct (add_chain b rh false) as [r c]. cbn [fst snd] in *.
  pose proof (limbs_value_bound r O) as Br. rewrite Len in Br.
  pose proof (weight_pos (length b)).
  destruct c; cbn [Z.b2z] in Val; [lia|].
  exists r. split; [reflexivity|]. split; [exact O|]. split; [congruence|]. lia.
Qed.

Lemma MustSub_spec b rh :
  limbs_ok b -> limbs_ok rh -> length b = length rh ->
  limbs_value rh <= limbs_value b ->
  exists r, MustSub b rh = Ok r /\ limbs_ok r /\ length r = length b
    /\ limbs_value r = limbs_value b - limbs_value rh.
Proof.
  intros Hb Hr L Bd. unfold MustSub. rewrite L, Nat.eqb_refl. cbn [negb].
  destruct (Not_spec rh Hr) as (No & Nl & Nv).
  destruct (add_chain_spec b (Not rh) true Hb No ltac:(lia)) as (O & Len & Val).
  destruct (add_chain b (Not rh) true) as [r c]. cbn [fst snd] in *.
  pose proof (limbs_value_bound r O) as Br. rewrite Len in Br.
  pose proof (limbs_value_bound b Hb) as Bb.
  rewrite Nv, <- L in Val. cbn [Z.b2z] in Val.
  destruct c; cbn [Z.b2z] in Val; [|lia].
  exists r. split; [reflexivity|]. split; [exact O|]. split; [congruence|]. lia.
Qed.

Lemma cmp_limbs_spec lh : forall rh,
  limbs_ok lh -> limbs_ok rh -> length lh = length rh ->
  (cmp_limbs lh rh = -1 /\ limbs_value lh < limbs_value rh)
  \/ (cmp_limbs lh rh = 0 /\ limbs_value lh = limbs_value rh)
  \/ (cmp_limbs lh rh = 1 /\ limbs_value rh < limbs_value lh).
Proof.
  induction lh as [|x lh IH]; intros rh Hl Hr L.
  - destruct rh; [|discriminate]. right; left. split; reflexivity.
  - destruct rh as [|y rh]; [discriminate|].
    inversion Hl as [|? ? Hx Hl']; subst. inversion Hr as [|? ? Hy Hr']; subst.
    cbn [cmp_limbs limbs_value]. unfold in_uint32 in Hx, Hy.
    destruct (IH rh Hl' Hr' ltac:(simpl in L; lia)) as [[E V] | [[E V] | [E V]]]; rewrite E.
    + left. split; [reflexivity | lia].
    + change (0 =? 0) with true. cbv iota.
      destruct (Z.ltb_spec x y); [left; split; [reflexivity | lia]|].
      destruct (Z.ltb_spec y x); [right; right; split; [reflexivity | lia]|].
      right; left. split; [reflexivity | lia].
    + right; right. split; [reflexivity | lia].
Qed.

Lemma add_carry_spec b : forall c i,
  limbs_ok b -> limbs_value b + Z.b2z c < weight (length b) ->
  exists r j, add_carry b c i = Ok (r, j) /\ limbs_ok r /\ length r = length b
    /\ limbs_value r = limbs_value b + Z.b2z c
    /\ (i <= j <= i + length b)%nat /\ skipn (j - i) r = skipn (j - i) b.
Proof.
  induction b as [|x b IH]; intros c i Hb Bd.
  - cbn [limbs_value length] in Bd. rewrite weight_0 in Bd.
    destruct c; cbn [Z.b2z] in Bd; [lia|].
    exists [], i. cbn. repeat split; [constructor | lia | lia].
  - inversion Hb as [|? ? Hx Hb']; subst. cbn [add_carry].
    destruct c.
    + assert (H0 : in_uint32 0) by (unfold in_uint32; lia).
      pose proof (FullAdd_spec x 0 true Hx H0) as [Fv Fe].
      destruct (FullAdd x 0 true) as [v c'] eqn:EF. cbn [fst snd] in Fv, Fe.
      cbn [limbs_value length Z.b2z] in Bd. rewrite weight_succ in Bd.
      cbn [Z.b2z] in Fe.
      destruct (IH c' (S i) Hb') as (r & j & E & O & Len & Val & Rg & Sk).
      { pose proof (limbs_value_bound b Hb'). unfold in_uint32 in Fv. nia. }
      rewrite E. cbn [bind]. exists (v :: r), j.
      split; [reflexivity|]. split; [constructor; assumption|].
      split; [simpl; lia|]. split; [cbn [limbs_value Z.b2z]; lia|].
      split; [simpl; lia|].
      replace (j - i)%nat with (S (j - S i)) by lia. cbn [skipn]. exact Sk.
    + exists (x :: b), i. split; [reflexivity|]. split; [assumption|].
      split; [reflexivity|]. split; [cbn [Z.b2z]; lia|]. split; [simpl; lia|].
      reflexivity.
Qed.

Lemma AddSmall_spec b a :
  limbs_ok b -> b <> [] -> in_uint32 a ->
  limbs_value b + a < weight (length b) ->
  exists r ns, AddSmall b a = Ok (r, ns) /\ limbs_ok r /\ length r = length b
    /\ limbs_value r = limbs_value b + a
    /\ (1 <= ns <= length b)%nat /\ skipn ns r = skipn ns b.
Proof.
  intros Hb NE Ha Bd. destruct b as [|x b]; [contradiction|].
  inversion Hb as [|? ? Hx Hb']; subst. cbn [AddSmall].
  pose proof (FullAdd_spec x a false Hx Ha) as [Fv Fe].
  destruct (FullAdd x a false) as [v c'] eqn:EF. cbn [fst snd Z.b2z] in Fv, Fe.
  cbn [limbs_value length] in Bd. rewrite weight_succ in Bd.
  destruct (add_carry_spec b c' 1%nat Hb') as (r & j & E & O & Len & Val & Rg & Sk).
  { pose proof (limbs_value_bound b Hb'). unfold in_uint32 in Fv. nia. }
  rewrite E. cbn [bind]. exists (v :: r), j.
  split; [reflexivity|]. split; [constructor; assumption|].
  split; [simpl; lia|]. split; [cbn [limbs_value]; lia|].
  split; [simpl; lia|].
  replace j with (S (j - 1)) by lia. cbn [skipn]. exact Sk.
Qed.

(** *** Limbs and bytes *)

Definition is_byte (b : Z) : Prop := 0 <= b < 256.

Lemma limb_bytes_digits x :
  in_uint32 x ->
  x = x mod 256 + 256 * ((x / 256) mod 256) + 65536 * ((x / 65536) mod 256)
      + 16777216 * ((x / 16777216) mod 256).
Proof.
  unfold in_uint32. change (2 ^ 32) with 4294967296. intros Hx.
  change 65536 with (256 * 256). change 16777216 with (256 * 256 * 256).
  rewrite <- !Z.div_div by lia.
  pose proof (Z.div_mod x 256 ltac:(lia)).
  pose proof (Z.div_mod (x / 256) 256 ltac:(lia)).
  pose proof (Z.div_mod (x / 256 / 256) 256 ltac:(lia)).
  pose proof (Z.mod_pos_bound x 256 ltac:(lia)).
  pose proof (Z.mod_pos_bound (x / 256) 256 ltac:(lia)).
  pose proof (Z.mod_pos_bound (x / 256 / 256) 256 ltac:(lia)).
  assert (0 <= x / 256 / 256 / 256 < 256).
  { split; [repeat apply Z.div_pos; lia|].
    repeat (apply Z.div_lt_upper_bound; [lia|]). lia. }
  rewrite (Z.mod_small (x / 256 / 256 / 256)) by lia. lia.
Qed.

Lemma limb_bytes_ok x : Forall is_byte (limb_bytes x).
Proof.
  unfold limb_bytes, is_byte.
  repeat constructor; apply Z.mod_pos_bound; lia.
Qed.

Lemma bytes_of_limbs_ok b : Forall is_byte (bytes_of_limbs b).
Proof.
  induction b as [|x b IH]; [constructor|].
  cbn [bytes_of_limbs flat_map]. apply Forall_app. split; [apply limb_bytes_ok | exact IH].
Qed.

Lemma bytes_of_limbs_length b : length (bytes_of_limbs b) = (4 * length b)%nat.
Proof.
  induction b as [|x b IH]; [reflexivity|].
  cbn [bytes_of_limbs flat_map]. rewrite length_app. fold (bytes_of_limbs b).
  rewrite IH. simpl. lia.
Qed.

Lemma limbs_of_bytes_of_limbs b : limbs_ok b -> limbs_of_bytes (bytes_of_limbs b) = b.
Proof.
  induction 1 as [|x b Hx Hb IH]; [reflexivity|].
  cbn [bytes_of_limbs flat_map limb_bytes app limbs_of_bytes]. fold (bytes_of_limbs b).
  rewrite IH. f_equal. symmetry. rewrite (limb_bytes_digits x Hx) at 1. lia.
Qed.

(** The same bytes read least significant first. *)
Fixpoint le_bytes_value (bs : list Z) : Z :=
  match bs with
  | [] => 0
  | b :: rest => b + 256 * le_bytes_value rest
  end.

Lemma bytes_value_rev bs : bytes_value (rev bs) = le_bytes_value bs.
Proof.
  unfold bytes_value. induction bs as [|b bs IH]; [reflexivity|].
  cbn [rev le_bytes_value]. rewrite fold_left_app. cbn [fold_left]. rewrite IH. lia.
Qed.

Lemma le_bytes_value_of_limbs b : limbs_ok b -> le_bytes_value (bytes_of_limbs b) = limbs_value b.
Proof.
  induction 1 as [|x b Hx Hb IH]; [reflexivity|].
  cbn [bytes_of_limbs flat_map limb_bytes app le_bytes_value limbs_value].
  fold (bytes_of_limbs b). rewrite IH.
  rewrite (limb_bytes_digits x Hx) at 5. change (2 ^ 32) with 4294967296. lia.
Qed.

(** The bytes written for a slice of limbs, most significant byte first. *)
Lemma Reverse_bytes_value b :
  limbs_ok b -> bytes_value (Reverse (bytes_of_limbs b)) = limbs_value b.
Proof. intros H. unfold Reverse. rewrite bytes_value_rev. apply le_bytes_value_of_limbs, H. Qed.

Lemma bytes_value_app a b :
  bytes_value (a ++ b) = bytes_value a * 256 ^ Z.of_nat (length b) + bytes_value b.
Proof.
  rewrite <- (rev_involutive a), <- (rev_involutive b), <- rev_app_distr.
  rewrite !bytes_value_rev, length_rev.
  generalize (rev a) as a'. generalize (rev b) as b'. clear.
  induction b' as [|x b' IH]; intros a'.
  - cbn [app le_bytes_value length]. change (256 ^ Z.of_nat 0) with 1. lia.
  - cbn [app le_bytes_value length]. rewrite IH.
    rewrite Nat2Z.inj_succ, Z.pow_succ_r by lia. lia.
Qed.

Lemma bytes_value_bound bs : Forall is_byte bs -> 0 <= bytes_value bs < 256 ^ Z.of_nat (length bs).
Proof.
  intros H. rewrite <- (rev_involutive bs), bytes_value_rev, length_rev.
  apply Forall_rev in H. revert H. generalize (rev bs) as l.
  induction 1 as [|x l Hx Hl IH].
  - cbn. lia.
  - cbn [le_bytes_value length]. rewrite Nat2Z.inj_succ, Z.pow_succ_r by lia.
    unfold is_byte in Hx. lia.
Qed.

(** Four bytes read as a limb are the four bytes the limb is written as. *)
Lemma limb_bytes_of_bytes b0 b1 b2 b3 :
  is_byte b0 -> is_byte b1 -> is_byte b2 -> is_byte b3 ->
  limb_bytes (b0 + 256 * b1 + 65536 * b2 + 16777216 * b3) = [b0; b1; b2; b3]
  /\ in_uint32 (b0 + 256 * b1 + 65536 * b2 + 16777216 * b3).
Proof.
  unfold is_byte, in_uint32, limb_bytes. change (2 ^ 32) with 4294967296.
  intros H0 H1 H2 H3. split; [|lia].
  set (x := b0 + 256 * b1 + 65536 * b2 + 16777216 * b3).
  assert (E0 : x mod 256 = b0).
  { subst x. Z.div_mod_to_equations. lia. }
  assert (D1 : x / 256 = b1 + 256 * b2 + 65536 * b3).
  { subst x. Z.div_mod_to_equations. lia. }
  assert (D2 : x / 65536 = b2 + 256 * b3).
  { subst x. Z.div_mod_to_equations. lia. }
  assert (D3 : x / 16777216 = b3).
  { subst x. Z.div_mod_to_equations. lia. }
  rewrite E0, D1, D2, D3.
  assert (E1 : (b1 + 256 * b2 + 65536 * b3) mod 256 = b1).
  { Z.div_mod_to_equations. lia. }
  assert (E2 : (b2 + 256 * b3) mod 256 = b2).
  { Z.div_mod_to_equations. lia. }
  rewrite E1, E2, (Z.mod_small b3) by lia. reflexivity.
Qed.

Lemma bytes_of_limbs_of_bytes k : forall bs,
  length bs = (4 * k)%nat -> Forall is_byte bs ->
  bytes_of_limbs (limbs_of_bytes bs) = bs
  /\ limbs_ok (limbs_of_bytes bs) /\ length (limbs_of_bytes bs) = k.
Proof.
  induction k as [|k IH]; intros bs L B.
  - destruct bs; [|discriminate L]. repeat split. constructor.
  - destruct bs as [|b0 [|b1 [|b2 [|b3 rest]]]]; try (simpl in L; lia).
    inversion B as [|? ? H0 B0]; subst. inversion B0 as [|? ? H1 B1]; subst.
    inversion B1 as [|? ? H2 B2]; subst. inversion B2 as [|? ? H3 B3]; subst.
    destruct (IH rest ltac:(simpl in L; lia) B3) as (E & O & Lr).
    destruct (limb_bytes_of_bytes b0 b1 b2 b3 H0 H1 H2 H3) as [Eb Ob].
    cbn [limbs_of_bytes bytes_of_limbs flat_map]. fold (bytes_of_limbs (limbs_of_bytes rest)).
    rewrite Eb, E. split; [reflexivity|]. split; [constructor; assumption|].
    cbn [length]. congruence.
Qed.

(** Limbs of one length are determined by their value. *)
Lemma limbs_value_inj a : forall b,
  limbs_ok a -> limbs_ok b -> length a = length b ->
  limbs_value a = limbs_value b -> a = b.
Proof.
  induction a as [|x a IH]; intros [|y b] Oa Ob L E; try discriminate L; [reflexivity|].
  inversion Oa as [|? ? Hx Oa']; subst. inversion Ob as [|? ? Hy Ob']; subst.
  cbn [limbs_value] in E. unfold in_uint32 in Hx, Hy.
  change (2 ^ 32) with 4294967296 in *.
  assert (x = y) by lia. subst y.
  f_equal. apply IH; try assumption; [simpl in L; lia | lia].
Qed.

(** A subtraction that would go below zero leaves a borrow and aborts. *)
Lemma MustSub_underflow b rh :
  limbs_ok b -> limbs_ok rh -> length b = length rh ->
  limbs_value b < limbs_value rh -> MustSub b rh = Panic.
Proof.
  intros Hb Hr L Bd. unfold MustSub. rewrite L, Nat.eqb_refl. cbn [negb].
  destruct (Not_spec rh Hr) as (NO & NL & NV).
  destruct (add_chain_spec b (Not rh) true Hb NO ltac:(congruence)) as (O & Lr & V).
  destruct (add_chain b (Not rh) true) as [r c]. cbn [fst snd] in *.
  pose proof (limbs_value_bound r O) as Br.
  rewrite NV, <- L in V. destruct c; [|reflexivity].
  exfalso. cbn [Z.b2z] in V. lia.
Qed.

End Bigint.

(** ** Package [trinary]: trits, integers and balanced-ternary addition *)

Module Trinary.

Definition Trits : Type := list Z.

(** [ValidTrit] *)
Definition ValidTrit (t : Z) : bool :=
  if (t =? -1) || (t =? 0) || (t =? 1) then true else false.

(** The loop of [ValidTrits], [for i, tt := range t], from index [i] on. *)
Fixpoint valid_trits_from (i : nat) (t : Trits) : result unit :=
  match t with
  | [] => Ok tt
  | tt' :: rest =>
      if negb (ValidTrit tt') then Err (AtIndex ErrInvalidTrit i)
      else valid_trits_from (S i) rest
  end.

(** [ValidTrits]: the error is [ErrInvalidTrit] wrapped with the index of the
    first trit that is not valid. *)
Definition ValidTrits (t : Trits) : result unit := valid_trits_from 0 t.

Definition valid_trits (t : Trits) : Prop := Forall (fun x => ValidTrit x = true) t.

(** The integer a little-endian trit slice stands for. *)
Fixpoint trits_value (t : Trits) : Z :=
  match t with
  | [] => 0
  | x :: rest => x + 3 * trits_value rest
  end.

(** [TritsToInt]: Horner's rule from the last index down, in [int64]. *)
Definition TritsToInt (t : Trits) : Z :=
  fold_right (fun ti val => int64 (int64 (val * 3) + ti)) 0 t.

(** [log3 x] is the largest [k] with [3^k <= x], for [1 <= x < 3^fuel]: the
    exact value of [floor(log(x) / log(3))]. *)
Fixpoint log3 (fuel : nat) (x : Z) : Z :=
  match fuel with
  | O => 0
  | S f => if x <? 3 then 0 else 1 + log3 f (x / 3)
  end.

(** The length [IntToTrits] allocates,
    [int(1 + math.Floor(math.Log(2*math.Max(1, math.Abs(float64(value)))) / math.Log(3)))],
    evaluated in [float64] as the code does. *)
Definition alloc_len (value : Z) : Z :=
  let x := Float64.mul (Float64.of_int 2)
             (Float64.of_int (Z.max 1 (Z.abs (float64_of_int value)))) in
  Float64.Floor
    (Float64.add (Float64.of_int 1)
       (Float64.of_int
          (Float64.Floor (Float64.div (Float64.Log x) (Float64.Log (Float64.of_int 3)))))).

(** The division loop of [IntToTrits]: [for absoluteValue > 0 { ... }].  Each
    turn writes [dest[i]], which panics once [i] reaches [len(dest)]; [fuel]
    only has to exceed [len(dest)]. *)
Fixpoint int_to_trits_loop (fuel : nat) (absoluteValue : Z) (i : nat) (dest : Trits)
  : result Trits :=
  if absoluteValue >? 0 then
    match fuel with
    | O => Panic
    | S f =>
        let remainder := Z.rem absoluteValue TrinaryRadix in
        let absoluteValue := int64 (float64_of_int (Z.quot absoluteValue TrinaryRadix)) in
        let '(remainder, absoluteValue) :=
          if remainder >? MaxTritValue
          then (MinTritValue, int64 (absoluteValue + 1))
          else (remainder, absoluteValue) in
        if (i <? length dest)%nat
        then int_to_trits_loop f absoluteValue (S i) (upd i (int8 remainder) dest)
        else Panic
    end
  else Ok dest.

(** [IntToTrits] with the allocated length [n] made explicit. *)
Definition IntToTrits_alloc (n : nat) (value : Z) : result Trits :=
  if value =? 0 then Ok [0]
  else
    let dest := repeat 0 n in
    let absoluteValue := if value <? 0 then int64 (- value) else value in
    dest <- int_to_trits_loop (S n) absoluteValue 0 dest ;;
    Ok (if value <? 0 then map (fun d => int8 (- d)) dest else dest).

(** [IntToTrits]; [make] with a negative length panics. *)
Definition IntToTrits (value : Z) : result Trits :=
  if value =? 0 then Ok [0]
  else if alloc_len value <? 0 then Panic
  else IntToTrits_alloc (Z.to_nat (alloc_len value)) value.

(** [sum], [cons], [any] and [fullAdd], on [int8] *)
Definition sum (a b : Z) : Z :=
  let s := int8 (a + b) in
  if s =? 2 then -1 else if s =? -2 then 1 else s.

Definition cons (a b : Z) : Z := if a =? b then a else 0.

Definition any (a b : Z) : Z :=
  let s := int8 (a + b) in
  if s >? 0 then 1 else if s <? 0 then -1 else 0.

Definition fullAdd (a b c : Z) : Z * Z :=
  let sA := sum a b in
  let cA := cons a b in
  let cB := cons sA c in
  let cOut := any cA cB in
  let sOut := sum sA c in
  (sOut, cOut).

(** The loop of [AddTrits]: [n] turns left, at index [i]. *)
Fixpoint add_trits_loop (n i : nat) (a b : Trits) (carry : Z) : Trits :=
  match n with
  | O => []
  | S n' =>
      let aI := if (i <? length a)%nat then nth i a 0 else 0 in
      let bI := if (i <? length b)%nat then nth i b 0 else 0 in
      let fA := fullAdd aI bI carry in
      fst fA :: add_trits_loop n' (S i) a b (snd fA)
  end.

(** [AddTrits] *)
Definition AddTrits (a b : Trits) : Trits :=
  let maxLen := Nat.max (length a) (length b) in
  if (maxLen =? 0)%nat then [0]
  else add_trits_loop maxLen 0 a b 0.

(** [TryteToTritsLUT] *)
Definition TryteToTritsLUT : list (list Z) :=
  [ [0; 0; 0]; [1; 0; 0]; [-1; 1; 0]; [0; 1; 0];
    [1; 1; 0]; [-1; -1; 1]; [0; -1; 1]; [1; -1; 1];
    [-1; 0; 1]; [0; 0; 1]; [1; 0; 1]; [-1; 1; 1];
    [0; 1; 1]; [1; 1; 1]; [-1; -1; -1]; [0; -1; -1];
    [1; -1; -1]; [-1; 0; -1]; [0; 0; -1]; [1; 0; -1];
    [-1; 1; -1]; [0; 1; -1]; [1; 1; -1]; [-1; -1; 0];
    [0; -1; 0]; [1; -1; 0]; [-1; 0; 0] ].

Definition Trytes : Type := string.

(** [CanTritsToTrytes] *)
Definition CanTritsToTrytes (trits : Trits) : bool :=
  if (length trits =? 0)%nat then false
  else (length trits mod 3 =? 0)%nat.

(** [TryteAlphabet[j]] for an [int8] index: out of range panics. *)
Definition alphabet_at (j : Z) : result ascii :=
  if j <? 0 then Panic
  else match String.get (Z.to_nat j) TryteAlphabet with
       | Some ch => Ok ch
       | None => Panic
       end.

(** The index of a group of three trits in the alphabet, in [int8]. *)
Definition tryte_index (t0 t1 t2 : Z) : Z :=
  let j := int8 (int8 (t0 + int8 (t1 * 3)) + int8 (t2 * 9)) in
  if j <? 0 then int8 (j + int8 (Z.of_nat (String.length TryteAlphabet))) else j.

(** The loop of [TritsToTrytes] over [len(trits)/3] groups, three trits at a
    time. *)
Fixpoint trits_to_trytes_loop (trits : Trits) : result Trytes :=
  match trits with
  | t0 :: t1 :: t2 :: rest =>
      ch <- alphabet_at (tryte_index t0 t1 t2) ;;
      o <- trits_to_trytes_loop rest ;;
      Ok (String ch o)
  | _ => Ok EmptyString
  end.

(** [TritsToTrytes] *)
Definition TritsToTrytes (trits : Trits) : result Trytes :=
  if negb (CanTritsToTrytes trits) then Err ErrInvalidTritsLength
  else trits_to_trytes_loop trits.

(** One character of the class [[9A-Z]]. *)
Definition tryte_char (c : ascii) : bool :=
  let n := nat_of_ascii c in
  (n =? 57)%nat || ((65 <=? n)%nat && (n <=? 90)%nat).

Fixpoint all_tryte_chars (s : string) : bool :=
  match s with
  | EmptyString => true
  | String c rest => tryte_char c && all_tryte_chars rest
  end.

(** [ValidTrytes]: the string matches [^[9A-Z]+$]. *)
Definition ValidTrytes (trytes : Trytes) : result unit :=
  match trytes with
  | EmptyString => Err ErrInvalidTrytes
  | _ => if all_tryte_chars trytes then Ok tt else Err ErrInvalidTrytes
  end.

(** [strings.Index] of a one-character string: the first position, or -1. *)
Fixpoint Index (s : string) (c : ascii) : Z :=
  match s with
  | EmptyString => -1
  | String d rest =>
      if Ascii.eqb d c then 0
      else let k := Index rest c in if k <? 0 then -1 else k + 1
  end.

(** [TryteToTritsLUT[idx]]: out of range panics. *)
Definition lut_at (idx : Z) : result (list Z) :=
  if idx <? 0 then Panic
  else match nth_error TryteToTritsLUT (Z.to_nat idx) with
       | Some row => Ok row
       | None => Panic
       end.

(** The loop of [TrytesToTrits]: the three trits of each character, in order. *)
Fixpoint trytes_to_trits_loop (trytes : Trytes) : result Trits :=
  match trytes with
  | EmptyString => Ok []
  | String c rest =>
      row <- lut_at (Index TryteAlphabet c) ;;
      trits <- trytes_to_trits_loop rest ;;
      Ok (firstn 3 row ++ trits)
  end.

(** [TrytesToTrits] *)
Definition TrytesToTrits (trytes : Trytes) : result Trits :=
  _ <- ValidTrytes trytes ;;
  trytes_to_trits_loop trytes.

Example TritsToTrytes_M : TritsToTrytes [1; 1; 1] = Ok "M"%string.
Proof. reflexivity. Qed.
Example TrytesToTrits_O : TrytesToTrits "O"%string = Ok [0; -1; -1].
Proof. reflexivity. Qed.
Example TritsToTrytes_short : TritsToTrytes [1; 1] = Err ErrInvalidTritsLength.
Proof. reflexivity. Qed.
Example TrytesToTrits_empty : TrytesToTrits EmptyString = Err ErrInvalidTrytes.
Proof. reflexivity. Qed.

(** [halfThree]: twelve 32-bit limbs, least significant first. *)
Definition halfThree : list Z :=
  [ 0xa5ce8964; 0x9f007669; 0x1484504f; 0x3ade00d9;
    0x0c24486e; 0x50979d57; 0x79a4c702; 0x48bbae36;
    0xa9f6808b; 0xaa06a805; 0xa87fabdf; 0x5e69ebef ].

(** [CanBeHash] *)
Definition CanBeHash (trits : Trits) : bool := (length trits =? HashTrinarySize)%nat.

(** [ReverseTrits] *)
Definition ReverseTrits (trits : Trits) : Trits := rev trits.

(** The inner loop of [TritsToBytes]: the lowest [sz] limbs times the radix. *)
Fixpoint mul_radix (sz : nat) (base : list Z) (carry : Z) : result (list Z * Z) :=
  match sz with
  | O => Ok (base, carry)
  | S k =>
      match base with
      | [] => Panic
      | x :: rest =>
          let v := uint64 (uint64 (uint64 x * uint64 TrinaryRadix) + uint64 carry) in
          let carry := uint32 (Z.shiftr v 32) in
          '(rest', c) <- mul_radix k rest carry ;;
          Ok (uint32 v :: rest', c)
      end
  end.

(** One turn of the outer loop of [TritsToBytes], on the limbs and [size]. *)
Definition trit_step (st : list Z * nat) (e : Z) : result (list Z * nat) :=
  let '(base, size) := st in
  let sz := size in
  '(base, carry) <- mul_radix sz base 0 ;;
  '(base, size) <-
    (if carry >? 0
     then if (sz <? length base)%nat then Ok (upd sz carry base, (size + 1)%nat) else Panic
     else Ok (base, size)) ;;
  let trit := uint32 (int8 (e + 1)) in
  '(base, ns) <- Bigint.AddSmall base trit ;;
  Ok (base, if (size <? ns)%nat then ns else size).

Fixpoint trit_steps (es : list Z) (st : list Z * nat) : result (list Z * nat) :=
  match es with
  | [] => Ok st
  | e :: es' => st' <- trit_step st e ;; trit_steps es' st'
  end.

(** [TritsToBytes] *)
Definition TritsToBytes (trits : Trits) : result (list Z) :=
  if negb (CanBeHash trits) then Err ErrInvalidTritsLength
  else
    let allNeg := forallb (fun e => e =? -1) (firstn (HashTrinarySize - 1) trits) in
    let base := repeat 0 IntLength in
    if allNeg then
      let base := firstn IntLength halfThree in
      let base := Bigint.Not base in
      '(base, _) <- Bigint.AddSmall base 1 ;;
      Ok (Bigint.Reverse (Bigint.bytes_of_limbs base))
    else
      let revT := trits in
      let size := 1%nat in
      '(base, _) <- trit_steps (ReverseTrits (firstn (HashTrinarySize - 1) revT)) (base, size) ;;
      base <-
        (if negb (Bigint.IsNull base) then
           c <- Bigint.MustCmp halfThree base ;;
           if c <=? 0 then Bigint.MustSub base halfThree
           else
             let tmp := halfThree in
             tmp <- Bigint.MustSub tmp base ;;
             let tmp := Bigint.Not tmp in
             '(tmp, _) <- Bigint.AddSmall tmp 1 ;;
             Ok tmp
         else Ok base) ;;
      Ok (Bigint.Reverse (Bigint.bytes_of_limbs base)).

(** The inner loop of [BytesToTrits]: the limbs divided by the radix from the
    most significant limb down; the remainder comes out. *)
Fixpoint div_radix (base : list Z) : list Z * Z :=
  match base with
  | [] => ([], 0)
  | x :: rest =>
      let '(rest', rem) := div_radix rest in
      let lhs := Z.lor (uint64 (Z.shiftl rem 32)) (uint64 x) in
      let rhs := uint64 TrinaryRadix in
      let q := uint32 (lhs / rhs) in
      let r := uint32 (lhs mod rhs) in
      (q :: rest', uint64 r)
  end.

(** The extraction of [n] trits. *)
Fixpoint extract_trits (n : nat) (base : list Z) : Trits :=
  match n with
  | O => []
  | S k =>
      let '(base', rem) := div_radix base in
      int8 (int8 rem - 1) :: extract_trits k base'
  end.

(** [BytesToTrits] *)
Definition BytesToTrits (b : list Z) : result Trits :=
  if negb (length b =? HashBytesSize)%nat then Err ErrInvalidBytesLength
  else
    let rb := Bigint.Reverse b in
    let base := firstn IntLength (Bigint.limbs_of_bytes rb) in
    if Bigint.IsNull base then Ok (repeat 0 HashTrinarySize)
    else
      let msbM := 4 * 8 - 1 in
      '(base, flipTrits) <-
        (if Z.shiftr (nth (IntLength - 1) base 0) msbM =? 0 then
           base <- Bigint.MustAdd base halfThree ;; Ok (base, false)
         else
           let base := Bigint.Not base in
           c <- Bigint.MustCmp base halfThree ;;
           if c =? 1 then
             base <- Bigint.MustSub base halfThree ;; Ok (base, true)
           else
             '(base, _) <- Bigint.AddSmall base 1 ;;
             tmp <- Bigint.MustSub halfThree base ;;
             Ok (tmp, false)) ;;
      let t := extract_trits (HashTrinarySize - 1) base ++ [0] in
      Ok (if flipTrits : bool then map (fun x => int8 (- x)) t else t).

Definition test_hash : Trytes :=
  "9RFAOVEWQDNGBPEGFZTVJKKITBASFWCQBSTZYWTYIJETVZJYNFFIEQ9JMQWEHQ9ZKARYTE9GGDYZHIPJX"%string.

Definition test_bytes : list Z :=
  [200; 133; 129; 2; 47; 13; 241; 221; 98; 137; 183; 55; 217; 17; 54; 58; 35; 144;
   226; 211; 121; 162; 148; 10; 119; 202; 21; 32; 48; 36; 98; 155; 2; 253; 57; 40;
   89; 220; 88; 211; 119; 78; 246; 21; 121; 44; 224; 15].

Example TritsToBytes_test_vector :
  (t <- TrytesToTrits test_hash ;; TritsToBytes t) = Ok test_bytes.
Proof. vm_compute. reflexivity. Qed.

Example BytesToTrits_test_vector :
  BytesToTrits test_bytes = TrytesToTrits test_hash.
Proof. vm_compute. reflexivity. Qed.

Example IntToTrits_12 : IntToTrits 12 = Ok [0; 1; 1].
Proof. reflexivity. Qed.
Example IntToTrits_neg7 : IntToTrits (-7) = Ok [-1; 1; -1].
Proof. reflexivity. Qed.
Example IntToTrits_3332727 :
  IntToTrits 3332727 = Ok [0; 0; 1; -1; 0; -1; 0; 0; 1; 1; -1; 1; 0; -1; 1].
Proof. reflexivity. Qed.
Example AddTrits_neg :
  (a <- IntToTrits (-100) ;; b <- IntToTrits (-20) ;; Ok (TritsToInt (AddTrits a b)))
  = Ok (-120).
Proof. reflexivity. Qed.

(** *** The trit domain *)

Lemma ValidTrit_cases t : ValidTrit t = true <-> t = -1 \/ t = 0 \/ t = 1.
Proof.
  unfold ValidTrit.
  destruct (Z.eqb_spec t (-1)), (Z.eqb_spec t 0), (Z.eqb_spec t 1); simpl;
    split; intros; try lia; try reflexivity; try discriminate.
Qed.

Ltac trit_cases H :=
  apply ValidTrit_cases in H; destruct H as [H | [H | H]]; subst.

Lemma sum_closed a b : ValidTrit a = true -> ValidTrit b = true -> ValidTrit (sum a b) = true.
Proof. intros Ha Hb; trit_cases Ha; trit_cases Hb; reflexivity. Qed.

Lemma cons_closed a b : ValidTrit a = true -> ValidTrit b = true -> ValidTrit (cons a b) = true.
Proof. intros Ha Hb; trit_cases Ha; trit_cases Hb; reflexivity. Qed.

Lemma any_closed a b : ValidTrit a = true -> ValidTrit b = true -> ValidTrit (any a b) = true.
Proof. intros Ha Hb; trit_cases Ha; trit_cases Hb; reflexivity. Qed.

Lemma fullAdd_closed a b c :
  ValidTrit a = true -> ValidTrit b = true -> ValidTrit c = true ->
  ValidTrit (fst (fullAdd a b c)) = true /\ ValidTrit (snd (fullAdd a b c)) = true.
Proof.
  intros Ha Hb Hc. unfold fullAdd; simpl. split.
  - apply sum_closed; [apply sum_closed|]; assumption.
  - apply any_closed; apply cons_closed; try assumption. apply sum_closed; assumption.
Qed.

(** The full adder adds: sum digit plus three times the carry. *)
Lemma fullAdd_value a b c :
  ValidTrit a = true -> ValidTrit b = true -> ValidTrit c = true ->
  fst (fullAdd a b c) + 3 * snd (fullAdd a b c) = a + b + c.
Proof. intros Ha Hb Hc; trit_cases Ha; trit_cases Hb; trit_cases Hc; reflexivity. Qed.

Lemma nth_valid (t : Trits) i : valid_trits t -> ValidTrit (nth i t 0) = true.
Proof.
  intros H. destruct (Nat.lt_ge_cases i (length t)) as [L | L].
  - unfold valid_trits in H. rewrite Forall_forall in H. apply H. apply nth_In; exact L.
  - rewrite nth_overflow by exact L. reflexivity.
Qed.

Lemma operand_read (t : Trits) i : (if (i <? length t)%nat then nth i t 0 else 0) = nth i t 0.
Proof.
  destruct (Nat.ltb_spec i (length t)); [reflexivity|].
  symmetry; apply nth_overflow; assumption.
Qed.

Lemma add_trits_loop_length n : forall i a b c, length (add_trits_loop n i a b c) = n.
Proof. induction n; simpl; intros; [reflexivity | f_equal; apply IHn]. Qed.

Lemma add_trits_loop_closed n : forall i a b c,
  valid_trits a -> valid_trits b -> ValidTrit c = true ->
  valid_trits (add_trits_loop n i a b c).
Proof.
  induction n; intros i a b c Ha Hb Hc; simpl.
  - constructor.
  - rewrite !operand_read.
    destruct (fullAdd_closed _ _ _ (nth_valid a i Ha) (nth_valid b i Hb) Hc) as [Hs Hk].
    constructor; [exact Hs | apply IHn; assumption].
Qed.

(** *** Values of trit slices *)

Lemma pow3_pos n : 0 < 3 ^ Z.of_nat n.
Proof. apply Z.pow_pos_nonneg; lia. Qed.

Lemma pow3_succ n : 3 ^ Z.of_nat (S n) = 3 * 3 ^ Z.of_nat n.
Proof. rewrite Nat2Z.inj_succ, Z.pow_succ_r by lia. reflexivity. Qed.

Lemma pow3_odd n : exists m, 3 ^ Z.of_nat n = 2 * m + 1.
Proof.
  induction n as [|n [m Hm]].
  - exists 0. reflexivity.
  - exists (3 * m + 1). rewrite pow3_succ, Hm. lia.
Qed.

Lemma trits_value_bound t :
  valid_trits t -> 2 * Z.abs (trits_value t) < 3 ^ Z.of_nat (length t).
Proof.
  induction 1 as [|x t Hx Ht IH].
  - simpl. lia.
  - cbn [trits_value length]. rewrite pow3_succ.
    apply ValidTrit_cases in Hx. lia.
Qed.

Lemma trits_value_skipn (t : Trits) i :
  trits_value (skipn i t) = nth i t 0 + 3 * trits_value (skipn (S i) t).
Proof.
  revert i; induction t as [|x t IH]; intros i.
  - rewrite !skipn_nil. destruct i; reflexivity.
  - destruct i as [|i]; [reflexivity|]. cbn [skipn nth]. rewrite IH. reflexivity.
Qed.

Lemma trits_value_repeat0 n : trits_value (repeat 0 n) = 0.
Proof. induction n; simpl; [reflexivity | rewrite IHn; reflexivity]. Qed.

Lemma trits_value_app (s t : Trits) :
  trits_value (s ++ t) = trits_value s + 3 ^ Z.of_nat (length s) * trits_value t.
Proof.
  induction s as [|x s IH].
  - cbn [app trits_value length]. change (3 ^ Z.of_nat 0) with 1. lia.
  - cbn [app trits_value length]. rewrite IH, pow3_succ. lia.
Qed.

Lemma valid_trits_repeat0 n : valid_trits (repeat 0 n).
Proof. induction n; simpl; constructor; auto. Qed.

(** Horner's rule in [int64] is the value, wrapped once. *)
Lemma TritsToInt_wrap t : TritsToInt t = int64 (trits_value t).
Proof.
  induction t as [|x t IH].
  - reflexivity.
  - cbn [TritsToInt fold_right trits_value]. fold (TritsToInt t). rewrite IH.
    destruct (int64_decomp (trits_value t)) as [k ->].
    destruct (int64_decomp ((trits_value t + k * 2 ^ 64) * 3)) as [k' ->].
    replace ((trits_value t + k * 2 ^ 64) * 3 + k' * 2 ^ 64 + x)
      with (x + 3 * trits_value t + (3 * k + k') * 2 ^ 64) by lia.
    apply int64_shift.
Qed.

Lemma TritsToInt_value t : in_int64 (trits_value t) -> TritsToInt t = trits_value t.
Proof. intros H. rewrite TritsToInt_wrap. apply int64_small, H. Qed.

(** The sum computed by the adder loop, with the carry that leaves it. *)
Lemma add_trits_loop_value n : forall i a b c,
  valid_trits a -> valid_trits b -> ValidTrit c = true ->
  (length a <= i + n)%nat -> (length b <= i + n)%nat ->
  exists cout, ValidTrit cout = true /\
    trits_value (add_trits_loop n i a b c) + 3 ^ Z.of_nat n * cout
    = trits_value (skipn i a) + trits_value (skipn i b) + c.
Proof.
  induction n as [|n IH]; intros i a b c Ha Hb Hc La Lb.
  - exists c. split; [exact Hc|].
    rewrite !skipn_all2 by lia. cbn [add_trits_loop trits_value].
    change (3 ^ Z.of_nat 0) with 1. lia.
  - cbn [add_trits_loop]. rewrite !operand_read.
    pose proof (fullAdd_closed _ _ _ (nth_valid a i Ha) (nth_valid b i Hb) Hc) as [Hs Hk].
    pose proof (fullAdd_value _ _ _ (nth_valid a i Ha) (nth_valid b i Hb) Hc) as Hv.
    destruct (IH (S i) a b (snd (fullAdd (nth i a 0) (nth i b 0) c)) Ha Hb Hk) as (cout & Hco & E);
      [lia | lia |].
    exists cout. split; [exact Hco|].
    cbn [trits_value]. rewrite pow3_succ.
    rewrite (trits_value_skipn a i), (trits_value_skipn b i). lia.
Qed.

Lemma AddTrits_length a b :
  a <> [] \/ b <> [] -> length (AddTrits a b) = Nat.max (length a) (length b).
Proof.
  intros H. unfold AddTrits.
  destruct (Nat.eqb_spec (Nat.max (length a) (length b)) 0) as [E | E].
  - destruct a, b; simpl in E; try lia. destruct H as [H | H]; congruence.
  - apply add_trits_loop_length.
Qed.

Lemma AddTrits_closed a b : valid_trits a -> valid_trits b -> valid_trits (AddTrits a b).
Proof.
  intros Ha Hb. unfold AddTrits.
  destruct (Nat.max (length a) (length b) =? 0)%nat.
  - constructor; [reflexivity | constructor].
  - apply add_trits_loop_closed; auto.
Qed.

(** [v] fits in [n] balanced trits: [|v| <= (3^n - 1) / 2]. *)
Definition representable (n : nat) (v : Z) : Prop := 2 * Z.abs v < 3 ^ Z.of_nat n.

Lemma AddTrits_value a b :
  valid_trits a -> valid_trits b ->
  representable (Nat.max (length a) (length b)) (trits_value a + trits_value b) ->
  trits_value (AddTrits a b) = trits_value a + trits_value b.
Proof.
  intros Ha Hb R. unfold AddTrits.
  destruct (Nat.eqb_spec (Nat.max (length a) (length b)) 0) as [E | E].
  - destruct a, b; simpl in E; try lia. reflexivity.
  - set (n := Nat.max (length a) (length b)) in *.
    destruct (add_trits_loop_value n 0 a b 0 Ha Hb eq_refl) as (cout & Hc & Ev); try lia.
    simpl skipn in Ev.
    pose proof (trits_value_bound _ (add_trits_loop_closed n 0 a b 0 Ha Hb eq_refl)) as B.
    rewrite add_trits_loop_length in B.
    unfold representable in R.
    pose proof (pow3_pos n).
    apply ValidTrit_cases in Hc. nia.
Qed.

(** *** [IntToTrits] *)

Lemma upd_app_head {A} (pre : list A) v x rest :
  upd (length pre) v (pre ++ x :: rest) = pre ++ v :: rest.
Proof. induction pre; simpl; [reflexivity | f_equal; assumption]. Qed.

Lemma log3_spec fuel : forall x, 1 <= x < 3 ^ Z.of_nat fuel ->
  0 <= log3 fuel x /\ x < 3 ^ (1 + log3 fuel x).
Proof.
  induction fuel as [|f IH]; intros x Hx.
  - change (3 ^ Z.of_nat 0) with 1 in Hx. lia.
  - cbn [log3]. destruct (Z.ltb_spec x 3) as [L | L].
    + change (3 ^ (1 + 0)) with 3. lia.
    + rewrite pow3_succ in Hx.
      destruct (IH (x / 3)) as [P Q].
      { split; [apply Z.div_le_lower_bound; lia | apply Z.div_lt_upper_bound; lia]. }
      split; [lia|].
      rewrite Z.pow_add_r by lia. change (3 ^ 1) with 3.
      pose proof (Z.mul_succ_div_gt x 3 ltac:(lia)). lia.
Qed.

(** A step of the division loop: balanced remainder and next quotient. *)
Lemma balanced_step x :
  0 < x < 3 * 2 ^ 53 ->
  let remainder := Z.rem x TrinaryRadix in
  let q := int64 (float64_of_int (Z.quot x TrinaryRadix)) in
  let '(r', q') := if remainder >? MaxTritValue
                   then (MinTritValue, int64 (q + 1)) else (remainder, q) in
  x = r' + 3 * q' /\ ValidTrit r' = true /\ 0 <= q' < 3 * 2 ^ 53.
Proof.
  intros Hx. cbv zeta. unfold TrinaryRadix, MaxTritValue, MinTritValue.
  rewrite Z.rem_mod_nonneg, Z.quot_div_nonneg by lia.
  pose proof (Z.mod_pos_bound x 3 ltac:(lia)) as Hm.
  pose proof (Z.div_mod x 3 ltac:(lia)) as Hd.
  assert (Hq : 0 <= x / 3 < 2 ^ 53).
  { split; [apply Z.div_pos; lia | apply Z.div_lt_upper_bound; lia]. }
  rewrite float64_of_int_exact by (rewrite Z.abs_eq; lia).
  assert (P : 2 ^ 53 < 2 ^ 63) by (apply Z.pow_lt_mono_r; lia).
  rewrite (int64_small (x / 3)) by (unfold in_int64, MinInt64, MaxInt64; lia).
  destruct (Z.gtb_spec (x mod 3) 1) as [G | G].
  - rewrite int64_small by (unfold in_int64, MinInt64, MaxInt64; lia).
    repeat split; lia.
  - repeat split; try lia. apply ValidTrit_cases. lia.
Qed.

Lemma int_to_trits_loop_spec k : forall fuel x pre,
  (k < fuel)%nat -> 0 <= x < 3 * 2 ^ 53 -> 2 * x < 3 ^ Z.of_nat k ->
  exists digits,
    int_to_trits_loop fuel x (length pre) (pre ++ repeat 0 k) = Ok (pre ++ digits)
    /\ length digits = k /\ valid_trits digits /\ trits_value digits = x.
Proof.
  induction k as [|k IH]; intros fuel x pre Hf Hx Hk.
  - change (3 ^ Z.of_nat 0) with 1 in Hk. assert (x = 0) by lia; subst x.
    exists []. destruct fuel; [lia|]. cbn [int_to_trits_loop]. simpl.
    repeat split. constructor.
  - destruct (Z.eq_dec x 0) as [-> | Hn].
    + exists (repeat 0 (S k)). destruct fuel; [lia|]. cbn [int_to_trits_loop].
      change (0 >? 0) with false. cbv iota.
      repeat split; [apply repeat_length | apply valid_trits_repeat0 | apply trits_value_repeat0].
    + destruct fuel as [|f]; [lia|]. cbn [int_to_trits_loop].
      destruct (Z.gtb_spec x 0) as [_ | C]; [|lia].
      pose proof (balanced_step x ltac:(lia)) as S. cbv zeta in S.
      destruct (if Z.rem x TrinaryRadix >? MaxTritValue
                then (MinTritValue, int64 (int64 (float64_of_int (Z.quot x TrinaryRadix)) + 1))
                else (Z.rem x TrinaryRadix, int64 (float64_of_int (Z.quot x TrinaryRadix))))
        as [r' q'] eqn:E.
      destruct S as (Ex & Vr & Bq).
      rewrite length_app. cbn [repeat length].
      destruct (Nat.ltb_spec (length pre) (length pre + S (length (repeat 0 k)))) as [_ | C];
        [|lia].
      rewrite upd_app_head.
      assert (I8 : int8 r' = r').
      { apply int8_small. apply ValidTrit_cases in Vr. unfold in_int8. lia. }
      rewrite I8.
      destruct (pow3_odd k) as [m Hm]. rewrite pow3_succ in Hk.
      destruct (IH f q' (pre ++ [r'])) as (ds & Hl & Hlen & Hv & Hval).
      * lia.
      * lia.
      * apply ValidTrit_cases in Vr. lia.
      * exists (r' :: ds).
        rewrite length_app in Hl. cbn [length] in Hl.
        replace (S (length pre)) with (length pre + 1)%nat by lia.
        rewrite <- app_assoc in Hl. cbn [app] in Hl. rewrite Hl.
        rewrite <- app_assoc. cbn [app length trits_value].
        repeat split; [lia | constructor; assumption | lia].
Qed.

Lemma trits_value_neg t :
  valid_trits t ->
  valid_trits (map (fun d => int8 (- d)) t)
  /\ trits_value (map (fun d => int8 (- d)) t) = - trits_value t.
Proof.
  induction 1 as [|x t Hx Ht [IHv IHe]].
  - split; [constructor | reflexivity].
  - cbn [map trits_value]. rewrite IHe.
    assert (E : int8 (- x) = - x).
    { apply int8_small. apply ValidTrit_cases in Hx. unfold in_int8. lia. }
    rewrite E. split; [|lia].
    constructor; [|exact IHv]. apply ValidTrit_cases. apply ValidTrit_cases in Hx. lia.
Qed.

(** With [n] trits allocated, [n] enough for [value], and the quotients
    small enough to pass through [float64] unchanged, [IntToTrits] writes the
    balanced-ternary digits of [value]. *)
Lemma IntToTrits_alloc_spec n value :
  Z.abs value <= 2 ^ 53 -> value <> 0 -> representable n value ->
  exists t, IntToTrits_alloc n value = Ok t
    /\ length t = n /\ valid_trits t /\ trits_value t = value.
Proof.
  intros B NZ R. unfold representable in R. unfold IntToTrits_alloc.
  destruct (Z.eqb_spec value 0) as [C | _]; [contradiction|].
  assert (P : 2 ^ 53 < 2 ^ 63) by (apply Z.pow_lt_mono_r; lia).
  assert (P' : 0 < 2 ^ 53) by (apply Z.pow_pos_nonneg; lia).
  destruct (Z.ltb_spec value 0) as [Neg | Pos].
  - rewrite int64_small by (unfold in_int64, MinInt64, MaxInt64; lia).
    destruct (int_to_trits_loop_spec n (S n) (- value) []) as (ds & E & L & V & Val);
      [lia | lia | lia |].
    cbn [length app] in E. rewrite E. cbn [bind].
    destruct (trits_value_neg ds V) as [V' Val'].
    eexists; split; [reflexivity|]. rewrite length_map.
    repeat split; [exact L | exact V' | lia].
  - destruct (int_to_trits_loop_spec n (S n) value []) as (ds & E & L & V & Val);
      [lia | lia | lia |].
    cbn [length app] in E. rewrite E. cbn [bind].
    eexists; split; [reflexivity|]. repeat split; assumption.
Qed.

(** With too few trits allocated the loop writes past the end of the slice:
    an index out of range. *)
Lemma int_to_trits_loop_short k : forall fuel x pre,
  (k < fuel)%nat -> 0 <= x < 3 * 2 ^ 53 -> 3 ^ Z.of_nat k <= 2 * x ->
  int_to_trits_loop fuel x (length pre) (pre ++ repeat 0 k) = Panic.
Proof.
  induction k as [|k IH]; intros fuel x pre Hf Hx Hk.
  - pose proof (pow3_pos 0) as P0.
    destruct fuel as [|f]; [lia|]. cbn [int_to_trits_loop].
    destruct (Z.gtb_spec x 0) as [_ | C]; [|lia].
    destruct (if Z.rem x TrinaryRadix >? MaxTritValue
              then (MinTritValue, int64 (int64 (float64_of_int (Z.quot x TrinaryRadix)) + 1))
              else (Z.rem x TrinaryRadix, int64 (float64_of_int (Z.quot x TrinaryRadix))))
      as [r' q'].
    cbn [repeat]. rewrite app_nil_r, Nat.ltb_irrefl. reflexivity.
  - pose proof (pow3_pos (S k)) as Pk.
    destruct fuel as [|f]; [lia|]. cbn [int_to_trits_loop].
    destruct (Z.gtb_spec x 0) as [_ | C]; [|lia].
    pose proof (balanced_step x ltac:(lia)) as S. cbv zeta in S.
    destruct (if Z.rem x TrinaryRadix >? MaxTritValue
              then (MinTritValue, int64 (int64 (float64_of_int (Z.quot x TrinaryRadix)) + 1))
              else (Z.rem x TrinaryRadix, int64 (float64_of_int (Z.quot x TrinaryRadix))))
      as [r' q'] eqn:E.
    destruct S as (Ex & Vr & Bq).
    rewrite length_app. cbn [repeat length].
    destruct (Nat.ltb_spec (length pre) (length pre + S (length (repeat 0 k)))) as [_ | C];
      [|lia].
    rewrite upd_app_head.
    destruct (pow3_odd k) as [m Hm]. rewrite pow3_succ in Hk.
    apply ValidTrit_cases in Vr.
    pose proof (IH f q' (pre ++ [int8 r']) ltac:(lia) ltac:(lia) ltac:(lia)) as Hl.
    rewrite length_app in Hl. cbn [length] in Hl.
    replace (length pre + 1)%nat with (S (length pre)) in Hl by lia.
    rewrite <- app_assoc in Hl. cbn [app] in Hl. exact Hl.
Qed.

(** When the allocated length is too short for [value], [IntToTrits]
    panics. *)
Lemma IntToTrits_alloc_short n value :
  Z.abs value <= 2 ^ 53 -> value <> 0 -> ~ representable n value ->
  IntToTrits_alloc n value = Panic.
Proof.
  intros B NZ R. unfold representable in R. unfold IntToTrits_alloc.
  destruct (Z.eqb_spec value 0) as [C | _]; [contradiction|].
  assert (P : 2 ^ 53 < 2 ^ 63) by (apply Z.pow_lt_mono_r; lia).
  assert (P' : 0 < 2 ^ 53) by (apply Z.pow_pos_nonneg; lia).
  destruct (Z.ltb_spec value 0) as [Neg | Pos].
  - rewrite int64_small by (unfold in_int64, MinInt64, MaxInt64; lia).
    pose proof (int_to_trits_loop_short n (S n) (- value) []
                  ltac:(lia) ltac:(lia) ltac:(lia)) as H.
    cbn [length app] in H. rewrite H. reflexivity.
  - pose proof (int_to_trits_loop_short n (S n) value []
                  ltac:(lia) ltac:(lia) ltac:(lia)) as H.
    cbn [length app] in H. rewrite H. reflexivity.
Qed.

(** What [IntToTrits] returns on the integers a double holds exactly: the
    allocated number of valid trits, with the value of the argument. *)
Lemma IntToTrits_Ok value t :
  Z.abs value <= 2 ^ 53 -> IntToTrits value = Ok t ->
  valid_trits t /\ trits_value t = value /\ t <> []
  /\ (value <> 0 ->
      Z.of_nat (length t) = alloc_len value /\ representable (length t) value).
Proof.
  intros B E. unfold IntToTrits in E.
  destruct (Z.eqb_spec value 0) as [-> | NZ].
  - inversion E; subst t. repeat split; try discriminate; try lia.
    repeat constructor.
  - destruct (Z.ltb_spec (alloc_len value) 0) as [C | Pos]; [discriminate E|].
    set (n := Z.to_nat (alloc_len value)) in *.
    destruct (Z.lt_ge_cases (2 * Z.abs value) (3 ^ Z.of_nat n)) as [R | R].
    + destruct (IntToTrits_alloc_spec n value B NZ R) as (t' & E' & L & V & Val).
      rewrite E' in E. inversion E; subst t'.
      split; [exact V|]. split; [exact Val|]. split.
      * intros ->. cbn [length] in L. rewrite <- L in R.
        change (3 ^ Z.of_nat 0) with 1 in R. lia.
      * intros _. rewrite L. split; [subst n; lia | exact R].
    + rewrite (IntToTrits_alloc_short n value B NZ) in E; [discriminate E|].
      unfold representable. lia.
Qed.

(** Whenever [IntToTrits] returns on such an integer, [TritsToInt] reads the
    integer back. *)
Lemma IntToTrits_roundtrip_small value t :
  Z.abs value <= 2 ^ 53 -> IntToTrits value = Ok t -> TritsToInt t = value.
Proof.
  intros B E. destruct (IntToTrits_Ok value t B E) as (_ & Val & _).
  rewrite TritsToInt_value; [exact Val|].
  assert (P : 2 ^ 53 < 2 ^ 63) by (apply Z.pow_lt_mono_r; lia).
  rewrite Val. unfold in_int64, MinInt64, MaxInt64. lia.
Qed.

(** The lengths the [float64] expression gives: one trit for 1, 41 for the
    least [int64], and, just below a power of three, one trit more than the
    balanced digits of the value need. *)
Example alloc_len_values :
  map alloc_len [1; 12; -7; 3332727; MinInt64; 308836698141973; 8338590849833284]
  = [1; 3; 3; 15; 41; 32; 35]
  /\ map (fun v => 1 + log3 64 (2 * Z.abs v)) [308836698141973; 8338590849833284]
     = [31; 34].
Proof. split; vm_compute; reflexivity. Qed.


(** *** Properties of the integer conversions and of the addition *)

(** C10: on operands made of trits, every trit [AddTrits] returns is a
    trit: [sum], [cons], [any] and both outputs of [fullAdd] stay in
    {-1, 0, 1}, and so does every position of the result. *)
Theorem AddTrits_stays_in_trit_domain (a b : Trits) :
  valid_trits a -> valid_trits b ->
  valid_trits (AddTrits a b)
  /\ (forall x y c, ValidTrit x = true -> ValidTrit y = true -> ValidTrit c = true ->
        ValidTrit (sum x y) = true /\ ValidTrit (cons x y) = true
        /\ ValidTrit (any x y) = true
        /\ ValidTrit (fst (fullAdd x y c)) = true
        /\ ValidTrit (snd (fullAdd x y c)) = true).
Proof.
  intros Ha Hb. split.
  - apply AddTrits_closed; assumption.
  - intros x y c Hx Hy Hc.
    destruct (fullAdd_closed x y c Hx Hy Hc) as [Hs Hk].
    repeat split; auto using sum_closed, cons_closed, any_closed.
Qed.

Lemma AddTrits_stays_in_trit_domain_witness :
  valid_trits (AddTrits [1; -1; 1] [1; 1])
  /\ (forall x y c, ValidTrit x = true -> ValidTrit y = true -> ValidTrit c = true ->
        ValidTrit (sum x y) = true /\ ValidTrit (cons x y) = true
        /\ ValidTrit (any x y) = true
        /\ ValidTrit (fst (fullAdd x y c)) = true
        /\ ValidTrit (snd (fullAdd x y c)) = true).
Proof.
  apply (AddTrits_stays_in_trit_domain [1; -1; 1] [1; 1]);
    repeat constructor.
Defined.

(** C2: at the least [int64] the round trip loses the value.  Negating
    [MinInt64] wraps to itself, the division loop never runs, and whatever
    length was allocated holds only zeros: [TritsToInt] reads 0 back. *)
Theorem IntToTrits_MinInt64_reads_back_zero : forall n : nat,
  IntToTrits_alloc n MinInt64 = Ok (repeat 0 n)
  /\ TritsToInt (repeat 0 n) = 0
  /\ IntToTrits MinInt64 = Ok (repeat 0 41)
  /\ TritsToInt (repeat 0 41) <> MinInt64.
Proof.
  assert (A : forall k, IntToTrits_alloc k MinInt64 = Ok (repeat 0 k)).
  { intros k. unfold IntToTrits_alloc.
    change (MinInt64 =? 0) with false. change (MinInt64 <? 0) with true. cbv iota.
    change (int64 (- MinInt64)) with MinInt64.
    cbn [int_to_trits_loop]. change (MinInt64 >? 0) with false. cbn [bind]. f_equal.
    induction k as [|k IH]; [reflexivity|].
    cbn [repeat map]. rewrite IH. reflexivity. }
  assert (Z0 : forall k, TritsToInt (repeat 0 k) = 0).
  { intros k. rewrite TritsToInt_wrap, trits_value_repeat0. reflexivity. }
  intros n.
  split; [apply A|]. split; [apply Z0|]. split.
  - assert (L : alloc_len MinInt64 = 41) by (vm_compute; reflexivity).
    unfold IntToTrits. rewrite L.
    change (MinInt64 =? 0) with false. change (41 <? 0) with false. cbv iota.
    exact (A 41%nat).
  - rewrite Z0. discriminate.
Qed.

(** Past 2^53 the quotient goes through [float64] and is rounded: the
    round trip of [3 * (2^53 + 1)] comes back three short. *)
Lemma IntToTrits_float_rounding :
  match IntToTrits 27021597764222979 with
  | Ok t => TritsToInt t
  | _ => 0
  end = 27021597764222976.
Proof. vm_compute. reflexivity. Qed.

(** The trits [IntToTrits] returns for [8338590849833284 = (3^34 - 1) / 2]:
    34 trits +1 and, the [float64] quotient being 34.0, a 35th trit 0. *)
Definition trits_below_power : Trits :=
  Eval vm_compute in
    match IntToTrits 8338590849833284 with
    | Ok t => t
    | _ => []
    end.

(** C3 (as the code has it): for operands a double holds exactly, whenever
    [IntToTrits] returns their trits, the sum of the two slices is as long
    as the longer of them, and when [a + b] fits in that many trits, reading
    the sum back gives [a + b]; adding two empty slices gives the single
    trit 0. *)
Theorem AddTrits_of_IntToTrits (a b : Z) (ta tb : Trits) :
  Z.abs a <= 2 ^ 53 -> Z.abs b <= 2 ^ 53 ->
  IntToTrits a = Ok ta -> IntToTrits b = Ok tb ->
  length (AddTrits ta tb) = Nat.max (length ta) (length tb)
  /\ AddTrits [] [] = [0]
  /\ (representable (Nat.max (length ta) (length tb)) (a + b) ->
      TritsToInt (AddTrits ta tb) = a + b).
Proof.
  intros Ba Bb Ea Eb.
  destruct (IntToTrits_Ok a ta Ba Ea) as (Va & Vala & Na & _).
  destruct (IntToTrits_Ok b tb Bb Eb) as (Vb & Valb & _ & _).
  split; [apply AddTrits_length; left; exact Na|]. split; [reflexivity|].
  intros R.
  assert (V : trits_value (AddTrits ta tb) = a + b).
  { rewrite AddTrits_value; [lia | assumption | assumption |].
    rewrite Vala, Valb. exact R. }
  rewrite TritsToInt_value; [exact V|].
  rewrite V.
  assert (P : 2 ^ 53 < 2 ^ 62) by (apply Z.pow_lt_mono_r; lia).
  unfold in_int64, MinInt64, MaxInt64. change (2 ^ 63) with (2 * 2 ^ 62). lia.
Qed.

Lemma AddTrits_of_IntToTrits_witness :
  length (AddTrits trits_below_power trits_below_power)
  = Nat.max (length trits_below_power) (length trits_below_power)
  /\ AddTrits [] [] = [0]
  /\ length trits_below_power = 35%nat
  /\ TritsToInt (AddTrits trits_below_power trits_below_power)
     = 8338590849833284 + 8338590849833284.
Proof.
  destruct (AddTrits_of_IntToTrits 8338590849833284 8338590849833284
              trits_below_power trits_below_power) as (L & E & F).
  - vm_compute. discriminate.
  - vm_compute. discriminate.
  - vm_compute. reflexivity.
  - vm_compute. reflexivity.
  - split; [exact L|]. split; [exact E|]. split; [reflexivity|].
    apply F. vm_compute. reflexivity.
Defined.

(** C3 as stated fails: 1 + 1 does not fit in the single trit of its
    operands, the carry is dropped and -1 is read back. *)
Lemma AddTrits_drops_carry :
  IntToTrits 1 = Ok [1]
  /\ AddTrits [1] [1] = [-1]
  /\ TritsToInt (AddTrits [1] [1]) = -1
  /\ TritsToInt (AddTrits [1] [1]) <> 1 + 1.
Proof. repeat split. discriminate. Qed.

(** *** Trits and trytes *)

(** One group of three trits: its character is of the alphabet and the table
    gives the three trits back. *)
Lemma tryte_group t0 t1 t2 :
  ValidTrit t0 = true -> ValidTrit t1 = true -> ValidTrit t2 = true ->
  exists ch, alphabet_at (tryte_index t0 t1 t2) = Ok ch
    /\ tryte_char ch = true
    /\ lut_at (Index TryteAlphabet ch) = Ok [t0; t1; t2].
Proof.
  intros H0 H1 H2; trit_cases H0; trit_cases H1; trit_cases H2;
    eexists; (split; [reflexivity | split; reflexivity]).
Qed.

Lemma trits_to_trytes_loop_spec k : forall t,
  length t = (3 * k)%nat -> valid_trits t ->
  exists s, trits_to_trytes_loop t = Ok s
    /\ String.length s = k /\ all_tryte_chars s = true
    /\ trytes_to_trits_loop s = Ok t.
Proof.
  induction k as [|k IH]; intros t L V.
  - destruct t; [|discriminate]. exists EmptyString. repeat split.
  - destruct t as [|t0 [|t1 [|t2 rest]]]; try (simpl in L; lia).
    inversion V as [|? ? V0 V']; subst. inversion V' as [|? ? V1 V'']; subst.
    inversion V'' as [|? ? V2 Vr]; subst.
    destruct (tryte_group t0 t1 t2 V0 V1 V2) as (ch & Ech & Cch & Lch).
    destruct (IH rest ltac:(simpl in L; lia) Vr) as (s & Es & Ls & Cs & Ds).
    exists (String ch s). cbn [trits_to_trytes_loop].
    rewrite Ech. cbn [bind]. rewrite Es. cbn [bind].
    split; [reflexivity|]. split; [simpl; congruence|].
    split; [simpl; rewrite Cch, Cs; reflexivity|].
    cbn [trytes_to_trits_loop]. rewrite Lch. cbn [bind]. rewrite Ds. reflexivity.
Qed.

(** C5 (as the code has it): a slice of trits whose length is a positive
    multiple of 3 converts to trytes and back to itself, with no error. *)
Theorem TrytesToTrits_of_TritsToTrytes (t : Trits) :
  valid_trits t -> t <> [] -> (length t mod 3 = 0)%nat ->
  exists s, TritsToTrytes t = Ok s /\ TrytesToTrits s = Ok t.
Proof.
  intros V NE M.
  assert (L : length t = (3 * (length t / 3))%nat).
  { pose proof (Nat.div_mod_eq (length t) 3). lia. }
  destruct (trits_to_trytes_loop_spec (length t / 3) t L V) as (s & Es & Ls & Cs & Ds).
  exists s. split.
  - unfold TritsToTrytes, CanTritsToTrytes.
    destruct (Nat.eqb_spec (length t) 0) as [Z | _].
    + destruct t; [contradiction | discriminate].
    + rewrite M. exact Es.
  - unfold TrytesToTrits, ValidTrytes.
    destruct s as [|c s].
    + cbn [String.length] in Ls. rewrite <- Ls in L.
      destruct t; [contradiction | simpl in L; lia].
    + rewrite Cs. exact Ds.
Qed.

Lemma TrytesToTrits_of_TritsToTrytes_witness :
  exists s, TritsToTrytes [0; -1; -1; 1; 1; 1] = Ok s
    /\ TrytesToTrits s = Ok [0; -1; -1; 1; 1; 1].
Proof.
  apply (TrytesToTrits_of_TritsToTrytes [0; -1; -1; 1; 1; 1]).
  - repeat constructor.
  - discriminate.
  - reflexivity.
Defined.

(** C5 as stated fails at the empty slice, whose length 0 is a multiple of
    3: [CanTritsToTrytes] refuses it and [TritsToTrytes] returns an error. *)
Lemma TritsToTrytes_empty_is_error :
  valid_trits [] /\ (length (@nil Z) mod 3 = 0)%nat
  /\ TritsToTrytes [] = Err ErrInvalidTritsLength.
Proof. repeat split. constructor. Qed.

(** *** The hash codec: from trits to limbs *)

Import Bigint.

(** The integer the multiply-and-add loop builds: every trit shifted to
    {0, 1, 2}, least significant first. *)
Fixpoint offset_value (ts : Trits) : Z :=
  match ts with
  | [] => 0
  | x :: rest => (x + 1) + 3 * offset_value rest
  end.

Lemma offset_value_trits_value ts :
  2 * offset_value ts = 2 * trits_value ts + 3 ^ Z.of_nat (length ts) - 1.
Proof.
  induction ts as [|x ts IH].
  - reflexivity.
  - cbn [offset_value trits_value length]. rewrite pow3_succ. lia.
Qed.

Lemma offset_value_bound ts :
  valid_trits ts -> 0 <= offset_value ts < 3 ^ Z.of_nat (length ts).
Proof.
  induction 1 as [|x ts Hx Hts IH].
  - cbn. lia.
  - cbn [offset_value length]. rewrite pow3_succ. apply ValidTrit_cases in Hx. lia.
Qed.

Lemma offset_value_zero ts :
  valid_trits ts -> offset_value ts = 0 -> forallb (fun e => e =? -1) ts = true.
Proof.
  induction 1 as [|x ts Hx Hts IH]; intros E.
  - reflexivity.
  - cbn [offset_value] in E. pose proof (offset_value_bound ts Hts).
    apply ValidTrit_cases in Hx.
    assert (x = -1) by lia. assert (offset_value ts = 0) by lia.
    subst x. cbn [forallb]. rewrite IH by assumption. reflexivity.
Qed.

Lemma all_neg_offset_value ts :
  forallb (fun e => e =? -1) ts = true -> offset_value ts = 0.
Proof.
  induction ts as [|x ts IH]; intros E; [reflexivity|].
  cbn [forallb] in E. apply andb_true_iff in E. destruct E as [Ex Et].
  apply Z.eqb_eq in Ex. subst x. cbn [offset_value]. rewrite IH by assumption. lia.
Qed.

(** What the loop has accumulated after the trits [es], most significant
    first, starting from [v]. *)
Definition horner (es : list Z) (v : Z) : Z :=
  fold_left (fun acc e => 3 * acc + (e + 1)) es v.

Lemma horner_rev ts : horner (rev ts) 0 = offset_value ts.
Proof.
  unfold horner. induction ts as [|x ts IH]; [reflexivity|].
  cbn [rev offset_value]. rewrite fold_left_app. cbn [fold_left]. rewrite IH. lia.
Qed.

Lemma horner_mono es : forall v,
  valid_trits es -> 0 <= v -> v <= horner es v.
Proof.
  unfold horner. induction es as [|e es IH]; intros v V Hv; [cbn; lia|].
  inversion V as [|? ? He V']; subst. cbn [fold_left].
  apply ValidTrit_cases in He.
  specialize (IH (3 * v + (e + 1)) V' ltac:(lia)). lia.
Qed.

Lemma skipn_repeat {A} (x : A) k n : skipn k (repeat x n) = repeat x (n - k).
Proof.
  revert n; induction k as [|k IH]; intros n.
  - rewrite Nat.sub_0_r. reflexivity.
  - destruct n as [|n]; [reflexivity|]. cbn [repeat skipn]. apply IH.
Qed.

Lemma skipn_agree {A} (r b : list A) i m :
  skipn i r = skipn i b -> (i <= m)%nat -> skipn m r = skipn m b.
Proof.
  intros E L. replace m with ((m - i) + i)%nat by lia.
  rewrite <- !skipn_skipn, E. reflexivity.
Qed.

Lemma mul_radix_spec lo : forall zs c,
  limbs_ok lo -> 0 <= c <= 2 ->
  exists lo' c', mul_radix (length lo) (lo ++ zs) c = Ok (lo' ++ zs, c')
    /\ length lo' = length lo /\ limbs_ok lo' /\ 0 <= c' <= 2
    /\ limbs_value lo' + weight (length lo) * c' = 3 * limbs_value lo + c.
Proof.
  induction lo as [|x lo IH]; intros zs c Hlo Hc.
  - exists [], c. cbn [length mul_radix app limbs_value]. rewrite weight_0.
    repeat split; try lia. constructor.
  - inversion Hlo as [|? ? Hx Hlo']; subst. cbn [length app mul_radix].
    unfold in_uint32 in Hx. change (2 ^ 32) with 4294967296 in Hx.
    assert (E64 : uint64 (uint64 (uint64 x * uint64 TrinaryRadix) + uint64 c) = 3 * x + c).
    { unfold TrinaryRadix.
      rewrite (uint64_small x), (uint64_small 3), (uint64_small c)
        by (unfold in_uint64; change (2 ^ 64) with 18446744073709551616; lia).
      rewrite (uint64_small (x * 3))
        by (unfold in_uint64; change (2 ^ 64) with 18446744073709551616; lia).
      rewrite uint64_small
        by (unfold in_uint64; change (2 ^ 64) with 18446744073709551616; lia).
      lia. }
    rewrite E64. rewrite Z.shiftr_div_pow2 by lia.
    unfold uint32 at 1 2, wrap_unsigned. change (2 ^ 32) with 4294967296.
    pose proof (Z.div_mod (3 * x + c) 4294967296 ltac:(lia)) as DM.
    pose proof (Z.mod_pos_bound (3 * x + c) 4294967296 ltac:(lia)) as MB.
    assert (QB : 0 <= (3 * x + c) / 4294967296 <= 2).
    { split; [apply Z.div_pos; lia|].
      assert ((3 * x + c) / 4294967296 < 3) by (apply Z.div_lt_upper_bound; lia). lia. }
    rewrite (Z.mod_small ((3 * x + c) / 4294967296)) by lia.
    destruct (IH zs ((3 * x + c) / 4294967296) Hlo' QB) as (lo' & c' & E & Len & O & Bc & Val).
    rewrite E. cbn [bind].
    exists (((3 * x + c) mod 4294967296) :: lo'), c'.
    split; [reflexivity|]. split; [simpl; lia|].
    split; [constructor; [unfold in_uint32; change (2 ^ 32) with 4294967296; lia | exact O]|].
    split; [exact Bc|].
    cbn [limbs_value]. rewrite weight_succ. change (2 ^ 32) with 4294967296. lia.
Qed.

(** The state of the outer loop: twelve limbs, zero from index [size] on. *)
Definition loop_inv (base : list Z) (size : nat) (v : Z) : Prop :=
  length base = IntLength /\ limbs_ok base /\ (1 <= size <= IntLength)%nat
  /\ skipn size base = repeat 0 (IntLength - size)
  /\ limbs_value base = v.

Lemma trit_step_spec base size v e :
  loop_inv base size v -> ValidTrit e = true -> 3 * v + (e + 1) < weight IntLength ->
  exists base' size', trit_step (base, size) e = Ok (base', size')
    /\ loop_inv base' size' (3 * v + (e + 1)).
Proof.
  intros (Len & O & Sz & Zs & Val) He Bd.
  assert (Split : base = firstn size base ++ repeat 0 (IntLength - size)).
  { rewrite <- Zs. symmetry. apply firstn_skipn. }
  set (lo := firstn size base) in *.
  assert (Llo : length lo = size) by (subst lo; rewrite length_firstn; lia).
  assert (Olo : limbs_ok lo) by (subst lo; apply Forall_firstn; exact O).
  assert (Vlo : limbs_value lo = v).
  { rewrite <- Val, Split, limbs_value_app, limbs_value_zeros. lia. }
  clearbody lo. subst base.
  destruct (mul_radix_spec lo (repeat 0 (IntLength - size)) 0 Olo ltac:(lia))
    as (lo' & c' & Em & Llo' & Olo' & Bc & Vm).
  rewrite Llo in Em, Vm.
  assert (Ee : uint32 (int8 (e + 1)) = e + 1 /\ in_uint32 (e + 1)).
  { apply ValidTrit_cases in He. destruct He as [-> | [-> | ->]]; split; try reflexivity;
      unfold in_uint32; change (2 ^ 32) with 4294967296; lia. }
  destruct Ee as [Ee Ie].
  (* the limbs after the carry has been stored *)
  assert (Mid : exists base1 size1,
    (if c' >? 0
     then if (size <? length (lo' ++ repeat 0%Z (IntLength - size)))%nat
          then Ok (upd size c' (lo' ++ repeat 0 (IntLength - size)), (size + 1)%nat)
          else Panic
     else Ok (lo' ++ repeat 0 (IntLength - size), size)) = Ok (base1, size1)
    /\ loop_inv base1 size1 (3 * v)).
  { destruct (Z.gtb_spec c' 0) as [G | G].
    - assert (S12 : (size < IntLength)%nat).
      { destruct (Nat.lt_ge_cases size IntLength) as [L | L]; [exact L|].
        pose proof (weight_mono IntLength size L). pose proof (limbs_value_bound lo' Olo').
        pose proof (weight_pos size).
        assert (weight size * 1 <= weight size * c') by (apply Z.mul_le_mono_nonneg_l; lia).
        apply ValidTrit_cases in He. lia. }
      assert (Ls : length lo' = size) by lia.
      rewrite length_app, repeat_length, Ls.
      destruct (Nat.ltb_spec size (size + (IntLength - size))) as [_ | C]; [|lia].
      replace (IntLength - size)%nat with (S (IntLength - (size + 1))) by lia.
      cbn [repeat]. rewrite (upd_app_at lo' size) by exact Ls.
      exists (lo' ++ c' :: repeat 0 (IntLength - (size + 1))), (size + 1)%nat.
      split; [reflexivity|]. unfold loop_inv.
      split; [rewrite length_app; cbn [length]; rewrite repeat_length; lia|].
      split.
      { apply limbs_ok_app; [exact Olo'|].
        constructor; [unfold in_uint32; change (2 ^ 32) with 4294967296; lia|].
        apply limbs_ok_zeros. }
      split; [lia|]. split.
      { replace (lo' ++ c' :: repeat 0 (IntLength - (size + 1)))
          with ((lo' ++ [c']) ++ repeat 0 (IntLength - (size + 1)))
          by (rewrite <- app_assoc; reflexivity).
        rewrite skipn_app, skipn_all2 by (rewrite length_app; simpl; lia).
        rewrite length_app. cbn [length app]. rewrite Ls.
        replace (size + 1 - (size + 1))%nat with 0%nat by lia. reflexivity. }
      rewrite limbs_value_app. cbn [limbs_value]. rewrite limbs_value_zeros, Ls. lia.
    - assert (c' = 0) by lia. subst c'.
      exists (lo' ++ repeat 0 (IntLength - size)), size.
      split; [reflexivity|]. unfold loop_inv.
      split; [rewrite length_app, repeat_length; lia|].
      split; [apply limbs_ok_app; [exact Olo' | apply limbs_ok_zeros]|].
      split; [lia|]. split.
      { rewrite skipn_app, skipn_all2 by lia. rewrite Llo', Llo.
        replace (size - size)%nat with 0%nat by lia. reflexivity. }
      rewrite limbs_value_app, limbs_value_zeros. lia. }
  destruct Mid as (base1 & size1 & E1 & (Len1 & O1 & Sz1 & Zs1 & Val1)).
  destruct (AddSmall_spec base1 (e + 1) O1) as (r & ns & Ea & Or & Lr & Vr & Rns & Sk).
  { intros ->. discriminate. }
  { exact Ie. }
  { rewrite Len1, Val1. exact Bd. }
  unfold trit_step. rewrite Em. cbn [bind].
  rewrite E1. cbn [bind]. rewrite Ee, Ea. cbn [bind].
  eexists; eexists. split; [reflexivity|]. unfold loop_inv.
  split; [lia|]. split; [exact Or|].
  split; [destruct (Nat.ltb_spec size1 ns); lia|]. split; [|lia].
  set (m := if (size1 <? ns)%nat then ns else size1).
  assert (Hm : (ns <= m /\ size1 <= m)%nat) by (subst m; destruct (Nat.ltb_spec size1 ns); lia).
  rewrite (skipn_agree r base1 ns m Sk) by lia.
  replace m with ((m - size1) + size1)%nat at 1 by lia.
  rewrite <- skipn_skipn, Zs1, skipn_repeat. f_equal. lia.
Qed.

Lemma trit_steps_spec es : forall base size v,
  loop_inv base size v -> valid_trits es -> 0 <= v -> horner es v < weight IntLength ->
  exists base' size', trit_steps es (base, size) = Ok (base', size')
    /\ loop_inv base' size' (horner es v).
Proof.
  induction es as [|e es IH]; intros base size v I V Hv Bd.
  - exists base, size. split; [reflexivity | exact I].
  - inversion V as [|? ? He V']; subst. unfold horner in Bd. cbn [fold_left] in Bd.
    fold (horner es (3 * v + (e + 1))) in Bd.
    assert (P : 0 <= 3 * v + (e + 1)) by (apply ValidTrit_cases in He; lia).
    pose proof (horner_mono es _ V' P) as M.
    destruct (trit_step_spec base size v e I He ltac:(lia)) as (b1 & s1 & E1 & I1).
    destruct (IH b1 s1 _ I1 V' P Bd) as (b2 & s2 & E2 & I2).
    exists b2, s2. cbn [trit_steps]. rewrite E1. cbn [bind]. split; [exact E2 | exact I2].
Qed.

Lemma halfThree_value : 2 * limbs_value halfThree + 1 = 3 ^ 242.
Proof. vm_compute. reflexivity. Qed.

Lemma halfThree_ok : limbs_ok halfThree /\ length halfThree = IntLength.
Proof.
  split; [|reflexivity].
  unfold halfThree, limbs_ok, in_uint32. repeat constructor; discriminate.
Qed.

Lemma weight_IntLength : weight IntLength = 2 ^ 384.
Proof. reflexivity. Qed.

Lemma pow3_242_small : 3 ^ 242 < 2 ^ 384.
Proof. reflexivity. Qed.

(** The limbs [TritsToBytes] reverses into its result hold the value of the
    first 242 trits modulo 2^384. *)
Lemma TritsToBytes_limbs t :
  valid_trits t -> length t = HashTrinarySize ->
  exists base, TritsToBytes t = Ok (Reverse (bytes_of_limbs base))
    /\ limbs_ok base /\ length base = IntLength
    /\ limbs_value base = trits_value (firstn (HashTrinarySize - 1) t) mod 2 ^ 384.
Proof.
  intros V L. unfold TritsToBytes, CanBeHash. rewrite L, Nat.eqb_refl. cbn [negb].
  set (ts := firstn (HashTrinarySize - 1) t).
  assert (Lts : length ts = 242%nat) by (subst ts; rewrite length_firstn, L; reflexivity).
  assert (Vts : valid_trits ts) by (subst ts; apply Forall_firstn; exact V).
  pose proof (offset_value_trits_value ts) as OV. rewrite Lts in OV.
  change (Z.of_nat 242) with 242 in OV.
  pose proof (offset_value_bound ts Vts) as OB. rewrite Lts in OB.
  change (Z.of_nat 242) with 242 in OB.
  pose proof halfThree_value as HV. pose proof pow3_242_small as PS.
  destruct halfThree_ok as [HO HL].
  pose proof (limbs_value_bound halfThree HO) as HB.
  rewrite HL, weight_IntLength in HB.
  destruct (forallb (fun e => e =? -1) ts) eqn:AllNeg.
  - (* every trit is -1 *)
    pose proof (all_neg_offset_value ts AllNeg) as Z0.
    change (firstn IntLength halfThree) with halfThree.
    destruct (Not_spec halfThree HO) as (NO & NL & NV).
    rewrite HL, weight_IntLength in NV.
    destruct (AddSmall_spec (Not halfThree) 1 NO) as (r & ns & E & Or & Lr & Vr & _ & _).
    { intros C. rewrite C in NL. discriminate NL. }
    { unfold in_uint32. change (2 ^ 32) with 4294967296. lia. }
    { rewrite NL, HL, weight_IntLength. lia. }
    rewrite E. cbn [bind]. exists r.
    split; [reflexivity|]. split; [exact Or|]. split; [lia|].
    rewrite Vr, NV.
    replace (trits_value ts) with ((2 ^ 384 - 1 - limbs_value halfThree + 1) + (-1) * 2 ^ 384)
      by lia.
    rewrite Z_mod_plus_full. symmetry. apply Z.mod_small. lia.
  - (* the general path *)
    assert (NZ : offset_value ts <> 0).
    { intros C. rewrite (offset_value_zero ts Vts C) in AllNeg. discriminate. }
    assert (I0 : loop_inv (repeat 0 IntLength) 1 0).
    { unfold loop_inv. repeat split; try reflexivity; try (unfold IntLength; lia).
      apply limbs_ok_zeros. }
    destruct (trit_steps_spec (ReverseTrits ts) (repeat 0 IntLength) 1%nat 0 I0)
      as (base & size & E & (Lb & Ob & _ & _ & Vb)).
    { unfold ReverseTrits. apply Forall_rev. exact Vts. }
    { lia. }
    { unfold ReverseTrits. rewrite horner_rev, weight_IntLength. lia. }
    unfold ReverseTrits in Vb. rewrite horner_rev in Vb.
    rewrite E. cbn [bind].
    assert (NN : IsNull base = false).
    { destruct (IsNull base) eqn:N; [|reflexivity].
      apply (IsNull_spec base Ob) in N. lia. }
    rewrite NN. cbn [negb].
    unfold MustCmp. rewrite HL, Lb, Nat.eqb_refl. cbn [negb bind].
    destruct (cmp_limbs_spec halfThree base HO Ob ltac:(lia)) as [[C Cv] | [[C Cv] | [C Cv]]];
      rewrite C.
    + change (-1 <=? 0) with true. cbv iota.
      destruct (MustSub_spec base halfThree Ob HO ltac:(lia) ltac:(lia))
        as (r & Er & Or & Lr & Vr).
      rewrite Er. cbn [bind]. exists r.
      split; [reflexivity|]. split; [exact Or|]. split; [lia|].
      rewrite Vr.
      replace (limbs_value base - limbs_value halfThree) with (trits_value ts) by lia.
      symmetry. apply Z.mod_small. lia.
    + change (0 <=? 0) with true. cbv iota.
      destruct (MustSub_spec base halfThree Ob HO ltac:(lia) ltac:(lia))
        as (r & Er & Or & Lr & Vr).
      rewrite Er. cbn [bind]. exists r.
      split; [reflexivity|]. split; [exact Or|]. split; [lia|].
      rewrite Vr.
      replace (limbs_value base - limbs_value halfThree) with (trits_value ts) by lia.
      symmetry. apply Z.mod_small. lia.
    + change (1 <=? 0) with false. cbv iota.
      destruct (MustSub_spec halfThree base HO Ob ltac:(lia) ltac:(lia))
        as (tmp & Et & Ot & Lt & Vt).
      rewrite Et. cbn [bind].
      destruct (Not_spec tmp Ot) as (NO & NL & NV).
      rewrite Lt, HL, weight_IntLength in NV.
      destruct (AddSmall_spec (Not tmp) 1 NO) as (r & ns & Ea & Or & Lr & Vr & _ & _).
      { intros C'. rewrite C' in NL. rewrite Lt, HL in NL. discriminate NL. }
      { unfold in_uint32. change (2 ^ 32) with 4294967296. lia. }
      { rewrite NL, Lt, HL, weight_IntLength. lia. }
      rewrite Ea. cbn [bind]. exists r.
      split; [reflexivity|]. split; [exact Or|]. split; [lia|].
      rewrite Vr, NV, Vt.
      replace (trits_value ts)
        with ((2 ^ 384 - 1 - (limbs_value halfThree - limbs_value base) + 1) + (-1) * 2 ^ 384)
        by lia.
      rewrite Z_mod_plus_full. symmetry. apply Z.mod_small. lia.
Qed.

(** [(3^242)/2], the constant the comment on [halfThree] names. *)
Definition HALF_THREE : Z := 3 ^ 242 / 2.

Lemma halfThree_is_HALF_THREE : limbs_value halfThree = HALF_THREE.
Proof. vm_compute. reflexivity. Qed.

(** C1 (as the code has it): for 243 valid trits the 48 bytes are the
    big-endian 384-bit two's complement of [x], the value of the first 242
    trits: read as an unsigned integer they are [x mod 2^384], with no offset,
    and the high bit of the first byte is set exactly when [x] is negative. *)
Theorem TritsToBytes_twos_complement (t : Trits) :
  valid_trits t -> length t = HashTrinarySize ->
  exists bs, TritsToBytes t = Ok bs
    /\ length bs = HashBytesSize /\ Forall is_byte bs
    /\ bytes_value bs = trits_value (firstn 242 t) mod 2 ^ 384
    /\ (128 <= nth 0 bs 0 <-> trits_value (firstn 242 t) < 0).
Proof.
  intros V L.
  destruct (TritsToBytes_limbs t V L) as (base & E & O & Lb & Val).
  change (HashTrinarySize - 1)%nat with 242%nat in Val.
  set (x := trits_value (firstn 242 t)) in *.
  exists (Reverse (bytes_of_limbs base)).
  assert (Len : length (Reverse (bytes_of_limbs base)) = HashBytesSize).
  { unfold Reverse. rewrite length_rev, bytes_of_limbs_length, Lb. reflexivity. }
  assert (By : Forall is_byte (Reverse (bytes_of_limbs base))).
  { unfold Reverse. apply Forall_rev, bytes_of_limbs_ok. }
  assert (BV : bytes_value (Reverse (bytes_of_limbs base)) = x mod 2 ^ 384).
  { rewrite Reverse_bytes_value by exact O. exact Val. }
  split; [exact E|]. split; [exact Len|]. split; [exact By|]. split; [exact BV|].
  (* the sign bit *)
  assert (Bx : 2 * Z.abs x < 3 ^ 242).
  { pose proof (trits_value_bound (firstn 242 t) (Forall_firstn 242 V)) as B.
    rewrite length_firstn, L in B. exact B. }
  pose proof pow3_242_small as PS.
  destruct (Reverse (bytes_of_limbs base)) as [|b0 rest]; [discriminate Len|].
  inversion By as [|? ? Hb0 Hrest]; subst.
  pose proof (bytes_value_app [b0] rest) as A. cbn [app] in A.
  pose proof (bytes_value_bound rest Hrest) as Br.
  assert (Lr : length rest = 47%nat) by (simpl in Len; unfold HashBytesSize in Len; lia).
  rewrite Lr in A, Br. change (bytes_value [b0]) with b0 in A.
  change (256 ^ Z.of_nat 47) with (2 ^ 376) in A, Br.
  assert (P : 2 ^ 384 = 256 * 2 ^ 376) by reflexivity.
  assert (Q : 0 < 2 ^ 376) by reflexivity.
  cbn [nth]. rewrite A in BV.
  destruct (Z.lt_ge_cases x 0) as [Neg | Pos].
  - replace x with ((2 ^ 384 + x) + (-1) * 2 ^ 384) in BV at 1 by lia.
    rewrite Z_mod_plus_full, Z.mod_small in BV by lia.
    split; [intros _; exact Neg | intros _; nia].
  - rewrite Z.mod_small in BV by lia.
    split; [intros G; nia | lia].
Qed.

Lemma TritsToBytes_twos_complement_witness :
  exists bs, TritsToBytes (-1 :: repeat 0 242) = Ok bs
    /\ length bs = HashBytesSize /\ Forall is_byte bs
    /\ bytes_value bs = trits_value (firstn 242 (-1 :: repeat 0 242)) mod 2 ^ 384
    /\ (128 <= nth 0 bs 0 <-> trits_value (firstn 242 (-1 :: repeat 0 242)) < 0).
Proof.
  apply (TritsToBytes_twos_complement (-1 :: repeat 0 242)).
  - constructor; [reflexivity | apply valid_trits_repeat0].
  - reflexivity.
Defined.

(** C1 as stated fails.  The 243 zero trits have [x = 0] and last trit 0;
    their bytes are all zero and stand for 0, not for [0 + HALF_THREE].  The
    trits of -1 (last trit 0) are written as 48 bytes [0xff]: the high bit of
    the first byte is set. *)
Lemma TritsToBytes_has_no_offset :
  (valid_trits (repeat 0 243) /\ nth 242 (repeat 0 243) 1 = 0
   /\ TritsToBytes (repeat 0 243) = Ok (repeat 0 48)
   /\ bytes_value (repeat 0 48)
      <> trits_value (firstn 242 (repeat 0 243)) + HALF_THREE)
  /\ (valid_trits (-1 :: repeat 0 242) /\ nth 242 (-1 :: repeat 0 242) 1 = 0
      /\ TritsToBytes (-1 :: repeat 0 242) = Ok (repeat 255 48)
      /\ Z.testbit (nth 0 (repeat 255 48) 0) 7 = true).
Proof.
  split.
  - split; [apply valid_trits_repeat0|]. split; [reflexivity|].
    split; [vm_compute; reflexivity|]. vm_compute. discriminate.
  - split; [constructor; [reflexivity | apply valid_trits_repeat0]|].
    split; [reflexivity|]. split; vm_compute; reflexivity.
Qed.

(** *** The hash codec: from limbs back to trits *)

Lemma shifted_remainder rem x :
  0 <= rem <= 2 -> in_uint32 x ->
  Z.lor (uint64 (Z.shiftl rem 32)) (uint64 x) = rem * 2 ^ 32 + x.
Proof.
  unfold in_uint32. change (2 ^ 32) with 4294967296. intros Hr Hx.
  rewrite Z.shiftl_mul_pow2 by lia. change (2 ^ 32) with 4294967296.
  rewrite !uint64_small
    by (unfold in_uint64; change (2 ^ 64) with 18446744073709551616; lia).
  rewrite <- Z.lxor_lor, <- Z.add_nocarry_lxor; try reflexivity.
  all: apply Z.bits_inj'; intros i Hi; rewrite Z.land_spec, Z.bits_0;
    destruct (Z.lt_ge_cases i 32) as [Lo | Hi32].
  all: try (change 4294967296 with (2 ^ 32); rewrite Z.mul_pow2_bits_low by lia; reflexivity).
  all: rewrite (Z.bits_above_log2 x i); [apply andb_false_r | lia |].
  all: destruct (Z.eq_dec x 0) as [-> | Nx]; [simpl; lia|];
    apply Z.log2_lt_pow2; [lia|];
    apply Z.lt_le_trans with (2 ^ 32); [change (2 ^ 32) with 4294967296; lia|];
    apply Z.pow_le_mono_r; lia.
Qed.

Lemma div_radix_spec base :
  limbs_ok base ->
  limbs_ok (fst (div_radix base)) /\ length (fst (div_radix base)) = length base
  /\ limbs_value (fst (div_radix base)) = limbs_value base / 3
  /\ snd (div_radix base) = limbs_value base mod 3.
Proof.
  induction 1 as [|x base Hx Hb (IHo & IHl & IHv & IHr)].
  - cbn. repeat split. constructor.
  - cbn [div_radix]. destruct (div_radix base) as [rest' rem]. cbn [fst snd] in *.
    pose proof (Z.mod_pos_bound (limbs_value base) 3 ltac:(lia)) as Rb.
    rewrite <- IHr in Rb.
    rewrite shifted_remainder by (try assumption; lia).
    unfold TrinaryRadix.
    rewrite (uint64_small 3) by (unfold in_uint64; change (2 ^ 64) with 18446744073709551616; lia).
    set (lhs := rem * 2 ^ 32 + x).
    unfold in_uint32 in Hx. change (2 ^ 32) with 4294967296 in *.
    assert (Hl : 0 <= lhs < 3 * 4294967296) by (subst lhs; lia).
    pose proof (Z.mod_pos_bound lhs 3 ltac:(lia)) as Mb.
    assert (Qb : 0 <= lhs / 3 < 4294967296).
    { split; [apply Z.div_pos; lia | apply Z.div_lt_upper_bound; lia]. }
    rewrite !uint32_small by (unfold in_uint32; change (2 ^ 32) with 4294967296; lia).
    rewrite uint64_small by (unfold in_uint64; change (2 ^ 64) with 18446744073709551616; lia).
    cbn [limbs_value length]. change (2 ^ 32) with 4294967296.
    pose proof (Z.div_mod (limbs_value base) 3 ltac:(lia)) as DM.
    assert (Ev : x + 4294967296 * limbs_value base
                 = lhs + (4294967296 * (limbs_value base / 3)) * 3).
    { subst lhs. rewrite IHr. lia. }
    rewrite Ev, Z_div_plus_full, Z_mod_plus_full by lia.
    split; [constructor; [unfold in_uint32; change (2 ^ 32) with 4294967296; lia | exact IHo]|].
    split; [simpl; lia|]. split; [rewrite IHv; lia | reflexivity].
Qed.

Lemma extract_trits_spec ts : forall base,
  valid_trits ts -> limbs_ok base -> limbs_value base = offset_value ts ->
  extract_trits (length ts) base = ts.
Proof.
  induction ts as [|x ts IH]; intros base V O Val; [reflexivity|].
  inversion V as [|? ? Hx V']; subst.
  cbn [length extract_trits].
  destruct (div_radix_spec base O) as (Oq & Lq & Vq & Rq).
  destruct (div_radix base) as [q rem]. cbn [fst snd] in *.
  cbn [offset_value] in Val. apply ValidTrit_cases in Hx.
  assert (Er : rem = x + 1).
  { rewrite Rq, Val. replace (x + 1 + 3 * offset_value ts)
      with ((x + 1) + offset_value ts * 3) by lia.
    rewrite Z_mod_plus_full. apply Z.mod_small. lia. }
  assert (Eq : limbs_value q = offset_value ts).
  { rewrite Vq, Val. replace (x + 1 + 3 * offset_value ts)
      with ((x + 1) + offset_value ts * 3) by lia.
    rewrite Z_div_plus_full by lia. rewrite Z.div_small by lia. lia. }
  f_equal.
  - rewrite Er. destruct Hx as [-> | [-> | ->]]; reflexivity.
  - apply IH; assumption.
Qed.

Lemma trits_value_zero ts :
  valid_trits ts -> trits_value ts = 0 -> ts = repeat 0 (length ts).
Proof.
  induction 1 as [|x ts Hx Hts IH]; intros E; [reflexivity|].
  cbn [trits_value] in E. apply ValidTrit_cases in Hx.
  assert (x = 0) by lia. assert (trits_value ts = 0) by lia. subst x.
  cbn [length repeat]. f_equal. apply IH. assumption.
Qed.

(** The top limb carries the sign bit of the 384-bit value. *)
Lemma top_limb_sign base :
  limbs_ok base -> length base = IntLength ->
  (Z.shiftr (nth (IntLength - 1) base 0) (4 * 8 - 1) =? 0) = (limbs_value base <? 2 ^ 383).
Proof.
  intros O L.
  assert (Split : base = firstn 11 base ++ [nth 11 base 0]).
  { rewrite <- (firstn_skipn 11 base) at 1. f_equal.
    do 12 (destruct base as [|? base]; [discriminate|]).
    destruct base; [reflexivity | discriminate]. }
  change (IntLength - 1)%nat with 11%nat. change (4 * 8 - 1) with 31.
  set (top := nth 11 base 0) in *.
  assert (Ot : in_uint32 top).
  { unfold limbs_ok in O. rewrite Forall_forall in O. apply O. subst top.
    apply nth_In. rewrite L. unfold IntLength. lia. }
  assert (Olo : limbs_ok (firstn 11 base)) by (apply Forall_firstn; exact O).
  pose proof (limbs_value_bound _ Olo) as Blo.
  rewrite length_firstn, L in Blo. change (Nat.min 11 IntLength) with 11%nat in Blo.
  rewrite Split, limbs_value_app. cbn [limbs_value].
  rewrite length_firstn, L. change (Nat.min 11 IntLength) with 11%nat.
  change (weight 11) with (2 ^ 352) in *.
  assert (P : 2 ^ 383 = 2 ^ 31 * 2 ^ 352) by reflexivity.
  assert (Q : 0 < 2 ^ 352) by reflexivity.
  rewrite Z.shiftr_div_pow2 by lia.
  unfold in_uint32 in Ot. change (2 ^ 32) with (2 * 2 ^ 31) in Ot.
  assert (R : 0 < 2 ^ 31) by reflexivity.
  destruct (Z.lt_ge_cases top (2 ^ 31)) as [Lo | Hi].
  - rewrite Z.div_small by lia. change (0 =? 0) with true.
    symmetry. apply Z.ltb_lt. nia.
  - assert (1 <= top / 2 ^ 31) by (apply Z.div_le_lower_bound; lia).
    destruct (Z.eqb_spec (top / 2 ^ 31) 0); [lia|].
    symmetry. apply Z.ltb_ge. nia.
Qed.

Lemma BytesToTrits_of_limbs base ts :
  limbs_ok base -> length base = IntLength ->
  valid_trits ts -> length ts = 242%nat ->
  limbs_value base = trits_value ts mod 2 ^ 384 ->
  BytesToTrits (Reverse (bytes_of_limbs base)) = Ok (ts ++ [0]).
Proof.
  intros O Lb V Lts Val.
  pose proof (trits_value_bound ts V) as Bx. rewrite Lts in Bx.
  change (Z.of_nat 242) with 242 in Bx.
  pose proof (offset_value_trits_value ts) as OV. rewrite Lts in OV.
  change (Z.of_nat 242) with 242 in OV.
  pose proof halfThree_value as HV. pose proof pow3_242_small as PS.
  destruct halfThree_ok as [HO HL].
  assert (P : 2 ^ 384 = 2 * 2 ^ 383) by reflexivity.
  assert (P' : 0 < 2 ^ 383) by reflexivity.
  set (x := trits_value ts) in *.
  (* the value of the limbs, by the sign of [x] *)
  assert (Vx : (0 <= x /\ limbs_value base = x) \/ (x < 0 /\ limbs_value base = 2 ^ 384 + x)).
  { destruct (Z.lt_ge_cases x 0) as [Neg | Pos].
    - right. split; [exact Neg|]. rewrite Val.
      replace x with ((2 ^ 384 + x) + (-1) * 2 ^ 384) at 1 by lia.
      rewrite Z_mod_plus_full. apply Z.mod_small. lia.
    - left. split; [exact Pos|]. rewrite Val. apply Z.mod_small. lia. }
  clear Val.
  unfold BytesToTrits, Reverse.
  rewrite length_rev, bytes_of_limbs_length, Lb. change (4 * IntLength =? HashBytesSize)%nat with true.
  cbn [negb]. rewrite rev_involutive, limbs_of_bytes_of_limbs by exact O.
  rewrite firstn_all2 by lia.
  destruct (IsNull base) eqn:N.
  - apply (IsNull_spec base O) in N.
    assert (x = 0) by lia.
    pose proof (trits_value_zero ts V ltac:(assumption)) as Ez. rewrite Lts in Ez.
    rewrite Ez. reflexivity.
  - assert (NZ : limbs_value base <> 0).
    { intros C. apply (IsNull_spec base O) in C. rewrite C in N. discriminate N. }
    rewrite (top_limb_sign base O Lb).
    destruct (Z.ltb_spec (limbs_value base) (2 ^ 383)) as [Lo | Hi].
    + (* positive *)
      destruct (MustAdd_spec base halfThree O HO ltac:(lia)) as (r & Er & Or & Lr & Vr).
      { rewrite Lb, weight_IntLength. lia. }
      rewrite Er. cbn [bind].
      change (HashTrinarySize - 1)%nat with 242%nat. rewrite <- Lts.
      rewrite (extract_trits_spec ts r V Or) by lia. reflexivity.
    + (* negative *)
      destruct (Not_spec base O) as (NO & NL & NV).
      rewrite Lb, weight_IntLength in NV.
      unfold MustCmp. rewrite NL, Lb, HL, Nat.eqb_refl. cbn [negb bind].
      assert (Cne : (cmp_limbs (Not base) halfThree =? 1) = false).
      { destruct (cmp_limbs_spec (Not base) halfThree NO HO ltac:(lia))
          as [[C _] | [[C _] | [C Cv]]]; rewrite C; try reflexivity. lia. }
      rewrite Cne.
      destruct (AddSmall_spec (Not base) 1 NO) as (b1 & ns & Ea & O1 & L1 & V1 & _ & _).
      { intros C. rewrite C in NL. rewrite Lb in NL. discriminate NL. }
      { unfold in_uint32. change (2 ^ 32) with 4294967296. lia. }
      { rewrite NL, Lb, weight_IntLength. lia. }
      rewrite Ea. cbn [bind].
      destruct (MustSub_spec halfThree b1 HO O1 ltac:(lia) ltac:(lia)) as (r & Er & Or & Lr & Vr).
      rewrite Er. cbn [bind].
      change (HashTrinarySize - 1)%nat with 242%nat. rewrite <- Lts.
      rewrite (extract_trits_spec ts r V Or) by lia. reflexivity.
Qed.

(** Every character of the class has a row of three trits in the table. *)
Lemma tryte_char_row c :
  tryte_char c = true ->
  exists row, lut_at (Index TryteAlphabet c) = Ok row
    /\ length row = 3%nat /\ valid_trits row.
Proof.
  destruct c as [b0 b1 b2 b3 b4 b5 b6 b7].
  destruct b0, b1, b2, b3, b4, b5, b6, b7; intros H;
    try (vm_compute in H; discriminate H);
    (eexists; split; [vm_compute; reflexivity | split; [reflexivity | repeat constructor]]).
Qed.

Lemma trytes_to_trits_loop_spec s :
  all_tryte_chars s = true ->
  exists t, trytes_to_trits_loop s = Ok t
    /\ length t = (3 * String.length s)%nat /\ valid_trits t.
Proof.
  induction s as [|c s IH]; intros H.
  - exists []. repeat split. constructor.
  - cbn [all_tryte_chars] in H. apply andb_true_iff in H. destruct H as [Hc Hs].
    destruct (tryte_char_row c Hc) as (row & Er & Lr & Vr).
    destruct (IH Hs) as (t & Et & Lt & Vt).
    exists (row ++ t). cbn [trytes_to_trits_loop]. rewrite Er. cbn [bind].
    rewrite Et. cbn [bind]. rewrite firstn_all2 by lia.
    split; [reflexivity|]. split.
    + rewrite length_app, Lr, Lt. cbn [String.length]. lia.
    + apply Forall_app. split; assumption.
Qed.

Lemma upd_last (t : Trits) n v :
  length t = S n -> upd n v t = firstn n t ++ [v].
Proof.
  intros L. rewrite <- (firstn_skipn n t) at 1.
  assert (Ls : length (skipn n t) = 1%nat) by (rewrite length_skipn; lia).
  destruct (skipn n t) as [|x [|y rest]]; try discriminate Ls.
  apply upd_app_at. rewrite length_firstn. lia.
Qed.

(** C4: a valid hash of 81 trytes goes to trits, to bytes and back to
    trits without error, and comes back with its last trit set to 0. *)
Theorem BytesToTrits_of_TritsToBytes (h : Trytes) :
  ValidTrytes h = Ok tt -> String.length h = 81%nat ->
  exists t bs,
    TrytesToTrits h = Ok t /\ TritsToBytes t = Ok bs
    /\ BytesToTrits bs = Ok (upd (HashTrinarySize - 1) 0 t).
Proof.
  intros Vh Lh.
  assert (Ch : all_tryte_chars h = true).
  { unfold ValidTrytes in Vh. destruct h as [|c h]; [discriminate Vh|].
    destruct (all_tryte_chars (String c h)); [reflexivity | discriminate Vh]. }
  destruct (trytes_to_trits_loop_spec h Ch) as (t & Et & Lt & Vt).
  rewrite Lh in Lt. change (3 * 81)%nat with HashTrinarySize in Lt.
  destruct (TritsToBytes_limbs t Vt Lt) as (base & Eb & Ob & Lb & Val).
  exists t, (Reverse (bytes_of_limbs base)).
  split; [unfold TrytesToTrits; rewrite Vh; exact Et|].
  split; [exact Eb|].
  change (HashTrinarySize - 1)%nat with 242%nat in *.
  rewrite (upd_last t 242 0 Lt).
  apply BytesToTrits_of_limbs; try assumption.
  - apply Forall_firstn. exact Vt.
  - rewrite length_firstn, Lt. reflexivity.
Qed.

Lemma BytesToTrits_of_TritsToBytes_witness :
  exists t bs,
    TrytesToTrits test_hash = Ok t /\ TritsToBytes t = Ok bs
    /\ BytesToTrits bs = Ok (upd (HashTrinarySize - 1) 0 t).
Proof.
  apply (BytesToTrits_of_TritsToBytes test_hash); reflexivity.
Defined.

(** *** Further functions of the package *)

(** [NewTrits]: the slice it was given, and the error of [ValidTrits]. *)
Definition NewTrits (t : Trits) : Trits * result unit := (t, ValidTrits t).

(** The comparison loop of [TritsEqual], on slices of equal length. *)
Fixpoint trits_equal_loop (a b : Trits) : bool :=
  match a, b with
  | x :: a', y :: b' => if negb (x =? y) then false else trits_equal_loop a' b'
  | _, _ => true
  end.

(** [TritsEqual] *)
Definition TritsEqual (a b : Trits) : result bool :=
  _ <- ValidTrits a ;;
  _ <- ValidTrits b ;;
  if negb (length a =? length b)%nat then Ok false
  else Ok (trits_equal_loop a b).

(** The loop of [TrailingZeros], about to read index [n - 1]. *)
Fixpoint trailing_zeros_loop (n : nat) (t : Trits) (z : Z) : Z :=
  match n with
  | O => z
  | S i => if nth i t 0 =? 0 then trailing_zeros_loop i t (int64 (z + 1)) else z
  end.

(** [TrailingZeros] *)
Definition TrailingZeros (t : Trits) : Z := trailing_zeros_loop (length t) t 0.

Example TrailingZeros_test : TrailingZeros [1; 0; 0; 0] = 3 /\ TrailingZeros [0; 0; 0; 0] = 4.
Proof. split; reflexivity. Qed.

Example ValidTrits_test :
  ValidTrits [1; 0; -1] = Ok tt /\ ValidTrits [1; 0; 2; 5] = Err (AtIndex ErrInvalidTrit 2).
Proof. split; reflexivity. Qed.

(** The loop of [ValidTrits] either accepts a slice of trits or stops at the
    first element that is not a trit, with its index in the error. *)
Lemma valid_trits_from_spec t : forall i,
  (valid_trits_from i t = Ok tt /\ valid_trits t)
  \/ (exists k, (k < length t)%nat
        /\ valid_trits_from i t = Err (AtIndex ErrInvalidTrit (i + k))
        /\ ValidTrit (nth k t 0) = false /\ valid_trits (firstn k t)).
Proof.
  induction t as [|x t IH]; intros i; cbn [valid_trits_from].
  - left. split; [reflexivity | constructor].
  - destruct (ValidTrit x) eqn:E; cbn [negb].
    + destruct (IH (S i)) as [[H V] | (k & Lk & H & B & V)].
      * left. split; [exact H | constructor; assumption].
      * right. exists (S k). cbn [length nth firstn].
        split; [lia|]. split; [rewrite H; do 2 f_equal; lia|].
        split; [exact B | constructor; assumption].
    + right. exists 0%nat. cbn [length nth firstn].
      split; [lia|]. split; [rewrite Nat.add_0_r; reflexivity|].
      split; [exact E | constructor].
Qed.

(** The first element that is not a trit is at one index only. *)
Lemma first_invalid_unique (t : Trits) k k' :
  (k < length t)%nat -> ValidTrit (nth k t 0) = false -> valid_trits (firstn k t) ->
  (k' < length t)%nat -> ValidTrit (nth k' t 0) = false -> valid_trits (firstn k' t) ->
  k = k'.
Proof.
  assert (Before : forall (s : Trits) j m, valid_trits (firstn m s) -> (j < m)%nat ->
            ValidTrit (nth j s 0) = true).
  { intros s j m V L. pose proof (nth_valid (firstn m s) j V) as H.
    rewrite nth_firstn in H. apply Nat.ltb_lt in L. rewrite L in H. exact H. }
  intros L B V L' B' V'.
  destruct (Nat.lt_trichotomy k k') as [C | [C | C]]; [|exact C|].
  - rewrite (Before t k k' V' C) in B. discriminate B.
  - rewrite (Before t k' k V C) in B'. discriminate B'.
Qed.

Lemma trits_equal_loop_spec a : forall b,
  length a = length b -> (trits_equal_loop a b = true <-> a = b).
Proof.
  induction a as [|x a IH]; intros [|y b] L; try discriminate L.
  - split; reflexivity.
  - cbn [trits_equal_loop]. destruct (Z.eqb_spec x y) as [-> | Ne]; cbn [negb].
    + rewrite (IH b) by (simpl in L; lia). split; [intros ->; reflexivity|].
      intros H. inversion H; reflexivity.
    + split; [discriminate|]. intros H. inversion H; contradiction.
Qed.

(** X1: [ValidTrits] accepts exactly the slices of trits; its only error
    is [ErrInvalidTrit] wrapped with an index, the index of the first element
    that is not a trit, and it does not panic.  [TritsEqual] answers true
    exactly for two equal slices of trits and false exactly for two different
    ones, unequal lengths being an answer and not an error; its error is the
    error of [ValidTrits] on the first operand, or on the second when the
    first is made of trits. *)
Theorem TritsEqual_spec (a b : Trits) :
  (ValidTrits a = Ok tt <-> valid_trits a)
  /\ (forall e, ValidTrits a = Err e <->
        exists k, e = AtIndex ErrInvalidTrit k /\ (k < length a)%nat
                  /\ ValidTrit (nth k a 0) = false /\ valid_trits (firstn k a))
  /\ ValidTrits a <> Panic
  /\ (TritsEqual a b = Ok true <-> valid_trits a /\ valid_trits b /\ a = b)
  /\ (TritsEqual a b = Ok false <-> valid_trits a /\ valid_trits b /\ a <> b)
  /\ (forall e, TritsEqual a b = Err e <->
        ValidTrits a = Err e \/ (valid_trits a /\ ValidTrits b = Err e)).
Proof.
  assert (Cases : forall t : Trits,
            (ValidTrits t = Ok tt /\ valid_trits t)
            \/ (exists k, (k < length t)%nat
                  /\ ValidTrits t = Err (AtIndex ErrInvalidTrit k)
                  /\ ValidTrit (nth k t 0) = false /\ valid_trits (firstn k t))).
  { intros t. exact (valid_trits_from_spec t 0). }
  assert (NotValid : forall (t : Trits) k, (k < length t)%nat ->
            ValidTrit (nth k t 0) = false -> ~ valid_trits t).
  { intros t k _ B V. rewrite (nth_valid t k V) in B. discriminate B. }
  assert (First : (ValidTrits a = Ok tt <-> valid_trits a)
                  /\ (forall e, ValidTrits a = Err e <->
                        exists k, e = AtIndex ErrInvalidTrit k /\ (k < length a)%nat
                          /\ ValidTrit (nth k a 0) = false /\ valid_trits (firstn k a))
                  /\ ValidTrits a <> Panic).
  { destruct (Cases a) as [[E V] | (k & L & E & B & Vk)]; rewrite E.
    - split; [split; [intros _; exact V | reflexivity]|].
      split; [|discriminate].
      intros e. split; [discriminate|].
      intros (k & _ & L & B & _). exfalso. exact (NotValid a k L B V).
    - split; [split; [discriminate | intros V; exfalso; exact (NotValid a k L B V)]|].
      split; [|discriminate].
      intros e. split.
      + intros H. inversion H; subst e. exists k. repeat split; assumption.
      + intros (k' & -> & L' & B' & V').
        rewrite (first_invalid_unique a k k' L B Vk L' B' V'). reflexivity. }
  destruct First as (F1 & F2 & F3).
  split; [exact F1|]. split; [exact F2|]. split; [exact F3|].
  unfold TritsEqual.
  destruct (Cases a) as [[Ea Va] | (ka & La & Ea & Ba & Vka)]; rewrite Ea; cbn [bind].
  2:{ assert (Na : ~ valid_trits a) by exact (NotValid a ka La Ba).
      split; [split; [discriminate | tauto]|].
      split; [split; [discriminate | tauto]|].
      intros e. split; [intros H; left; inversion H; reflexivity|].
      intros [H | [V _]]; [inversion H; reflexivity | contradiction]. }
  destruct (Cases b) as [[Eb Vb] | (kb & Lb & Eb & Bb & Vkb)]; rewrite Eb; cbn [bind].
  2:{ assert (Nb : ~ valid_trits b) by exact (NotValid b kb Lb Bb).
      split; [split; [discriminate | tauto]|].
      split; [split; [discriminate | tauto]|].
      intros e. split; [intros H; right; split; [exact Va | inversion H; reflexivity]|].
      intros [H | [_ H]]; [discriminate H | inversion H; reflexivity]. }
  assert (Last : forall (r : bool) e, Ok r = Err e <->
            @Ok unit tt = Err e \/ (valid_trits a /\ @Ok unit tt = Err e)).
  { intros r e. split; [discriminate|]. intros [H | [_ H]]; discriminate H. }
  destruct (Nat.eqb_spec (length a) (length b)) as [L | L]; cbn [negb].
  - pose proof (trits_equal_loop_spec a b L) as S.
    destruct (trits_equal_loop a b).
    + assert (a = b) by (apply S; reflexivity).
      split; [split; [tauto | reflexivity]|].
      split; [split; [discriminate | intros (_ & _ & C); contradiction]|].
      apply Last.
    + assert (a <> b) by (intros C; apply S in C; discriminate C).
      split; [split; [discriminate | intros (_ & _ & C); contradiction]|].
      split; [split; [tauto | reflexivity]|].
      apply Last.
  - assert (a <> b) by (intros C; subst; contradiction).
    split; [split; [discriminate | intros (_ & _ & C); contradiction]|].
    split; [split; [tauto | reflexivity]|].
    apply Last.
Qed.

Lemma trailing_zeros_loop_spec n : forall t z,
  0 <= z -> z + Z.of_nat n <= MaxInt64 ->
  exists k, (k <= n)%nat /\ trailing_zeros_loop n t z = z + Z.of_nat k
    /\ (forall i, (n - k <= i < n)%nat -> nth i t 0 = 0)
    /\ ((k < n)%nat -> nth (n - k - 1) t 0 <> 0).
Proof.
  induction n as [|n IH]; intros t z Hz Hb.
  - exists 0%nat. cbn [trailing_zeros_loop]. repeat split; try lia.
  - cbn [trailing_zeros_loop]. destruct (Z.eqb_spec (nth n t 0) 0) as [E | Ne].
    + assert (I : int64 (z + 1) = z + 1).
      { apply int64_small. unfold in_int64, MaxInt64, MinInt64 in *. lia. }
      rewrite I. destruct (IH t (z + 1) ltac:(lia) ltac:(lia)) as (k & Lk & Ek & Zs & Nz).
      exists (S k). split; [lia|]. split; [lia|]. split.
      * intros i Hi. destruct (Nat.eq_dec i n) as [-> | Ni]; [exact E|].
        apply Zs. lia.
      * intros Hk. replace (S n - S k - 1)%nat with (n - k - 1)%nat by lia.
        apply Nz. lia.
    + exists 0%nat. split; [lia|]. split; [lia|]. split; [intros i Hi; lia|].
      intros _. replace (S n - 0 - 1)%nat with n by lia. exact Ne.
Qed.

(** X2: [TrailingZeros] returns the number [k] of zero trits at the end of
    the slice: the last [k] trits are 0 and the trit before them, if there is
    one, is not.  So it is at least [m] exactly when the last [m] trits are
    all 0, the test a proof-of-work hash has to pass. *)
Theorem TrailingZeros_spec (t : Trits) :
  Z.of_nat (length t) <= MaxInt64 ->
  exists k, TrailingZeros t = Z.of_nat k /\ (k <= length t)%nat
    /\ (forall i, (length t - k <= i < length t)%nat -> nth i t 0 = 0)
    /\ ((k < length t)%nat -> nth (length t - k - 1) t 0 <> 0)
    /\ (forall m, (m <= length t)%nat ->
          (Z.of_nat m <= TrailingZeros t
           <-> forall i, (length t - m <= i < length t)%nat -> nth i t 0 = 0)).
Proof.
  intros B. unfold TrailingZeros.
  destruct (trailing_zeros_loop_spec (length t) t 0 ltac:(lia) ltac:(lia))
    as (k & Lk & Ek & Zs & Nz).
  exists k. rewrite Ek. split; [lia|]. split; [exact Lk|].
  split; [exact Zs|]. split; [exact Nz|].
  intros m Lm. split.
  - intros H i Hi. apply Zs. lia.
  - intros H. destruct (Nat.le_gt_cases m k) as [L | G]; [lia|].
    exfalso. apply Nz; [lia|]. apply H. lia.
Qed.

Definition sample_trits : Trits := [1; 0; -1; 0; 0].

Lemma TrailingZeros_spec_witness :
  exists k, TrailingZeros sample_trits = Z.of_nat k /\ (k <= length sample_trits)%nat
    /\ (forall i, (length sample_trits - k <= i < length sample_trits)%nat
          -> nth i sample_trits 0 = 0)
    /\ ((k < length sample_trits)%nat
        -> nth (length sample_trits - k - 1) sample_trits 0 <> 0)
    /\ (forall m, (m <= length sample_trits)%nat ->
          (Z.of_nat m <= TrailingZeros sample_trits
           <-> forall i, (length sample_trits - m <= i < length sample_trits)%nat
                 -> nth i sample_trits 0 = 0)).
Proof.
  apply (TrailingZeros_spec sample_trits). vm_compute. discriminate.
Defined.

(** The loop of [ReverseTrits] as the code runs it, swapping in place from
    both ends; [fuel] bounds the turns. *)
Fixpoint reverse_loop (fuel : nat) (left right : Z) (trits : Trits) : Trits :=
  match fuel with
  | O => trits
  | S f =>
      if left <? right then
        let l := Z.to_nat left in
        let r := Z.to_nat right in
        let tl := nth l trits 0 in
        let tr := nth r trits 0 in
        reverse_loop f (left + 1) (right - 1) (upd r tl (upd l tr trits))
      else trits
  end.

Definition ReverseTrits_in_place (trits : Trits) : Trits :=
  reverse_loop (length trits) 0 (Z.of_nat (length trits) - 1) trits.

Lemma reverse_loop_spec fuel : forall mid pre post,
  (length mid <= fuel)%nat ->
  reverse_loop fuel (Z.of_nat (length pre)) (Z.of_nat (length pre + length mid) - 1)
    (pre ++ mid ++ post)
  = pre ++ rev mid ++ post.
Proof.
  induction fuel as [|fuel IH]; intros mid pre post L.
  - destruct mid; [reflexivity | simpl in L; lia].
  - cbn [reverse_loop].
    destruct (Z.ltb_spec (Z.of_nat (length pre)) (Z.of_nat (length pre + length mid) - 1))
      as [Lt | Ge].
    + destruct mid as [|x mid]; [simpl in Lt; lia|].
      destruct (exists_last (l := mid)) as (m & y & ->).
      { intros ->. simpl in Lt. lia. }
      cbn [length] in L, Lt. rewrite length_app in L, Lt. cbn [length] in L, Lt.
      assert (R : Z.to_nat (Z.of_nat (length pre + (S (length m + 1))) - 1)
                  = length (pre ++ x :: m)).
      { rewrite length_app. cbn [length]. lia. }
      cbn [length]. rewrite length_app. cbn [length]. rewrite R, Nat2Z.id.
      assert (Shape : pre ++ (x :: m ++ [y]) ++ post = (pre ++ x :: m) ++ y :: post).
      { rewrite <- !app_assoc. cbn [app]. rewrite <- app_assoc. reflexivity. }
      rewrite Shape, (nth_middle (pre ++ x :: m) post y 0).
      rewrite <- (app_assoc pre (x :: m) (y :: post)). cbn [app].
      rewrite (nth_middle pre (m ++ y :: post) x 0).
      rewrite (upd_app_at pre (length pre) y x (m ++ y :: post) eq_refl).
      replace (pre ++ y :: m ++ y :: post) with ((pre ++ y :: m) ++ y :: post)
        by (rewrite <- app_assoc; reflexivity).
      rewrite (upd_app_at (pre ++ y :: m) (length (pre ++ x :: m)) x y post)
        by (rewrite !length_app; reflexivity).
      replace ((pre ++ y :: m) ++ x :: post) with ((pre ++ [y]) ++ m ++ (x :: post))
        by (rewrite <- !app_assoc; reflexivity).
      replace (Z.of_nat (length pre) + 1) with (Z.of_nat (length (pre ++ [y])))
        by (rewrite length_app; cbn [length]; lia).
      replace (Z.of_nat (length pre + S (length m + 1)) - 1 - 1)
        with (Z.of_nat (length (pre ++ [y]) + length m) - 1)
        by (rewrite length_app; cbn [length]; lia).
      rewrite IH by lia.
      cbn [rev]. rewrite rev_app_distr. cbn [rev app].
      rewrite <- !app_assoc. reflexivity.
    + destruct mid as [|x [|y mid]]; try reflexivity.
      cbn [length] in Ge. lia.
Qed.

(** X3: the in-place loop of [ReverseTrits], swapping the two ends towards
    the middle, returns the slice in reverse order; reversing twice gives the
    slice back and the value read with the trit order swapped. *)
Theorem ReverseTrits_in_place_reverses (t : Trits) :
  ReverseTrits_in_place t = ReverseTrits t
  /\ ReverseTrits t = rev t
  /\ ReverseTrits_in_place (ReverseTrits_in_place t) = t
  /\ length (ReverseTrits_in_place t) = length t
  /\ (valid_trits t -> valid_trits (ReverseTrits_in_place t)).
Proof.
  assert (E : forall s, ReverseTrits_in_place s = rev s).
  { intros s. unfold ReverseTrits_in_place.
    pose proof (reverse_loop_spec (length s) s [] [] (le_n _)) as H.
    cbn [length app] in H. rewrite !app_nil_r in H. exact H. }
  split; [apply E|]. split; [reflexivity|].
  split; [rewrite !E; apply rev_involutive|].
  split; [rewrite E; apply length_rev|].
  intros V. rewrite E. apply Forall_rev. exact V.
Qed.

(** [PadTrits]; [size] is a Go [int]. *)
Definition PadTrits (trits : Trits) (size : Z) : Trits :=
  if Z.of_nat (length trits) >=? size then trits
  else
    map (fun i => if (i <? length trits)%nat then nth i trits 0 else 0)
        (seq 0 (Z.to_nat size)).

(** The bytes ['9'] that [Pad] writes from [len(trytes)] up to [size]. *)
Fixpoint nines (k : nat) : string :=
  match k with
  | O => EmptyString
  | S k' => String "9"%char (nines k')
  end.

(** [Pad] *)
Definition Pad (trytes : Trytes) (size : Z) : Trytes :=
  if Z.of_nat (String.length trytes) >=? size then trytes
  else (trytes ++ nines (Z.to_nat size - String.length trytes))%string.

Example Pad_test : Pad "A"%string 5 = "A9999"%string /\ PadTrits [1; 1] 5 = [1; 1; 0; 0; 0].
Proof. split; reflexivity. Qed.

Lemma pad_map_seq (t : Trits) : forall k off,
  map (fun i => if (i <? length t)%nat then nth i t 0 else 0) (seq off k)
  = firstn k (skipn off t) ++ repeat 0 (k - (length t - off)).
Proof.
  induction k as [|k IH]; intros off; [reflexivity|].
  cbn [seq map]. rewrite IH.
  destruct (Nat.ltb_spec off (length t)) as [Lt | Ge].
  - assert (S1 : skipn off t = nth off t 0 :: skipn (S off) t).
    { clear IH. revert off Lt. induction t as [|x t IHt]; intros off Lt; [simpl in Lt; lia|].
      destruct off as [|off]; [reflexivity|]. cbn [skipn nth]. apply IHt. simpl in Lt. lia. }
    rewrite S1. cbn [firstn app]. f_equal. f_equal. f_equal. lia.
  - rewrite !skipn_all2 by lia. rewrite !firstn_nil. cbn [app].
    replace (S k - (length t - off))%nat with (S (k - (length t - S off))) by lia.
    reflexivity.
Qed.

(** X4: [PadTrits] returns the slice itself when it is long enough, and
    otherwise the slice followed by zeros up to [size]; the trits stay valid
    and the integer they stand for is the same. *)
Theorem PadTrits_spec (t : Trits) (size : Z) :
  PadTrits t size = t ++ repeat 0 (Z.to_nat size - length t)
  /\ Z.of_nat (length (PadTrits t size)) = Z.max (Z.of_nat (length t)) size
  /\ trits_value (PadTrits t size) = trits_value t
  /\ TritsToInt (PadTrits t size) = TritsToInt t
  /\ (valid_trits t -> valid_trits (PadTrits t size)).
Proof.
  assert (E : PadTrits t size = t ++ repeat 0 (Z.to_nat size - length t)).
  { unfold PadTrits. destruct (Z.geb_spec (Z.of_nat (length t)) size) as [G | L].
    - replace (Z.to_nat size - length t)%nat with 0%nat by lia.
      cbn [repeat]. rewrite app_nil_r. reflexivity.
    - rewrite (pad_map_seq t (Z.to_nat size) 0).
      cbn [skipn]. rewrite firstn_all2 by lia. rewrite Nat.sub_0_r. reflexivity. }
  split; [exact E|]. rewrite E.
  assert (V : trits_value (t ++ repeat 0 (Z.to_nat size - length t)) = trits_value t).
  { rewrite trits_value_app, trits_value_repeat0. lia. }
  split; [rewrite length_app, repeat_length; lia|].
  split; [exact V|].
  split; [rewrite !TritsToInt_wrap, V; reflexivity|].
  intros Vt. apply Forall_app. split; [exact Vt | apply valid_trits_repeat0].
Qed.

Lemma string_length_app (a b : string) :
  String.length (a ++ b)%string = (String.length a + String.length b)%nat.
Proof. induction a as [|c a IH]; cbn [String.append String.length]; [reflexivity | lia]. Qed.

Lemma nines_spec k :
  String.length (nines k) = k /\ all_tryte_chars (nines k) = true
  /\ trytes_to_trits_loop (nines k) = Ok (repeat 0 (3 * k)).
Proof.
  induction k as [|k (IL & IC & IT)]; [repeat split|].
  cbn [nines String.length all_tryte_chars trytes_to_trits_loop].
  rewrite IL, IC, IT. split; [reflexivity|]. split; [reflexivity|].
  replace (3 * S k)%nat with (S (S (S (3 * k)))) by lia. reflexivity.
Qed.

Lemma all_tryte_chars_app (a b : string) :
  all_tryte_chars (a ++ b)%string = all_tryte_chars a && all_tryte_chars b.
Proof.
  induction a as [|c a IH]; [reflexivity|].
  cbn [String.append all_tryte_chars]. rewrite IH. apply andb_assoc.
Qed.

Lemma trytes_to_trits_loop_cons c rest :
  trytes_to_trits_loop (String c rest)
  = (row <- lut_at (Index TryteAlphabet c) ;;
     trits <- trytes_to_trits_loop rest ;;
     Ok (firstn 3 row ++ trits)).
Proof. reflexivity. Qed.

Lemma trytes_to_trits_loop_app (a b : string) tb :
  trytes_to_trits_loop b = Ok tb ->
  forall ta, trytes_to_trits_loop a = Ok ta ->
  trytes_to_trits_loop (a ++ b)%string = Ok (ta ++ tb).
Proof.
  intros Eb. induction a as [|c a IH]; intros ta Ea.
  - inversion Ea; subst. exact Eb.
  - change (String c a ++ b)%string with (String c (a ++ b)%string).
    rewrite trytes_to_trits_loop_cons in *.
    generalize dependent (lut_at (Index TryteAlphabet c)). intros r Ea.
    destruct r as [row| |]; cbn [bind] in *; try discriminate Ea.
    destruct (trytes_to_trits_loop a) as [ta'| |]; cbn [bind] in *; try discriminate Ea.
    inversion Ea; subst. rewrite (IH ta' eq_refl). cbn [bind].
    rewrite app_assoc. reflexivity.
Qed.

(** X5: padding commutes with the conversion to trits.  For valid trytes,
    [Pad] returns valid trytes of length [max(len, size)], and their trits
    are the trits of the original padded by [PadTrits] to three times the
    size: each ['9'] added is three zero trits. *)
Theorem Pad_then_TrytesToTrits (s : Trytes) (size : Z) :
  ValidTrytes s = Ok tt ->
  ValidTrytes (Pad s size) = Ok tt
  /\ Z.of_nat (String.length (Pad s size)) = Z.max (Z.of_nat (String.length s)) size
  /\ exists t, TrytesToTrits s = Ok t
       /\ TrytesToTrits (Pad s size) = Ok (PadTrits t (3 * size)).
Proof.
  intros Vs.
  assert (Cs : all_tryte_chars s = true /\ s <> EmptyString).
  { unfold ValidTrytes in Vs. destruct s as [|c s]; [discriminate Vs|].
    destruct (all_tryte_chars (String c s)); [split; [reflexivity | discriminate]|].
    discriminate Vs. }
  destruct Cs as [Cs Ns].
  destruct (trytes_to_trits_loop_spec s Cs) as (t & Et & Lt & Vt).
  destruct (nines_spec (Z.to_nat size - String.length s)) as (NL & NC & NT).
  assert (P : Pad s size = (s ++ nines (Z.to_nat size - String.length s))%string).
  { unfold Pad. destruct (Z.geb_spec (Z.of_nat (String.length s)) size) as [G | L];
      [|reflexivity].
    replace (Z.to_nat size - String.length s)%nat with 0%nat by lia.
    cbn [nines]. clear. induction s as [|c s IH]; [reflexivity|].
    cbn [String.append]. rewrite <- IH. reflexivity. }
  assert (Vp : ValidTrytes (Pad s size) = Ok tt).
  { rewrite P. unfold ValidTrytes.
    rewrite all_tryte_chars_app, Cs, NC.
    destruct s as [|c s]; [contradiction | reflexivity]. }
  split; [exact Vp|].
  split; [rewrite P, string_length_app, NL; lia|].
  exists t. split; [unfold TrytesToTrits; rewrite Vs; exact Et|].
  unfold TrytesToTrits. rewrite Vp. cbn [bind]. rewrite P.
  rewrite (trytes_to_trits_loop_app s _ _ NT t Et).
  destruct (PadTrits_spec t (3 * size)) as (-> & _).
  replace (Z.to_nat (3 * size) - length t)%nat
    with (3 * (Z.to_nat size - String.length s))%nat by lia.
  reflexivity.
Qed.

Lemma Pad_then_TrytesToTrits_witness :
  ValidTrytes (Pad "AB"%string 4) = Ok tt
  /\ Z.of_nat (String.length (Pad "AB"%string 4))
     = Z.max (Z.of_nat (String.length "AB"%string)) 4
  /\ exists t, TrytesToTrits "AB"%string = Ok t
       /\ TrytesToTrits (Pad "AB"%string 4) = Ok (PadTrits t (3 * 4)).
Proof.
  apply (Pad_then_TrytesToTrits "AB"%string 4). reflexivity.
Defined.

(** Every character of the class has three trits in the table, and the
    group of these three trits is written back as the same character. *)
Lemma tryte_char_back c :
  tryte_char c = true ->
  exists t0 t1 t2, lut_at (Index TryteAlphabet c) = Ok [t0; t1; t2]
    /\ valid_trits [t0; t1; t2]
    /\ alphabet_at (tryte_index t0 t1 t2) = Ok c.
Proof.
  destruct c as [b0 b1 b2 b3 b4 b5 b6 b7].
  destruct b0, b1, b2, b3, b4, b5, b6, b7; intros H;
    try (vm_compute in H; discriminate H);
    (do 3 eexists; split; [vm_compute; reflexivity
                          | split; [repeat constructor | vm_compute; reflexivity]]).
Qed.

Lemma trits_to_trytes_loop_cons t0 t1 t2 rest :
  trits_to_trytes_loop (t0 :: t1 :: t2 :: rest)
  = (ch <- alphabet_at (tryte_index t0 t1 t2) ;;
     o <- trits_to_trytes_loop rest ;;
     Ok (String ch o)).
Proof. reflexivity. Qed.

Lemma trytes_to_trits_loop_back s :
  all_tryte_chars s = true ->
  exists t, trytes_to_trits_loop s = Ok t
    /\ length t = (3 * String.length s)%nat /\ valid_trits t
    /\ trits_to_trytes_loop t = Ok s.
Proof.
  induction s as [|c s IH]; intros H.
  - exists []. repeat split. constructor.
  - cbn [all_tryte_chars] in H. apply andb_true_iff in H. destruct H as [Hc Hs].
    destruct (tryte_char_back c Hc) as (t0 & t1 & t2 & El & Vl & Ea).
    destruct (IH Hs) as (t & Et & Lt & Vt & Bt).
    exists (t0 :: t1 :: t2 :: t).
    rewrite trytes_to_trits_loop_cons, El. cbn [bind]. rewrite Et. cbn [bind firstn app].
    split; [reflexivity|].
    split; [cbn [length String.length]; lia|].
    split.
    + inversion Vl as [|? ? V0 Vl1]; subst. inversion Vl1 as [|? ? V1 Vl2]; subst.
      inversion Vl2 as [|? ? V2 _]; subst. repeat (constructor; [assumption|]). exact Vt.
    + rewrite trits_to_trytes_loop_cons, Ea. cbn [bind]. rewrite Bt. reflexivity.
Qed.

(** X6: [TrytesToTrits] never panics: it returns [ErrInvalidTrytes] when the
    string is empty or has a character outside [9A-Z], and otherwise three
    valid trits per character, which [TritsToTrytes] turns back into the same
    string. *)
Theorem TritsToTrytes_of_TrytesToTrits (s : Trytes) :
  (ValidTrytes s = Ok tt <-> s <> EmptyString /\ all_tryte_chars s = true)
  /\ (ValidTrytes s = Ok tt ->
      exists t, TrytesToTrits s = Ok t
        /\ length t = (3 * String.length s)%nat /\ valid_trits t
        /\ TritsToTrytes t = Ok s)
  /\ (ValidTrytes s <> Ok tt -> TrytesToTrits s = Err ErrInvalidTrytes)
  /\ TrytesToTrits s <> Panic.
Proof.
  assert (V : ValidTrytes s = Ok tt <-> s <> EmptyString /\ all_tryte_chars s = true).
  { unfold ValidTrytes. destruct s as [|c s].
    - split; [discriminate | intros [C _]; contradiction].
    - destruct (all_tryte_chars (String c s)).
      + split; [intros _; split; [discriminate | reflexivity] | reflexivity].
      + split; [discriminate | intros [_ C]; discriminate C]. }
  assert (Good : ValidTrytes s = Ok tt ->
      exists t, TrytesToTrits s = Ok t
        /\ length t = (3 * String.length s)%nat /\ valid_trits t
        /\ TritsToTrytes t = Ok s).
  { intros Vs. pose proof Vs as Vs'. apply V in Vs'. destruct Vs' as [Ns Cs].
    destruct (trytes_to_trits_loop_back s Cs) as (t & Et & Lt & Vt & Bt).
    exists t. split; [unfold TrytesToTrits; rewrite Vs; exact Et|].
    split; [exact Lt|]. split; [exact Vt|].
    unfold TritsToTrytes, CanTritsToTrytes. rewrite Lt.
    destruct s as [|c s]; [contradiction|].
    cbn [String.length].
    destruct (Nat.eqb_spec (3 * S (String.length s)) 0) as [C | _]; [lia|].
    rewrite Nat.mul_comm, Nat.Div0.mod_mul. exact Bt. }
  assert (Bad : ValidTrytes s <> Ok tt -> TrytesToTrits s = Err ErrInvalidTrytes).
  { intros Ns. unfold TrytesToTrits.
    assert (E : ValidTrytes s = Err ErrInvalidTrytes).
    { unfold ValidTrytes in *. destruct s as [|c s]; [reflexivity|].
      destruct (all_tryte_chars (String c s)); [contradiction | reflexivity]. }
    rewrite E. reflexivity. }
  split; [exact V|]. split; [exact Good|]. split; [exact Bad|].
  destruct (ValidTrytes s) as [[]| |] eqn:E.
  - destruct (Good eq_refl) as (t & Et & _). rewrite Et. discriminate.
  - rewrite Bad by discriminate. discriminate.
  - rewrite Bad by discriminate. discriminate.
Qed.

Lemma log3_lower fuel : forall x, 1 <= x -> 0 <= log3 fuel x /\ 3 ^ log3 fuel x <= x.
Proof.
  induction fuel as [|f IH]; intros x Hx; cbn [log3].
  - change (3 ^ 0) with 1. lia.
  - destruct (Z.ltb_spec x 3) as [L | L].
    + change (3 ^ 0) with 1. lia.
    + destruct (IH (x / 3)) as [P Q].
      { apply Z.div_le_lower_bound; lia. }
      split; [lia|].
      rewrite Z.pow_add_r by lia. change (3 ^ 1) with 3.
      pose proof (Z.mul_div_le x 3 ltac:(lia)). lia.
Qed.

(** *** More on the addition *)

Lemma sum_comm a b : sum a b = sum b a.
Proof. unfold sum. rewrite (Z.add_comm a b). reflexivity. Qed.

Lemma cons_comm a b : cons a b = cons b a.
Proof.
  unfold cons. destruct (Z.eqb_spec a b) as [-> | Ne].
  - rewrite Z.eqb_refl. reflexivity.
  - destruct (Z.eqb_spec b a) as [C | _]; [congruence | reflexivity].
Qed.

Lemma fullAdd_comm a b c : fullAdd a b c = fullAdd b a c.
Proof. unfold fullAdd. rewrite (sum_comm a b), (cons_comm a b). reflexivity. Qed.

Lemma add_trits_loop_comm n : forall i a b c,
  add_trits_loop n i a b c = add_trits_loop n i b a c.
Proof.
  induction n as [|n IH]; intros i a b c; [reflexivity|].
  cbn [add_trits_loop]. rewrite fullAdd_comm, IH. reflexivity.
Qed.

(** X8: [AddTrits] is commutative on all slices, and on slices of trits it
    is the addition modulo [3^n], [n] the longer length: the sum of the two
    values is the value of the result plus [3^n] times a carry in {-1, 0, 1}
    that is dropped; an empty operand leaves the other one unchanged. *)
Theorem AddTrits_algebra (a b : Trits) :
  AddTrits a b = AddTrits b a
  /\ (valid_trits a -> valid_trits b -> a <> [] \/ b <> [] ->
      exists carry, ValidTrit carry = true
        /\ trits_value (AddTrits a b)
           + 3 ^ Z.of_nat (Nat.max (length a) (length b)) * carry
           = trits_value a + trits_value b)
  /\ (valid_trits a -> a <> [] -> AddTrits a [] = a).
Proof.
  split; [|split].
  - unfold AddTrits. rewrite (Nat.max_comm (length b) (length a)).
    destruct (Nat.max (length a) (length b) =? 0)%nat; [reflexivity|].
    apply add_trits_loop_comm.
  - intros Va Vb NE. unfold AddTrits.
    destruct (Nat.eqb_spec (Nat.max (length a) (length b)) 0) as [Z | NZ].
    + destruct a, b; simpl in Z; try lia. destruct NE as [C | C]; contradiction.
    + destruct (add_trits_loop_value (Nat.max (length a) (length b)) 0 a b 0 Va Vb eq_refl)
        as (cout & Hc & Ev); try lia.
      exists cout. split; [exact Hc|]. cbn [skipn] in Ev. lia.
  - intros Va NE. unfold AddTrits. cbn [length]. rewrite Nat.max_0_r.
    destruct (Nat.eqb_spec (length a) 0) as [Z | _].
    + destruct a; [contradiction | discriminate Z].
    + assert (G : forall n i, (i + n = length a)%nat ->
                    add_trits_loop n i a [] 0 = skipn i a).
      { induction n as [|n IH]; intros i Hi.
        - rewrite skipn_all2 by lia. reflexivity.
        - cbn [add_trits_loop]. rewrite !operand_read.
          replace (nth i (@nil Z) 0) with 0 by (destruct i; reflexivity).
          assert (Vi : ValidTrit (nth i a 0) = true) by (apply nth_valid; exact Va).
          assert (F : fullAdd (nth i a 0) 0 0 = (nth i a 0, 0)).
          { trit_cases Vi; rewrite Vi; reflexivity. }
          rewrite F. cbn [fst snd]. rewrite IH by lia.
          clear - Hi. revert i Hi. induction a as [|x a IHa]; intros i Hi; [simpl in Hi; lia|].
          destruct i as [|i]; [reflexivity|]. cbn [nth skipn]. apply IHa. simpl in Hi. lia. }
      apply (G (length a) 0%nat). lia.
Qed.

(** [MustTritsToTrytes] and [MustTrytesToTrits]: the error becomes a panic. *)
Definition MustTritsToTrytes (trits : Trits) : result Trytes :=
  match TritsToTrytes trits with
  | Ok trytes => Ok trytes
  | _ => Panic
  end.

Definition MustTrytesToTrits (trytes : Trytes) : result Trits :=
  match TrytesToTrits trytes with
  | Ok trits => Ok trits
  | _ => Panic
  end.

(** *** The hash codec, from the bytes *)

(** Every integer below [3^n / 2] in absolute value has [n] balanced
    digits. *)
Lemma balanced_digits n : forall x,
  2 * Z.abs x < 3 ^ Z.of_nat n ->
  exists ts, length ts = n /\ valid_trits ts /\ trits_value ts = x.
Proof.
  induction n as [|n IH]; intros x B.
  - exists []. change (3 ^ Z.of_nat 0) with 1 in B.
    split; [reflexivity|]. split; [constructor|]. cbn [trits_value]. lia.
  - rewrite pow3_succ in B. destruct (pow3_odd n) as (m & Em).
    set (r := (x + 1) mod 3 - 1).
    pose proof (Z.mod_pos_bound (x + 1) 3 ltac:(lia)) as Hr.
    pose proof (Z.div_mod (x + 1) 3 ltac:(lia)) as Hd.
    set (q := (x + 1) / 3) in *.
    assert (Ex : x = r + 3 * q) by (subst r; lia).
    destruct (IH q ltac:(lia)) as (ts & L & V & Val).
    exists (r :: ts). split; [cbn [length]; congruence|]. split.
    + constructor; [apply ValidTrit_cases; subst r; lia | exact V].
    + cbn [trits_value]. rewrite Val. lia.
Qed.

(** X13: the codec the other way round.  48 bytes that are the 384-bit
    two's complement of an integer [x] with [2|x| < 3^242] convert to 243
    valid trits, the balanced digits of [x] followed by a 0, and
    [TritsToBytes] writes these trits as the same 48 bytes. *)
Theorem TritsToBytes_of_BytesToTrits (bs : list Z) (x : Z) :
  length bs = HashBytesSize -> Forall is_byte bs ->
  2 * Z.abs x < 3 ^ 242 -> bytes_value bs = x mod 2 ^ 384 ->
  exists t, BytesToTrits bs = Ok t
    /\ length t = HashTrinarySize /\ valid_trits t
    /\ nth (HashTrinarySize - 1) t 1 = 0 /\ trits_value t = x
    /\ TritsToBytes t = Ok bs.
Proof.
  intros L B Bx Val.
  destruct (balanced_digits 242 x Bx) as (ts & Lts & Vts & Vx).
  destruct (bytes_of_limbs_of_bytes IntLength (rev bs)) as (Eb & Ob & Lb).
  { rewrite length_rev. exact L. }
  { apply Forall_rev. exact B. }
  set (base := limbs_of_bytes (rev bs)) in *.
  assert (Rb : Reverse (bytes_of_limbs base) = bs).
  { unfold Reverse. rewrite Eb. apply rev_involutive. }
  assert (Vb : limbs_value base = trits_value ts mod 2 ^ 384).
  { rewrite <- (Reverse_bytes_value base Ob), Rb, Vx. exact Val. }
  pose proof (BytesToTrits_of_limbs base ts Ob Lb Vts Lts Vb) as Dec.
  rewrite Rb in Dec.
  assert (Vt : valid_trits (ts ++ [0])).
  { apply Forall_app. split; [exact Vts | repeat constructor]. }
  assert (Lt : length (ts ++ [0]) = HashTrinarySize).
  { rewrite length_app, Lts. reflexivity. }
  exists (ts ++ [0]). split; [exact Dec|]. split; [exact Lt|]. split; [exact Vt|].
  split; [|split].
  - change (HashTrinarySize - 1)%nat with 242%nat. rewrite <- Lts. apply nth_middle.
  - rewrite trits_value_app. cbn [trits_value]. lia.
  - destruct (TritsToBytes_limbs (ts ++ [0]) Vt Lt) as (base' & Enc & Ob' & Lb' & Vb').
    change (HashTrinarySize - 1)%nat with 242%nat in Vb'.
    rewrite <- Lts, firstn_app, Nat.sub_diag, firstn_all in Vb'.
    cbn [firstn] in Vb'. rewrite app_nil_r in Vb'.
    rewrite (limbs_value_inj base' base Ob' Ob ltac:(congruence) ltac:(congruence)) in Enc.
    rewrite Rb in Enc. exact Enc.
Qed.

(** The integer the 48 bytes of the test vector stand for: the value of the
    first 242 trits of the test hash, a negative number. *)
Definition test_value : Z :=
  Eval vm_compute in
    match TrytesToTrits test_hash with
    | Ok t => trits_value (firstn 242 t)
    | _ => 0
    end.

Lemma TritsToBytes_of_BytesToTrits_witness :
  exists t, BytesToTrits test_bytes = Ok t
    /\ length t = HashTrinarySize /\ valid_trits t
    /\ nth (HashTrinarySize - 1) t 1 = 0 /\ trits_value t = test_value
    /\ TritsToBytes t = Ok test_bytes.
Proof.
  apply (TritsToBytes_of_BytesToTrits test_bytes test_value).
  - reflexivity.
  - assert (F : forallb (fun b => (0 <=? b) && (b <? 256)) test_bytes = true)
      by (vm_compute; reflexivity).
    apply Forall_forall. intros b Hb. rewrite forallb_forall in F.
    specialize (F b Hb). unfold is_byte. lia.
  - vm_compute. reflexivity.
  - vm_compute. reflexivity.
Defined.

Example test_value_is_negative : test_value < 0 /\ nth 0 test_bytes 0 = 200.
Proof. split; vm_compute; reflexivity. Qed.

(** X14: [TritsToBytes] refuses every slice that is not 243 trits long, and
    on 243 valid trits it never reads the last one: two hashes have the same
    bytes exactly when their first 242 trits are the same. *)
Theorem TritsToBytes_reads_242_trits (t u : Trits) :
  (length t <> HashTrinarySize -> TritsToBytes t = Err ErrInvalidTritsLength)
  /\ (valid_trits t -> valid_trits u ->
      length t = HashTrinarySize -> length u = HashTrinarySize ->
      (TritsToBytes t = TritsToBytes u <-> firstn 242 t = firstn 242 u)).
Proof.
  split.
  - intros N. unfold TritsToBytes, CanBeHash.
    destruct (Nat.eqb_spec (length t) HashTrinarySize) as [E | _]; [contradiction|].
    reflexivity.
  - intros Vt Vu Lt Lu. split.
    + intros E.
      destruct (TritsToBytes_limbs t Vt Lt) as (bt & Et & Ot & Lbt & Vbt).
      destruct (TritsToBytes_limbs u Vu Lu) as (bu & Eu & Ou & Lbu & Vbu).
      change (HashTrinarySize - 1)%nat with 242%nat in *.
      assert (L242 : forall s : Trits, length s = HashTrinarySize ->
                length (firstn 242 s) = 242%nat).
      { intros s Ls. rewrite length_firstn, Ls. reflexivity. }
      pose proof (BytesToTrits_of_limbs bt (firstn 242 t) Ot Lbt
                    (Forall_firstn 242 Vt) (L242 t Lt) Vbt) as Dt.
      pose proof (BytesToTrits_of_limbs bu (firstn 242 u) Ou Lbu
                    (Forall_firstn 242 Vu) (L242 u Lu) Vbu) as Du.
      rewrite Et, Eu in E. injection E as E. rewrite E in Dt. rewrite Dt in Du.
      injection Du as Du. apply app_inv_tail in Du. exact Du.
    + intros E. unfold TritsToBytes, CanBeHash. rewrite Lt, Lu.
      change (HashTrinarySize - 1)%nat with 242%nat. rewrite E. reflexivity.
Qed.

Lemma extract_trits_valid n : forall base,
  limbs_ok base ->
  valid_trits (extract_trits n base) /\ length (extract_trits n base) = n.
Proof.
  induction n as [|n IH]; intros base O; cbn [extract_trits].
  - split; [constructor | reflexivity].
  - destruct (div_radix_spec base O) as (Oq & Lq & Vq & Er).
    destruct (div_radix base) as [base' rem]. cbn [fst snd] in *.
    destruct (IH base' Oq) as [V L]. split; [|cbn [length]; congruence].
    constructor; [|exact V].
    pose proof (Z.mod_pos_bound (limbs_value base) 3 ltac:(lia)) as Hm.
    rewrite Er, (int8_small (limbs_value base mod 3)) by (unfold in_int8; lia).
    rewrite int8_small by (unfold in_int8; lia).
    apply ValidTrit_cases. lia.
Qed.

Lemma last_of_243 (e : Trits) z : length e = 242%nat -> nth (HashTrinarySize - 1) (e ++ [z]) 1 = z.
Proof. intros L. change (HashTrinarySize - 1)%nat with 242%nat. rewrite <- L. apply nth_middle. Qed.

(** [BytesToTrits] on the bytes of twelve limbs: one value makes the last
    subtraction underflow, every other one gives 243 trits. *)
Lemma BytesToTrits_limbs_cases base :
  limbs_ok base -> length base = IntLength ->
  (limbs_value base = 2 ^ 384 - 1 - HALF_THREE
   /\ BytesToTrits (Reverse (bytes_of_limbs base)) = Panic)
  \/ (limbs_value base <> 2 ^ 384 - 1 - HALF_THREE
      /\ exists t, BytesToTrits (Reverse (bytes_of_limbs base)) = Ok t
           /\ length t = HashTrinarySize /\ valid_trits t
           /\ nth (HashTrinarySize - 1) t 1 = 0).
Proof.
  intros O Lb. rewrite <- halfThree_is_HALF_THREE.
  pose proof halfThree_value as HV. pose proof pow3_242_small as PS.
  destruct halfThree_ok as [HO HL].
  assert (P : 2 ^ 384 = 2 * 2 ^ 383) by reflexivity.
  assert (P' : 0 < 2 ^ 383) by reflexivity.
  pose proof (limbs_value_bound base O) as Bv. rewrite Lb, weight_IntLength in Bv.
  pose proof (limbs_value_bound halfThree HO) as Bh.
  assert (Shape : forall r : list Z, limbs_ok r ->
            length (extract_trits 242 r ++ [0]) = HashTrinarySize
            /\ valid_trits (extract_trits 242 r ++ [0])
            /\ nth (HashTrinarySize - 1) (extract_trits 242 r ++ [0]) 1 = 0).
  { intros r Or. destruct (extract_trits_valid 242 r Or) as [V L].
    split; [rewrite length_app, L; reflexivity|]. split.
    - apply Forall_app. split; [exact V | repeat constructor].
    - apply last_of_243, L. }
  unfold BytesToTrits, Reverse.
  rewrite length_rev, bytes_of_limbs_length, Lb.
  change (4 * IntLength =? HashBytesSize)%nat with true.
  cbn [negb]. rewrite rev_involutive, limbs_of_bytes_of_limbs by exact O.
  rewrite firstn_all2 by lia.
  change (HashTrinarySize - 1)%nat with 242%nat.
  destruct (IsNull base) eqn:N.
  - apply (IsNull_spec base O) in N. right. split; [lia|].
    exists (repeat 0 HashTrinarySize). split; [reflexivity|].
    split; [apply repeat_length|]. split; [apply valid_trits_repeat0 | reflexivity].
  - rewrite (top_limb_sign base O Lb).
    destruct (Z.ltb_spec (limbs_value base) (2 ^ 383)) as [Lo | Hi].
    + (* the sign bit is clear *)
      destruct (MustAdd_spec base halfThree O HO ltac:(lia)) as (r & Er & Or & Lr & Vr).
      { rewrite Lb, weight_IntLength. lia. }
      rewrite Er. cbn [bind]. right. split; [lia|].
      exists (extract_trits 242 r ++ [0]). split; [reflexivity | apply Shape, Or].
    + (* the sign bit is set *)
      destruct (Not_spec base O) as (NO & NL & NV).
      rewrite Lb, weight_IntLength in NV.
      unfold MustCmp. rewrite NL, Lb, HL, Nat.eqb_refl. cbn [negb bind].
      destruct (cmp_limbs_spec (Not base) halfThree NO HO ltac:(lia))
        as [[C Cv] | [[C Cv] | [C Cv]]]; rewrite C.
      * (* below halfThree *)
        change (-1 =? 1) with false. cbv iota.
        destruct (AddSmall_spec (Not base) 1 NO) as (b1 & ns & Ea & O1 & L1 & V1 & _ & _).
        { intros E. rewrite E in NL. rewrite Lb in NL. discriminate NL. }
        { unfold in_uint32. change (2 ^ 32) with 4294967296. lia. }
        { rewrite NL, Lb, weight_IntLength. lia. }
        rewrite Ea. cbn [bind].
        destruct (MustSub_spec halfThree b1 HO O1 ltac:(lia) ltac:(lia))
          as (r & Er & Or & Lr & Vr).
        rewrite Er. cbn [bind]. right. split; [lia|].
        exists (extract_trits 242 r ++ [0]). split; [reflexivity | apply Shape, Or].
      * (* equal to halfThree: the subtraction underflows *)
        change (0 =? 1) with false. cbv iota.
        destruct (AddSmall_spec (Not base) 1 NO) as (b1 & ns & Ea & O1 & L1 & V1 & _ & _).
        { intros E. rewrite E in NL. rewrite Lb in NL. discriminate NL. }
        { unfold in_uint32. change (2 ^ 32) with 4294967296. lia. }
        { rewrite NL, Lb, weight_IntLength. lia. }
        rewrite Ea. cbn [bind].
        rewrite (MustSub_underflow halfThree b1 HO O1 ltac:(lia) ltac:(lia)).
        left. split; [lia | reflexivity].
      * (* above halfThree: the trits are flipped *)
        change (1 =? 1) with true. cbv iota.
        destruct (MustSub_spec (Not base) halfThree NO HO ltac:(lia) ltac:(lia))
          as (r & Er & Or & Lr & Vr).
        rewrite Er. cbn [bind]. right. split; [lia|].
        destruct (Shape r Or) as (L & V & Z0).
        exists (map (fun x => int8 (- x)) (extract_trits 242 r ++ [0])).
        split; [reflexivity|]. split; [rewrite length_map; exact L|].
        split; [apply trits_value_neg, V|].
        destruct (extract_trits_valid 242 r Or) as [_ Le].
        rewrite map_app. cbn [map]. apply last_of_243.
        rewrite length_map. exact Le.
Qed.

(** X15: [BytesToTrits] returns [ErrInvalidBytesLength] for every slice
    that is not 48 bytes long and no error otherwise.  On 48 bytes it returns
    243 valid trits whose last one is 0, whatever integer the bytes stand
    for, with one exception: at the bytes of [2^384 - 1 - HALF_THREE], the
    two's complement of [-(HALF_THREE + 1)], the subtraction from [halfThree]
    underflows and the call panics. *)
Theorem BytesToTrits_total_but_one (bs : list Z) :
  (length bs <> HashBytesSize -> BytesToTrits bs = Err ErrInvalidBytesLength)
  /\ (length bs = HashBytesSize -> Forall is_byte bs ->
      (bytes_value bs = 2 ^ 384 - 1 - HALF_THREE -> BytesToTrits bs = Panic)
      /\ (bytes_value bs <> 2 ^ 384 - 1 - HALF_THREE ->
          exists t, BytesToTrits bs = Ok t
            /\ length t = HashTrinarySize /\ valid_trits t
            /\ nth (HashTrinarySize - 1) t 1 = 0)).
Proof.
  split.
  - intros N. unfold BytesToTrits.
    destruct (Nat.eqb_spec (length bs) HashBytesSize) as [E | _]; [contradiction|].
    reflexivity.
  - intros L B.
    destruct (bytes_of_limbs_of_bytes IntLength (rev bs)) as (Eb & Ob & Lb).
    { rewrite length_rev. exact L. }
    { apply Forall_rev. exact B. }
    set (base := limbs_of_bytes (rev bs)) in *.
    assert (Rb : Reverse (bytes_of_limbs base) = bs).
    { unfold Reverse. rewrite Eb. apply rev_involutive. }
    assert (Vb : limbs_value base = bytes_value bs).
    { rewrite <- (Reverse_bytes_value base Ob), Rb. reflexivity. }
    destruct (BytesToTrits_limbs_cases base Ob Lb) as [[E Pn] | [Ne Dec]];
      rewrite Rb in *; rewrite Vb in *.
    + split; [intros _; exact Pn | intros C; contradiction].
    + split; [intros C; contradiction | intros _; exact Dec].
Qed.

Definition panic_bytes : list Z :=
  [161; 150; 20; 16; 87; 128; 84; 32; 85; 249; 87; 250; 86; 9; 127; 116;
   183; 68; 81; 201; 134; 91; 56; 253; 175; 104; 98; 168; 243; 219; 183; 145;
   197; 33; 255; 38; 235; 123; 175; 176; 96; 255; 137; 150; 90; 49; 118; 155].

Example BytesToTrits_panics :
  length panic_bytes = HashBytesSize /\ forallb (fun b => (0 <=? b) && (b <? 256)) panic_bytes = true
  /\ BytesToTrits panic_bytes = Panic.
Proof. repeat split; vm_compute; reflexivity. Qed.

Lemma TrailingZeros_ge (t : Trits) (m : nat) :
  Z.of_nat (length t) <= MaxInt64 -> (m <= length t)%nat ->
  (forall i, (length t - m <= i < length t)%nat -> nth i t 0 = 0) ->
  Z.of_nat m <= TrailingZeros t.
Proof.
  intros B Lm H. unfold TrailingZeros.
  destruct (trailing_zeros_loop_spec (length t) t 0 ltac:(lia) ltac:(lia))
    as (k & Lk & Ek & Zs & Nz).
  rewrite Ek. destruct (Nat.le_gt_cases m k) as [L | G]; [lia|].
  exfalso. apply Nz; [lia|]. apply H. lia.
Qed.

(** *** [TritsToInt] and [IntToTrits] *)

(** Balanced digits are unique: slices of trits of one length with the same
    value are the same. *)
Lemma trits_value_inj (t : Trits) : forall u,
  valid_trits t -> valid_trits u -> length t = length u ->
  trits_value t = trits_value u -> t = u.
Proof.
  induction t as [|x t IH]; intros [|y u] Vt Vu L E; try discriminate L; [reflexivity|].
  inversion Vt as [|? ? Hx Vt']; subst. inversion Vu as [|? ? Hy Vu']; subst.
  cbn [trits_value] in E. apply ValidTrit_cases in Hx, Hy.
  assert (x = y) by lia. subst y. f_equal.
  apply IH; [assumption | assumption | simpl in L; lia | lia].
Qed.

(** X20: [TritsToInt] is the value of the trits reduced to [int64].  Up to
    40 trits it is the value itself, and different slices of trits of one
    length give different integers; 41 trits can overflow, the 41 trits +1
    are read as a negative number. *)
Theorem TritsToInt_exact_up_to_40 (t u : Trits) :
  TritsToInt t = int64 (trits_value t)
  /\ (valid_trits t -> (length t <= 40)%nat ->
      TritsToInt t = trits_value t
      /\ (valid_trits u -> length u = length t -> TritsToInt u = TritsToInt t -> u = t))
  /\ (valid_trits (repeat 1 41) /\ 0 < trits_value (repeat 1 41)
      /\ TritsToInt (repeat 1 41) < 0).
Proof.
  split; [apply TritsToInt_wrap|]. split.
  - intros V L.
    assert (Small : forall s : Trits, valid_trits s -> (length s <= 40)%nat ->
              TritsToInt s = trits_value s).
    { intros s Vs Ls. apply TritsToInt_value.
      pose proof (trits_value_bound s Vs) as B.
      assert (P : 3 ^ Z.of_nat (length s) <= 3 ^ 40) by (apply Z.pow_le_mono_r; lia).
      assert (Q : 3 ^ 40 < 2 ^ 64) by reflexivity.
      unfold in_int64, MinInt64, MaxInt64.
      change (2 ^ 64) with 18446744073709551616 in Q. lia. }
    split; [apply Small; assumption|].
    intros Vu Lu E. rewrite (Small t V L), (Small u Vu ltac:(lia)) in E.
    apply trits_value_inj; assumption.
  - split; [apply Forall_forall; intros x Hx; apply repeat_spec in Hx; subst x; reflexivity|].
    split; vm_compute; reflexivity.
Qed.

Lemma top_trit_bound (t : Trits) :
  valid_trits t -> t <> [] -> last t 0 <> 0 ->
  3 ^ Z.of_nat (length t - 1) < 2 * Z.abs (trits_value t).
Proof.
  induction 1 as [|x t Hx Ht IH]; intros NE La; [contradiction|].
  apply ValidTrit_cases in Hx.
  destruct t as [|y r].
  - cbn [last] in La. cbn [trits_value length]. change (3 ^ Z.of_nat (1 - 1)) with 1. lia.
  - assert (La' : last (y :: r) 0 <> 0) by exact La.
    specialize (IH ltac:(discriminate) La').
    cbn [length] in *. replace (S (S (length r)) - 1)%nat with (S (length r)) by lia.
    replace (S (length r) - 1)%nat with (length r) in IH by lia.
    rewrite pow3_succ. destruct (pow3_odd (length r)) as (k & Ek).
    cbn [trits_value] in *. lia.
Qed.

(** [IntToTrits] from the balanced digits [dg] of a value: with fewer trits
    allocated than there are digits it panics, index out of range, and
    otherwise it returns the digits followed by zeros up to the allocated
    length. *)
Lemma IntToTrits_of_digits (dg : Trits) :
  valid_trits dg -> last dg 0 <> 0 -> Z.abs (trits_value dg) <= 2 ^ 53 ->
  (alloc_len (trits_value dg) < Z.of_nat (length dg) ->
   IntToTrits (trits_value dg) = Panic)
  /\ (Z.of_nat (length dg) <= alloc_len (trits_value dg) ->
      IntToTrits (trits_value dg)
      = Ok (dg ++ repeat 0 (Z.to_nat (alloc_len (trits_value dg)) - length dg))).
Proof.
  intros V La B.
  assert (NE : dg <> []) by (intros ->; apply La; reflexivity).
  pose proof (top_trit_bound dg V NE La) as Lo.
  pose proof (trits_value_bound dg V) as Up.
  pose proof (pow3_pos (length dg - 1)) as Pp.
  set (v := trits_value dg) in *.
  assert (NZ : v <> 0) by lia.
  unfold IntToTrits. destruct (Z.eqb_spec v 0) as [C | _]; [contradiction|].
  split.
  - intros Short. destruct (Z.ltb_spec (alloc_len v) 0) as [_ | Pos]; [reflexivity|].
    apply IntToTrits_alloc_short; [exact B | exact NZ |]. unfold representable.
    assert (3 ^ Z.of_nat (Z.to_nat (alloc_len v)) <= 3 ^ Z.of_nat (length dg - 1))
      by (apply Z.pow_le_mono_r; lia).
    lia.
  - intros Long. destruct (Z.ltb_spec (alloc_len v) 0) as [C | Pos]; [lia|].
    set (n := Z.to_nat (alloc_len v)).
    assert (R : representable n v).
    { unfold representable.
      assert (3 ^ Z.of_nat (length dg) <= 3 ^ Z.of_nat n)
        by (apply Z.pow_le_mono_r; lia).
      lia. }
    destruct (IntToTrits_alloc_spec n v B NZ R) as (t & E & L & Vt & Val).
    rewrite E. f_equal. apply trits_value_inj.
    + exact Vt.
    + apply Forall_app. split; [exact V | apply valid_trits_repeat0].
    + rewrite length_app, repeat_length. lia.
    + rewrite trits_value_app, trits_value_repeat0. fold v. lia.
Qed.

(** X7: for [0 < |v| <= 2^53], where no quotient is rounded by [float64],
    [IntToTrits] returns the balanced-ternary digits of [v], which are
    [1 + floor(log3(2|v|))] valid trits with a non-zero last one, followed by
    zeros up to the length the [float64] expression allocates, and
    [TritsToInt] reads them back as [v]; were that length smaller than the
    number of digits, the call would panic. *)
Theorem IntToTrits_exact_range (v : Z) :
  Z.abs v <= 2 ^ 53 -> v <> 0 ->
  exists digits,
    Z.of_nat (length digits) = 1 + log3 64 (2 * Z.abs v)
    /\ valid_trits digits /\ trits_value digits = v /\ last digits 0 <> 0
    /\ (alloc_len v < Z.of_nat (length digits) -> IntToTrits v = Panic)
    /\ (Z.of_nat (length digits) <= alloc_len v ->
        IntToTrits v = Ok (digits ++ repeat 0 (Z.to_nat (alloc_len v) - length digits))
        /\ TritsToInt (digits ++ repeat 0 (Z.to_nat (alloc_len v) - length digits)) = v).
Proof.
  intros B NZ.
  assert (P : 2 * 2 ^ 53 < 3 ^ Z.of_nat 64) by reflexivity.
  assert (P53 : 2 ^ 53 < 2 ^ 63) by reflexivity.
  destruct (log3_spec 64 (2 * Z.abs v) ltac:(lia)) as [G0 Up].
  destruct (log3_lower 64 (2 * Z.abs v) ltac:(lia)) as [_ Dn].
  set (g := log3 64 (2 * Z.abs v)) in *.
  destruct (balanced_digits (Z.to_nat (1 + g)) v) as (dg & L & V & Val).
  { rewrite Z2Nat.id by lia. exact Up. }
  assert (La : last dg 0 <> 0).
  { intros C.
    assert (Nt : dg <> []) by (intros ->; cbn [length] in L; lia).
    pose proof (app_removelast_last 0 Nt) as Sp. rewrite C in Sp.
    assert (Vr : valid_trits (removelast dg)).
    { rewrite Sp in V. apply Forall_app in V. apply V. }
    pose proof (trits_value_bound _ Vr) as Br.
    assert (Lr : length dg = S (length (removelast dg))).
    { rewrite Sp at 1. rewrite length_app. cbn [length]. lia. }
    assert (Ev : trits_value (removelast dg) = v).
    { rewrite <- Val. rewrite Sp at 2. rewrite trits_value_app. cbn [trits_value]. lia. }
    rewrite Ev in Br.
    replace (Z.of_nat (length (removelast dg))) with g in Br by lia.
    lia. }
  exists dg. split; [lia|]. split; [exact V|]. split; [exact Val|]. split; [exact La|].
  destruct (IntToTrits_of_digits dg V La ltac:(rewrite Val; exact B)) as [Short Long].
  rewrite Val in Short, Long. split; [exact Short|].
  intros H. split; [apply Long, H|].
  assert (Ev : trits_value (dg ++ repeat 0 (Z.to_nat (alloc_len v) - length dg)) = v).
  { rewrite trits_value_app, trits_value_repeat0, Val. lia. }
  rewrite TritsToInt_value; [exact Ev|].
  rewrite Ev. unfold in_int64, MinInt64, MaxInt64. lia.
Qed.

Lemma IntToTrits_exact_range_witness :
  exists digits,
    length digits = 34%nat /\ valid_trits digits /\ last digits 0 <> 0
    /\ trits_value digits = 8338590849833284
    /\ IntToTrits 8338590849833284 = Ok (digits ++ [0])
    /\ TritsToInt (digits ++ [0]) = 8338590849833284.
Proof.
  destruct (IntToTrits_exact_range 8338590849833284) as (dg & L & V & Val & La & _ & Long).
  - vm_compute. discriminate.
  - discriminate.
  - assert (A : alloc_len 8338590849833284 = 35) by (vm_compute; reflexivity).
    assert (G : 1 + log3 64 (2 * Z.abs 8338590849833284) = 34) by (vm_compute; reflexivity).
    rewrite A in Long. rewrite G in L.
    assert (Ln : length dg = 34%nat) by lia.
    rewrite Ln in Long. change (Z.to_nat 35 - 34)%nat with 1%nat in Long.
    exists dg. split; [exact Ln|]. split; [exact V|]. split; [exact La|].
    split; [exact Val|]. apply Long. lia.
Defined.

(** X21: [IntToTrits] undoes [TritsToInt] up to zeros at the most
    significant end.  For up to 34 valid trits whose last trit is not 0,
    [IntToTrits] of the integer they are read as gives the same trits back,
    followed by zeros when the [float64] expression allocates more trits
    than the slice has (the 31 trits +1 come back with a 32nd trit 0), and
    it would panic were fewer allocated; a slice of value 0 comes back as the
    single trit 0. *)
Theorem IntToTrits_of_TritsToInt (t : Trits) :
  valid_trits t -> (length t <= 34)%nat ->
  (last t 0 <> 0 ->
   (alloc_len (TritsToInt t) < Z.of_nat (length t) -> IntToTrits (TritsToInt t) = Panic)
   /\ (Z.of_nat (length t) <= alloc_len (TritsToInt t) ->
       IntToTrits (TritsToInt t)
       = Ok (t ++ repeat 0 (Z.to_nat (alloc_len (TritsToInt t)) - length t))))
  /\ (trits_value t = 0 -> IntToTrits (TritsToInt t) = Ok [0]).
Proof.
  intros V L.
  pose proof (trits_value_bound t V) as B.
  assert (P : 3 ^ Z.of_nat (length t) <= 3 ^ 34) by (apply Z.pow_le_mono_r; lia).
  assert (Q : 3 ^ 34 < 2 * 2 ^ 53) by reflexivity.
  assert (Q' : 2 ^ 53 < 2 ^ 63) by reflexivity.
  assert (Ev : TritsToInt t = trits_value t).
  { apply TritsToInt_value. unfold in_int64, MinInt64, MaxInt64.
    change (2 ^ 63) with 9223372036854775808 in Q'. lia. }
  rewrite Ev. split.
  - intros La. apply IntToTrits_of_digits; [exact V | exact La | lia].
  - intros Z0. rewrite Z0. reflexivity.
Qed.

(** The 31 trits +1, of value [(3^31 - 1) / 2]. *)
Definition ones_31 : Trits := repeat 1 31.

Lemma IntToTrits_of_TritsToInt_witness :
  IntToTrits (TritsToInt ones_31)
  = Ok (ones_31 ++ repeat 0 (Z.to_nat (alloc_len (TritsToInt ones_31)) - length ones_31))
  /\ (Z.to_nat (alloc_len (TritsToInt ones_31)) - length ones_31 = 1)%nat.
Proof.
  destruct (IntToTrits_of_TritsToInt ones_31) as [A _].
  - apply Forall_forall. intros x Hx. apply repeat_spec in Hx. subst x. reflexivity.
  - vm_compute. repeat constructor.
  - destruct A as [_ Long]; [vm_compute; discriminate|].
    split; [apply Long; vm_compute; discriminate | vm_compute; reflexivity].
Defined.

End Trinary.

(** ** Package [pow]: the bit-sliced nonce search *)

Module Pow.
Import Trinary.

(** Modelled from the spec: package [curl] is imported by the code but is not
    among the sources; the specification gives [StateSize = 729] and
    [NumberOfRounds = 27]. *)
Definition StateSize : nat := 729.
Definition NumberOfRounds : nat := 27.

Definition hBits : Z := 0xFFFFFFFFFFFFFFFF.
Definition lBits : Z := 0x0000000000000000.

Definition low0 : Z := 0xDB6DB6DB6DB6DB6D.
Definition high0 : Z := 0xB6DB6DB6DB6DB6DB.
Definition low1 : Z := 0xF1F8FC7E3F1F8FC7.
Definition high1 : Z := 0x8FC7E3F1F8FC7E3F.
Definition low2 : Z := 0x7FFFE00FFFFC01FF.
Definition high2 : Z := 0xFFC01FFFF803FFFF.
Definition low3 : Z := 0xFFC0000007FFFFFF.
Definition high3 : Z := 0x003FFFFFFFFFFFFF.

Definition nonceOffset : nat := HashTrinarySize - NonceTrinarySize.
Definition nonceInitStart : nat := nonceOffset + 4.
Definition nonceIncrementStart : nat := nonceInitStart + NonceTrinarySize / 3.

(** [^x] on a [uint64]. *)
Definition not64 (x : Z) : Z := uint64 (Z.lnot x).

(** The two arrays [(l, h)] of [StateSize] words each. *)
Definition lanes : Type := (list Z * list Z)%type.

(** One lane of [para]: the [switch] on the trit; another value leaves the
    zero the arrays start with. *)
Definition para_lane (t : Z) : Z * Z :=
  if t =? 0 then (hBits, hBits)
  else if t =? 1 then (lBits, hBits)
  else if t =? -1 then (hBits, lBits)
  else (0, 0).

(** [para]; reading [in[i]] past the end of the slice panics. *)
Definition para (inp : Trits) : result lanes :=
  if (length inp <? StateSize)%nat then Panic
  else
    let both := map para_lane (firstn StateSize inp) in
    Ok (map fst both, map snd both).

(** The four seed lanes written at the start of each worker of
    [goProofOfWork]. *)
Definition seed_nonce (st : lanes) : lanes :=
  let '(lmid, hmid) := st in
  let lmid := upd nonceOffset low0 lmid in
  let hmid := upd nonceOffset high0 hmid in
  let lmid := upd (nonceOffset + 1) low1 lmid in
  let hmid := upd (nonceOffset + 1) high1 hmid in
  let lmid := upd (nonceOffset + 2) low2 lmid in
  let hmid := upd (nonceOffset + 2) high2 hmid in
  let lmid := upd (nonceOffset + 3) low3 lmid in
  let hmid := upd (nonceOffset + 3) high3 hmid in
  (lmid, hmid).

(** The loop shared by [incr] and [incrN]:
    [for ; i < end && carry != 0; i++], with [n] lanes left before [end].
    It returns the index and the carry it stops with. *)
Fixpoint counter_loop (n i : nat) (carry : Z) (st : lanes) : nat * Z * lanes :=
  match n with
  | O => (i, carry, st)
  | S n' =>
      if carry =? 0 then (i, carry, st)
      else
        let '(lmid, hmid) := st in
        let low := nth i lmid 0 in
        let high := nth i hmid 0 in
        let lmid := upd i (Z.lxor high low) lmid in
        let hmid := upd i low hmid in
        let carry := Z.land high (not64 low) in
        counter_loop n' (S i) carry (lmid, hmid)
  end.

(** One turn of the outer loop of [incrN]: the counter run over the lanes
    [nonceInitStart, nonceIncrementStart), the carry out dropped. *)
Definition incrN_turn (st : lanes) : lanes :=
  snd (counter_loop (nonceIncrementStart - nonceInitStart) nonceInitStart 1 st).

(** [incrN]: [n] turns. *)
Definition incrN (n : nat) (st : lanes) : lanes := Nat.iter n incrN_turn st.

(** [incr]: the arrays after the call and the boolean returned. *)
Definition incr (st : lanes) : lanes * bool :=
  let '(i, _, st') := counter_loop (HashTrinarySize - nonceInitStart) nonceInitStart 1 st in
  (st', (i =? HashTrinarySize)%nat).

(** One lane of [seri]: the trit at bit position [n] of lane [i]; the pair
    (0, 0) leaves the zero the slice starts with. *)
Definition seri_lane (st : lanes) (n : Z) (i : nat) : Z :=
  let ll := Z.land (Z.shiftr (nth i (fst st) 0) n) 1 in
  let hh := Z.land (Z.shiftr (nth i (snd st) 0) n) 1 in
  if (hh =? 0) && (ll =? 1) then -1
  else if (hh =? 1) && (ll =? 1) then 0
  else if (hh =? 1) && (ll =? 0) then 1
  else 0.

(** [seri] *)
Definition seri (st : lanes) (n : Z) : Trits :=
  map (seri_lane st n) (seq nonceOffset (HashTrinarySize - nonceOffset)).

(** The trits of the lanes [lo, lo + len) at bit position [n], read as [seri]
    reads the nonce. *)
Definition window_trits (st : lanes) (lo len : nat) (n : Z) : Trits :=
  map (seri_lane st n) (seq lo len).

Section Transform.

(** [curl.Indices], the table of [StateSize + 1] lane indices, is not among
    the sources: it is a parameter. *)
Variable Indices : list nat.

(** The two buffers [transform64] alternates between: the caller's arrays
    and the temporaries.  A pointer to a buffer is a [bool], [true] for the
    temporaries. *)
Record buffers : Type := { mid : lanes; tmp : lanes }.

Definition buffer (b : buffers) (p : bool) : lanes := if p then tmp b else mid b.

Definition set_buffer (b : buffers) (p : bool) (v : lanes) : buffers :=
  if p then {| mid := mid b; tmp := v |} else {| mid := v; tmp := tmp b |}.

(** [Indices[j]] and the array reads it feeds: out of range panics. *)
Definition index_at (j : nat) : result nat :=
  match nth_error Indices j with
  | Some t => if (t <? StateSize)%nat then Ok t else Panic
  | None => Panic
  end.

(** The bit-sliced S-box at lane [j]. *)
Definition sbox (from : lanes) (t1 t2 : nat) : Z * Z :=
  let '(lfrom, hfrom) := from in
  let alpha := nth t1 lfrom 0 in
  let beta := nth t1 hfrom 0 in
  let gamma := nth t2 hfrom 0 in
  let delta := Z.land (Z.lor alpha (not64 gamma)) (Z.lxor (nth t2 lfrom 0) beta) in
  (not64 delta, Z.lor (Z.lxor alpha gamma) delta).

(** The inner loop over the lanes [j, j + n). *)
Fixpoint round_lanes (n j : nat) (from to : lanes) : result lanes :=
  match n with
  | O => Ok to
  | S n' =>
      t1 <- index_at j ;;
      t2 <- index_at (j + 1) ;;
      let '(l', h') := sbox from t1 t2 in
      let '(lto, hto) := to in
      round_lanes n' (S j) from (upd j l' lto, upd j h' hto)
  end.

Definition round (from to : bool) (b : buffers) : result buffers :=
  v <- round_lanes StateSize 0 (buffer b from) (buffer b to) ;;
  Ok (set_buffer b to v).

(** The first [NumberOfRounds - 1] rounds, each followed by the swap of the
    two pointers. *)
Fixpoint rounds (r : nat) (from to : bool) (b : buffers) : result (bool * bool * buffers) :=
  match r with
  | O => Ok (from, to, b)
  | S r' => b' <- round from to b ;; rounds r' to from b'
  end.

(** [transform64]: the arrays after the call, copied from the temporaries. *)
Definition transform64 (st : lanes) : result lanes :=
  let b := {| mid := st; tmp := (repeat 0 StateSize, repeat 0 StateSize) |} in
  '(from, to, b) <- rounds (NumberOfRounds - 1) false true b ;;
  b <- round from to b ;;
  Ok (tmp b).

End Transform.

(** The table of the reference Curl, [Indices[0] = 0] and
    [Indices[i+1] = Indices[i] + (364 if Indices[i] < 365, else -365)]: one
    table the parameter can be. *)
Fixpoint reference_indices (n : nat) (cur : nat) : list nat :=
  match n with
  | O => []
  | S n' => cur :: reference_indices n' (if (cur <? 365)%nat then cur + 364 else cur - 365)%nat
  end.

Section ProofOfWork.

(** What a call of the proof-of-work function ends in. *)
Inductive outcome : Type :=
| Returns (nonce : Trytes) (err : option error)
| NoReturn.

(** Everything [goProofOfWork] does after its guard: the Curl absorption, the
    workers and the receive from the nonce channel.  It yields the nonce
    received, or nothing when the call panics or never returns. *)
Variable search : Trytes -> Z -> list Z -> option Trytes.

(** [goProofOfWork] *)
Definition goProofOfWork (trytes : Trytes) (mwm : Z) (parallelism : list Z) : outcome :=
  if String.eqb trytes EmptyString then Returns EmptyString (Some ErrInvalidTrytesForProofOfWork)
  else match search trytes mwm parallelism with
       | Some result => Returns result None
       | None => NoReturn
       end.

(** [GoProofOfWork] *)
Definition GoProofOfWork (trytes : Trytes) (mwm : Z) (parallelism : list Z) : outcome :=
  goProofOfWork trytes mwm parallelism.

(** [SyncGoProofOfWork], the same call under the mutex. *)
Definition SyncGoProofOfWork (trytes : Trytes) (mwm : Z) (parallelism : list Z) : outcome :=
  match goProofOfWork trytes mwm parallelism with
  | Returns nonce (Some err) => Returns EmptyString (Some err)
  | Returns nonce None => Returns nonce None
  | NoReturn => NoReturn
  end.

End ProofOfWork.

(** *** Words and bits *)

Lemma testbit_hBits i : 0 <= i -> Z.testbit hBits i = (i <? 64).
Proof. intros H. change hBits with (Z.ones 64). apply Z.testbit_ones_nonneg; lia. Qed.

Lemma testbit_not64 x i : 0 <= i -> Z.testbit (not64 x) i = (i <? 64) && negb (Z.testbit x i).
Proof.
  intros H. unfold not64, uint64, wrap_unsigned.
  rewrite Z.testbit_mod_pow2 by lia. rewrite Z.lnot_spec by lia. reflexivity.
Qed.

Lemma in_uint64_high x i : in_uint64 x -> 64 <= i -> Z.testbit x i = false.
Proof.
  intros Hx Hi. rewrite <- (uint64_small x Hx). unfold uint64, wrap_unsigned.
  apply Z.mod_pow2_bits_high. lia.
Qed.

Lemma in_uint64_of_bits x : (forall i, 64 <= i -> Z.testbit x i = false) -> in_uint64 x.
Proof.
  intros H. assert (E : x = x mod 2 ^ 64).
  { apply Z.bits_inj'. intros i Hi. rewrite Z.testbit_mod_pow2 by lia.
    destruct (Z.ltb_spec i 64); [reflexivity|]. apply H. lia. }
  unfold in_uint64. rewrite E. apply Z.mod_pos_bound. reflexivity.
Qed.

Lemma not64_in_uint64 x : in_uint64 (not64 x).
Proof. unfold in_uint64, not64, uint64, wrap_unsigned. apply Z.mod_pos_bound. reflexivity. Qed.

Lemma lor_in_uint64 x y : in_uint64 x -> in_uint64 y -> in_uint64 (Z.lor x y).
Proof.
  intros Hx Hy. apply in_uint64_of_bits. intros i Hi.
  rewrite Z.lor_spec, (in_uint64_high x i Hx Hi), (in_uint64_high y i Hy Hi). reflexivity.
Qed.

Lemma lxor_in_uint64 x y : in_uint64 x -> in_uint64 y -> in_uint64 (Z.lxor x y).
Proof.
  intros Hx Hy. apply in_uint64_of_bits. intros i Hi.
  rewrite Z.lxor_spec, (in_uint64_high x i Hx Hi), (in_uint64_high y i Hy Hi). reflexivity.
Qed.

Lemma land_in_uint64 x y : in_uint64 x -> in_uint64 (Z.land x y).
Proof.
  intros Hx. apply in_uint64_of_bits. intros i Hi.
  rewrite Z.land_spec, (in_uint64_high x i Hx Hi). reflexivity.
Qed.

(** The counter step keeps the union of the two words. *)
Lemma counter_step_union low high : Z.lor (Z.lxor high low) low = Z.lor low high.
Proof.
  apply Z.bits_inj'. intros i Hi. rewrite !Z.lor_spec, Z.lxor_spec.
  destruct (Z.testbit high i), (Z.testbit low i); reflexivity.
Qed.

(** The S-box never writes the pair (0, 0). *)
Lemma sbox_union alpha gamma delta :
  in_uint64 alpha -> in_uint64 gamma -> in_uint64 delta ->
  Z.lor (not64 delta) (Z.lor (Z.lxor alpha gamma) delta) = hBits.
Proof.
  intros Ha Hg Hd. apply Z.bits_inj'. intros i Hi.
  rewrite !Z.lor_spec, Z.lxor_spec, testbit_not64, testbit_hBits by lia.
  destruct (Z.ltb_spec i 64) as [Lo | Hi64].
  - destruct (Z.testbit delta i), (Z.testbit alpha i), (Z.testbit gamma i); reflexivity.
  - rewrite (in_uint64_high alpha i Ha Hi64), (in_uint64_high gamma i Hg Hi64),
      (in_uint64_high delta i Hd Hi64). reflexivity.
Qed.

(** *** The state and its invariant *)

(** Two arrays of [StateSize] 64-bit words. *)
Definition words_ok (st : lanes) : Prop :=
  length (fst st) = StateSize /\ length (snd st) = StateSize
  /\ Forall in_uint64 (fst st) /\ Forall in_uint64 (snd st).

(** No bit position of any lane holds the pair (0, 0). *)
Definition no_zero_pair (st : lanes) : Prop :=
  forall i, (i < StateSize)%nat -> Z.lor (nth i (fst st) 0) (nth i (snd st) 0) = hBits.

Lemma Forall_upd {A} (P : A -> Prop) i v l : Forall P l -> P v -> Forall P (upd i v l).
Proof.
  intros H Hv. revert i. induction H as [|x l Hx Hl IH]; intros [|i]; simpl;
    constructor; auto.
Qed.

Lemma lane_in_uint64 (l : list Z) i : Forall in_uint64 l -> in_uint64 (nth i l 0).
Proof.
  intros H. destruct (Nat.lt_ge_cases i (length l)) as [L | L].
  - rewrite Forall_forall in H. apply H, nth_In, L.
  - rewrite nth_overflow by exact L. unfold in_uint64. lia.
Qed.

Lemma write_lane st i x y :
  words_ok st -> in_uint64 x -> in_uint64 y ->
  words_ok (upd i x (fst st), upd i y (snd st)).
Proof.
  intros (Ll & Lh & Ol & Oh) Hx Hy. unfold words_ok. cbn [fst snd].
  rewrite !upd_length. repeat split; try assumption; apply Forall_upd; assumption.
Qed.

Lemma write_lane_union st i x y :
  words_ok st -> no_zero_pair st -> ((i < StateSize)%nat -> Z.lor x y = hBits) ->
  no_zero_pair (upd i x (fst st), upd i y (snd st)).
Proof.
  intros (Ll & Lh & _) N E j Hj. cbn [fst snd].
  destruct (Nat.eq_dec i j) as [-> | Ne].
  - rewrite !nth_upd_same by lia. exact (E Hj).
  - rewrite !nth_upd_other by exact Ne. apply N, Hj.
Qed.

(** *** [para] and the seed lanes *)

Lemma para_lane_good t :
  ValidTrit t = true ->
  in_uint64 (fst (para_lane t)) /\ in_uint64 (snd (para_lane t))
  /\ Z.lor (fst (para_lane t)) (snd (para_lane t)) = hBits.
Proof.
  intros H. trit_cases H; (split; [|split]); try reflexivity;
    unfold in_uint64; cbn; split; (discriminate || reflexivity).
Qed.

Lemma para_lanes_nth ts : forall i, (i < length ts)%nat ->
  nth i (map fst (map para_lane ts)) 0 = fst (para_lane (nth i ts 0))
  /\ nth i (map snd (map para_lane ts)) 0 = snd (para_lane (nth i ts 0)).
Proof.
  induction ts as [|t ts IH]; intros [|i] H; simpl in H; try lia.
  - split; reflexivity.
  - cbn [map nth]. apply IH. lia.
Qed.

Lemma para_good inp :
  valid_trits inp -> (StateSize <= length inp)%nat ->
  exists st, para inp = Ok st /\ words_ok st /\ no_zero_pair st.
Proof.
  intros V L. unfold para.
  destruct (Nat.ltb_spec (length inp) StateSize) as [C | _]; [lia|].
  eexists. split; [reflexivity|].
  set (ts := firstn StateSize inp).
  assert (Lts : length ts = StateSize) by (subst ts; rewrite length_firstn; lia).
  assert (Vts : valid_trits ts) by (subst ts; apply Forall_firstn; exact V).
  split.
  - unfold words_ok. cbn [fst snd]. rewrite !length_map.
    repeat split; try exact Lts.
    + clear Lts. induction Vts as [|t r Ht Hr IH]; cbn [map]; constructor; auto.
      apply (para_lane_good t Ht).
    + clear Lts. induction Vts as [|t r Ht Hr IH]; cbn [map]; constructor; auto.
      apply (para_lane_good t Ht).
  - intros i Hi. cbn [fst snd].
    destruct (para_lanes_nth ts i ltac:(lia)) as [-> ->].
    apply para_lane_good. apply nth_valid. exact Vts.
Qed.

Lemma constant_in_uint64 x : (0 <=? x) && (x <? 2 ^ 64) = true -> in_uint64 x.
Proof.
  intros H. apply andb_true_iff in H. destruct H as [A B].
  apply Z.leb_le in A. apply Z.ltb_lt in B. split; assumption.
Qed.

Lemma seed_nonce_good st :
  words_ok st -> no_zero_pair st -> words_ok (seed_nonce st) /\ no_zero_pair (seed_nonce st).
Proof.
  intros W N. destruct st as [l h]. unfold seed_nonce.
  pose proof (write_lane (l, h) nonceOffset low0 high0 W
                (constant_in_uint64 low0 eq_refl) (constant_in_uint64 high0 eq_refl)) as W0.
  pose proof (write_lane_union (l, h) nonceOffset low0 high0 W N (fun _ => eq_refl)) as N0.
  cbn [fst snd] in W0, N0.
  pose proof (write_lane _ (nonceOffset + 1) low1 high1 W0
                (constant_in_uint64 low1 eq_refl) (constant_in_uint64 high1 eq_refl)) as W1.
  pose proof (write_lane_union _ (nonceOffset + 1) low1 high1 W0 N0 (fun _ => eq_refl)) as N1.
  cbn [fst snd] in W1, N1.
  pose proof (write_lane _ (nonceOffset + 2) low2 high2 W1
                (constant_in_uint64 low2 eq_refl) (constant_in_uint64 high2 eq_refl)) as W2.
  pose proof (write_lane_union _ (nonceOffset + 2) low2 high2 W1 N1 (fun _ => eq_refl)) as N2.
  cbn [fst snd] in W2, N2.
  pose proof (write_lane _ (nonceOffset + 3) low3 high3 W2
                (constant_in_uint64 low3 eq_refl) (constant_in_uint64 high3 eq_refl)) as W3.
  pose proof (write_lane_union _ (nonceOffset + 3) low3 high3 W2 N2 (fun _ => eq_refl)) as N3.
  cbn [fst snd] in W3, N3.
  split; assumption.
Qed.

(** *** The counter *)

Lemma counter_loop_good n : forall i carry st,
  words_ok st -> no_zero_pair st ->
  words_ok (snd (counter_loop n i carry st)) /\ no_zero_pair (snd (counter_loop n i carry st)).
Proof.
  induction n as [|n IH]; intros i carry st W N; cbn [counter_loop].
  - split; assumption.
  - destruct (carry =? 0); [split; assumption|].
    destruct st as [l h].
    pose proof W as (Ll & Lh & Ol & Oh). cbn [fst snd] in Ll, Lh, Ol, Oh.
    apply IH.
    + apply (write_lane (l, h)); [exact W | |].
      * apply lxor_in_uint64; apply lane_in_uint64; assumption.
      * apply lane_in_uint64; assumption.
    + apply (write_lane_union (l, h)); [exact W | exact N |].
      intros Lt. rewrite counter_step_union. apply (N i Lt).
Qed.

Lemma incrN_turn_good st :
  words_ok st -> no_zero_pair st -> words_ok (incrN_turn st) /\ no_zero_pair (incrN_turn st).
Proof. intros W N. unfold incrN_turn. apply counter_loop_good; assumption. Qed.

Lemma incrN_succ n st : incrN (S n) st = incrN_turn (incrN n st).
Proof. unfold incrN. apply Nat.iter_succ. Qed.

Lemma incrN_good n st :
  words_ok st -> no_zero_pair st -> words_ok (incrN n st) /\ no_zero_pair (incrN n st).
Proof.
  intros W N. induction n as [|n [IW IN]].
  - split; assumption.
  - rewrite incrN_succ. apply incrN_turn_good; assumption.
Qed.

Lemma incr_good st :
  words_ok st -> no_zero_pair st ->
  words_ok (fst (incr st)) /\ no_zero_pair (fst (incr st)).
Proof.
  intros W N. unfold incr.
  pose proof (counter_loop_good (HashTrinarySize - nonceInitStart) nonceInitStart 1 st W N) as G.
  destruct (counter_loop (HashTrinarySize - nonceInitStart) nonceInitStart 1 st) as [[i c] st'].
  exact G.
Qed.

(** *** [transform64] *)

(** The table has an entry below [StateSize] at every index the rounds
    read. *)
Definition indices_ok (Indices : list nat) : bool :=
  (StateSize <? length Indices)%nat
  && forallb (fun t => (t <? StateSize)%nat) (firstn (StateSize + 1) Indices).

Lemma forallb_firstn_nth {A} (f : A -> bool) (l : list A) : forall n j t,
  forallb f (firstn n l) = true -> (j < n)%nat -> nth_error l j = Some t -> f t = true.
Proof.
  induction l as [|x l IH]; intros n j t F L E.
  - destruct j; discriminate E.
  - destruct n as [|n]; [lia|]. cbn [firstn forallb] in F.
    apply andb_true_iff in F. destruct F as [Fx Fl].
    destruct j as [|j]; cbn [nth_error] in E.
    + inversion E; subst. exact Fx.
    + apply (IH n j t Fl ltac:(lia) E).
Qed.

Section TransformFacts.

Variable Indices : list nat.
Hypothesis Indices_ok : indices_ok Indices = true.

Lemma index_at_ok j :
  (j <= StateSize)%nat -> exists t, index_at Indices j = Ok t /\ (t < StateSize)%nat.
Proof.
  intros L. unfold indices_ok in Indices_ok.
  apply andb_true_iff in Indices_ok. destruct Indices_ok as [Len All].
  apply Nat.ltb_lt in Len.
  destruct (nth_error Indices j) as [t|] eqn:E.
  - pose proof (forallb_firstn_nth _ Indices (StateSize + 1) j t All ltac:(lia) E) as Ht.
    exists t. unfold index_at. rewrite E, Ht. split; [reflexivity|].
    apply Nat.ltb_lt. exact Ht.
  - apply nth_error_None in E. lia.
Qed.

Lemma sbox_good from t1 t2 :
  words_ok from ->
  in_uint64 (fst (sbox from t1 t2)) /\ in_uint64 (snd (sbox from t1 t2))
  /\ Z.lor (fst (sbox from t1 t2)) (snd (sbox from t1 t2)) = hBits.
Proof.
  intros (_ & _ & Ol & Oh). destruct from as [lfrom hfrom]. cbn [fst snd] in Ol, Oh.
  unfold sbox. cbn [fst snd].
  pose proof (lane_in_uint64 lfrom t1 Ol) as Ha.
  pose proof (lane_in_uint64 hfrom t1 Oh) as Hb.
  pose proof (lane_in_uint64 hfrom t2 Oh) as Hg.
  pose proof (lane_in_uint64 lfrom t2 Ol) as Hx.
  set (alpha := nth t1 lfrom 0) in *. set (beta := nth t1 hfrom 0) in *.
  set (gamma := nth t2 hfrom 0) in *.
  set (delta := Z.land (Z.lor alpha (not64 gamma)) (Z.lxor (nth t2 lfrom 0) beta)).
  assert (Hd : in_uint64 delta).
  { apply land_in_uint64, lor_in_uint64; [exact Ha | apply not64_in_uint64]. }
  split; [apply not64_in_uint64|].
  split; [apply lor_in_uint64; [apply lxor_in_uint64; assumption | exact Hd]|].
  apply sbox_union; assumption.
Qed.

Lemma round_lanes_good from : words_ok from -> forall n j to,
  (j + n <= StateSize)%nat -> words_ok to ->
  (forall i, (i < j)%nat -> Z.lor (nth i (fst to) 0) (nth i (snd to) 0) = hBits) ->
  exists to', round_lanes Indices n j from to = Ok to' /\ words_ok to'
    /\ (forall i, (i < j + n)%nat -> Z.lor (nth i (fst to') 0) (nth i (snd to') 0) = hBits).
Proof.
  intros Wf. induction n as [|n IH]; intros j to L Wt U.
  - exists to. split; [reflexivity|]. split; [exact Wt|].
    intros i Hi. apply U. lia.
  - cbn [round_lanes].
    destruct (index_at_ok j ltac:(lia)) as (t1 & E1 & _).
    destruct (index_at_ok (j + 1) ltac:(lia)) as (t2 & E2 & _).
    rewrite E1. cbn [bind]. rewrite E2. cbn [bind].
    destruct (sbox_good from t1 t2 Wf) as (Gl & Gh & Gu).
    destruct (sbox from t1 t2) as [l' h']. cbn [fst snd] in Gl, Gh, Gu.
    destruct to as [lto hto].
    pose proof (write_lane (lto, hto) j l' h' Wt Gl Gh) as Wt'. cbn [fst snd] in Wt'.
    destruct (IH (S j) (upd j l' lto, upd j h' hto) ltac:(lia) Wt') as (to' & E & W' & U').
    + intros i Hi. cbn [fst snd].
      destruct Wt as (Ll & Lh & _). cbn [fst snd] in Ll, Lh.
      destruct (Nat.eq_dec j i) as [-> | Ne].
      * rewrite !nth_upd_same by lia. exact Gu.
      * rewrite !nth_upd_other by exact Ne. apply (U i). lia.
    + exists to'. split; [exact E|]. split; [exact W'|].
      intros i Hi. apply U'. lia.
Qed.

Definition buffers_ok (b : buffers) : Prop := words_ok (mid b) /\ words_ok (tmp b).

Lemma round_good from to b :
  buffers_ok b ->
  exists b', round Indices from to b = Ok b' /\ buffers_ok b'
    /\ no_zero_pair (buffer b' to).
Proof.
  intros [Wm Wt]. unfold round.
  assert (Wf : words_ok (buffer b from)) by (destruct from; assumption).
  assert (Wo : words_ok (buffer b to)) by (destruct to; assumption).
  destruct (round_lanes_good (buffer b from) Wf StateSize 0 (buffer b to) ltac:(lia) Wo)
    as (v & E & Wv & U).
  { intros i Hi. lia. }
  rewrite E. cbn [bind]. exists (set_buffer b to v).
  split; [reflexivity|].
  destruct to; unfold set_buffer, buffers_ok, buffer; cbn [mid tmp];
    (split; [split; assumption|]); intros i Hi; apply U; lia.
Qed.

Lemma rounds_good r : forall from to b,
  buffers_ok b ->
  exists from' to' b', rounds Indices r from to b = Ok (from', to', b')
    /\ buffers_ok b'
    /\ (from', to') = (if Nat.even r then (from, to) else (to, from)).
Proof.
  induction r as [|r IH]; intros from to b W.
  - exists from, to, b. repeat split; apply W.
  - cbn [rounds].
    destruct (round_good from to b W) as (b1 & E1 & W1 & _).
    rewrite E1. cbn [bind].
    destruct (IH to from b1 W1) as (f' & t' & b' & E & W' & P).
    exists f', t', b'. split; [exact E|]. split; [exact W'|].
    rewrite P, Nat.even_succ, <- Nat.negb_even.
    destruct (Nat.even r); reflexivity.
Qed.

Lemma transform64_good st :
  words_ok st ->
  exists st', transform64 Indices st = Ok st' /\ words_ok st' /\ no_zero_pair st'.
Proof.
  intros W. unfold transform64.
  set (b := {| mid := st; tmp := (repeat 0 StateSize, repeat 0 StateSize) |}).
  assert (Wb : buffers_ok b).
  { split; [exact W|]. unfold words_ok. cbn [tmp b fst snd].
    rewrite repeat_length.
    assert (Z0 : forall n, Forall in_uint64 (repeat 0 n)).
    { induction n; cbn [repeat]; constructor; [unfold in_uint64; lia | assumption]. }
    repeat split; apply Z0. }
  destruct (rounds_good (NumberOfRounds - 1) false true b Wb) as (f' & t' & b' & E & W' & P).
  change (Nat.even (NumberOfRounds - 1)) with true in P. cbv iota in P.
  inversion P; subst f' t'.
  rewrite E. cbn [bind].
  destruct (round_good false true b' W') as (b2 & E2 & W2 & U2).
  rewrite E2. cbn [bind]. exists (tmp b2).
  split; [reflexivity|]. split; [apply W2 | exact U2].
Qed.

End TransformFacts.

(** C6: no lane of the bit-sliced state holds the pair (0, 0) at any bit
    position, [L[i] | H[i]] is all ones: it is so after [para] on valid
    trits, and overwriting the four seed lanes, every [incr] and [incrN]
    and [transform64] keep it. *)
Theorem no_zero_pair_preserved (Indices : list nat) :
  indices_ok Indices = true ->
  (forall inp, valid_trits inp -> (StateSize <= length inp)%nat ->
     exists st, para inp = Ok st /\ words_ok st /\ no_zero_pair st)
  /\ (forall st, words_ok st -> no_zero_pair st ->
        (words_ok (seed_nonce st) /\ no_zero_pair (seed_nonce st))
        /\ (words_ok (fst (incr st)) /\ no_zero_pair (fst (incr st)))
        /\ (forall n, words_ok (incrN n st) /\ no_zero_pair (incrN n st))
        /\ (exists st', transform64 Indices st = Ok st'
              /\ words_ok st' /\ no_zero_pair st')).
Proof.
  intros I. split.
  - intros inp V L. apply para_good; assumption.
  - intros st W N.
    split; [apply seed_nonce_good; assumption|].
    split; [apply incr_good; assumption|].
    split; [intros n; apply incrN_good; assumption|].
    apply transform64_good; assumption.
Qed.

Lemma no_zero_pair_preserved_witness :
  (forall inp, valid_trits inp -> (StateSize <= length inp)%nat ->
     exists st, para inp = Ok st /\ words_ok st /\ no_zero_pair st)
  /\ (forall st, words_ok st -> no_zero_pair st ->
        (words_ok (seed_nonce st) /\ no_zero_pair (seed_nonce st))
        /\ (words_ok (fst (incr st)) /\ no_zero_pair (fst (incr st)))
        /\ (forall n, words_ok (incrN n st) /\ no_zero_pair (incrN n st))
        /\ (exists st', transform64 (reference_indices 730 0) st = Ok st'
              /\ words_ok st' /\ no_zero_pair st')).
Proof.
  apply (no_zero_pair_preserved (reference_indices 730 0)). vm_compute. reflexivity.
Defined.

(** *** The counter as a balanced-ternary successor *)

(** Adding one to a little-endian balanced-ternary number: -1 becomes 0, 0
    becomes 1, and 1 becomes -1 with a carry into the next trit; a carry out
    of the last trit is lost. *)
Fixpoint trits_succ (t : Trits) : Trits :=
  match t with
  | [] => []
  | x :: rest => if x =? 1 then -1 :: trits_succ rest else (x + 1) :: rest
  end.

(** The lanes from [lo] on hold the trits [ts], each lane the same trit at
    all 64 bit positions, as [para] writes them. *)
Fixpoint window_is (st : lanes) (lo : nat) (ts : Trits) : bool :=
  match ts with
  | [] => true
  | t :: rest =>
      ValidTrit t
      && (nth lo (fst st) 0 =? fst (para_lane t))
      && (nth lo (snd st) 0 =? snd (para_lane t))
      && window_is st (S lo) rest
  end.

Lemma trits_succ_length t : length (trits_succ t) = length t.
Proof.
  induction t as [|x t IH]; [reflexivity|].
  cbn [trits_succ]. destruct (x =? 1); cbn [length]; congruence.
Qed.

Lemma trits_succ_value t :
  valid_trits t ->
  trits_value (trits_succ t)
  = trits_value t + 1
    - (if forallb (fun x => x =? 1) t then 3 ^ Z.of_nat (length t) else 0).
Proof.
  induction 1 as [|x t Hx Ht IH].
  - reflexivity.
  - cbn [trits_succ forallb trits_value length]. rewrite pow3_succ.
    destruct (Z.eqb_spec x 1) as [-> | Ne].
    + cbn [trits_value andb]. rewrite IH.
      destruct (forallb (fun x => x =? 1) t); lia.
    + cbn [trits_value andb]. lia.
Qed.

Lemma bit_at x n : 0 <= n -> Z.land (Z.shiftr x n) 1 = Z.b2z (Z.testbit x n).
Proof.
  intros H. change 1 with (Z.ones 1). rewrite Z.land_ones by lia.
  change (2 ^ 1) with 2. rewrite <- Z.bit0_mod, Z.shiftr_spec by lia. reflexivity.
Qed.

(** [seri] reads the trit [para] wrote, at every bit position. *)
Lemma seri_lane_para st n i t :
  0 <= n < 64 -> ValidTrit t = true ->
  nth i (fst st) 0 = fst (para_lane t) -> nth i (snd st) 0 = snd (para_lane t) ->
  seri_lane st n i = t.
Proof.
  intros Hn Ht El Eh. unfold seri_lane. rewrite El, Eh, !bit_at by lia.
  assert (B1 : Z.testbit hBits n = true).
  { rewrite testbit_hBits by lia. apply Z.ltb_lt. lia. }
  assert (B0 : Z.testbit lBits n = false) by apply Z.bits_0.
  trit_cases Ht;
    [ change (para_lane (-1)) with (hBits, lBits)
    | change (para_lane 0) with (hBits, hBits)
    | change (para_lane 1) with (lBits, hBits) ];
    cbn [fst snd]; rewrite ?B1, ?B0; reflexivity.
Qed.

Lemma window_is_trits ts : forall st lo n,
  0 <= n < 64 -> window_is st lo ts = true ->
  window_trits st lo (length ts) n = ts.
Proof.
  unfold window_trits.
  induction ts as [|t ts IH]; intros st lo n Hn W; [reflexivity|].
  cbn [window_is] in W.
  apply andb_true_iff in W. destruct W as [W Wr].
  apply andb_true_iff in W. destruct W as [W Wh].
  apply andb_true_iff in W. destruct W as [Wt Wl].
  apply Z.eqb_eq in Wl, Wh.
  cbn [length seq map]. f_equal.
  - apply seri_lane_para; assumption.
  - apply IH; assumption.
Qed.

Lemma window_is_valid ts : forall st lo, window_is st lo ts = true -> valid_trits ts.
Proof.
  induction ts as [|t ts IH]; intros st lo W; [constructor|].
  cbn [window_is] in W.
  apply andb_true_iff in W. destruct W as [W Wr].
  apply andb_true_iff in W. destruct W as [W _].
  apply andb_true_iff in W. destruct W as [Wt _].
  constructor; [exact Wt | apply (IH st (S lo) Wr)].
Qed.

(** Only the lanes from [lo] on matter. *)
Lemma window_is_ext ts : forall st st' lo,
  (forall j, (lo <= j)%nat ->
     nth j (fst st') 0 = nth j (fst st) 0 /\ nth j (snd st') 0 = nth j (snd st) 0) ->
  window_is st' lo ts = window_is st lo ts.
Proof.
  induction ts as [|t ts IH]; intros st st' lo E; [reflexivity|].
  cbn [window_is]. destruct (E lo (le_n lo)) as [-> ->].
  rewrite (IH st st' (S lo)); [reflexivity|].
  intros j Hj. apply E. lia.
Qed.

Lemma window_is_firstn ts : forall st lo k,
  window_is st lo ts = true -> window_is st lo (firstn k ts) = true.
Proof.
  induction ts as [|t ts IH]; intros st lo k W.
  - destruct k; reflexivity.
  - destruct k as [|k]; [reflexivity|]. cbn [firstn window_is] in *.
    apply andb_true_iff in W. destruct W as [W Wr].
    rewrite W. cbn [andb]. apply IH. exact Wr.
Qed.

Lemma counter_loop_no_carry n i st : counter_loop n i 0 st = (i, 0, st).
Proof. destruct n; reflexivity. Qed.

(** The lanes below the index the counter starts at are left alone, and the
    arrays keep their lengths. *)
Lemma counter_loop_frame n : forall i c st,
  (forall j, (j < i)%nat ->
     nth j (fst (snd (counter_loop n i c st))) 0 = nth j (fst st) 0
     /\ nth j (snd (snd (counter_loop n i c st))) 0 = nth j (snd st) 0)
  /\ length (fst (snd (counter_loop n i c st))) = length (fst st)
  /\ length (snd (snd (counter_loop n i c st))) = length (snd st).
Proof.
  induction n as [|n IH]; intros i c st; cbn [counter_loop].
  - repeat split.
  - destruct (c =? 0); [repeat split|].
    destruct st as [l h].
    destruct (IH (S i) (Z.land (nth i h 0) (not64 (nth i l 0)))
                (upd i (Z.lxor (nth i h 0) (nth i l 0)) l, upd i (nth i l 0) h))
      as (F & Ll & Lh).
    cbn [fst snd] in *. rewrite upd_length in Ll, Lh.
    split; [|split; assumption].
    intros j Hj. destruct (F j ltac:(lia)) as [Fl Fh].
    rewrite Fl, Fh, !nth_upd_other by lia. split; reflexivity.
Qed.

(** One pass of the counter over a window of uniform lanes writes the
    successor of the trits it held. *)
Lemma counter_loop_window ts : forall lo c st,
  length (fst st) = StateSize -> length (snd st) = StateSize ->
  (lo + length ts <= StateSize)%nat ->
  window_is st lo ts = true -> c <> 0 ->
  window_is (snd (counter_loop (length ts) lo c st)) lo (trits_succ ts) = true.
Proof.
  induction ts as [|t ts IH]; intros lo c st Ll Lh Bd W Hc; [reflexivity|].
  cbn [length counter_loop].
  destruct (Z.eqb_spec c 0) as [C | _]; [contradiction|].
  destruct st as [l h]. cbn [fst snd] in Ll, Lh.
  cbn [window_is fst snd] in W.
  apply andb_true_iff in W. destruct W as [W Wr].
  apply andb_true_iff in W. destruct W as [W Wh].
  apply andb_true_iff in W. destruct W as [Wt Wl].
  apply Z.eqb_eq in Wl, Wh. cbn [length] in Bd.
  rewrite Wl, Wh.
  set (st1 := (upd lo (Z.lxor (snd (para_lane t)) (fst (para_lane t))) l,
               upd lo (fst (para_lane t)) h)).
  assert (L1 : length (fst st1) = StateSize /\ length (snd st1) = StateSize).
  { subst st1. cbn [fst snd]. rewrite !upd_length. split; assumption. }
  assert (Wr1 : window_is st1 (S lo) ts = true).
  { rewrite <- Wr. apply window_is_ext. intros j Hj. subst st1. cbn [fst snd].
    rewrite !nth_upd_other by lia. split; reflexivity. }
  assert (Here : nth lo (fst st1) 0 = Z.lxor (snd (para_lane t)) (fst (para_lane t))
                 /\ nth lo (snd st1) 0 = fst (para_lane t)).
  { subst st1. cbn [fst snd]. rewrite !nth_upd_same by lia. split; reflexivity. }
  destruct Here as [Hl Hh].
  cbn [trits_succ].
  destruct (Z.eqb_spec t 1) as [-> | Ne].
  - (* +1: the lane becomes -1 and the carry goes on *)
    change (Z.land (snd (para_lane 1)) (not64 (fst (para_lane 1)))) with hBits.
    pose proof (counter_loop_frame (length ts) (S lo) hBits st1) as (F & _ & _).
    destruct (F lo ltac:(lia)) as [Fl Fh].
    cbn [window_is]. rewrite Fl, Fh, Hl, Hh.
    rewrite (IH (S lo) hBits st1);
      [reflexivity | tauto | tauto | lia | exact Wr1 | discriminate].
  - (* -1 or 0: the lane takes the next trit and the carry stops *)
    assert (C0 : Z.land (snd (para_lane t)) (not64 (fst (para_lane t))) = 0).
    { trit_cases Wt; [reflexivity | reflexivity | contradiction]. }
    rewrite C0, counter_loop_no_carry. cbn [snd window_is].
    rewrite Wr1, Hl, Hh.
    trit_cases Wt; [reflexivity | reflexivity | contradiction].
Qed.

Lemma trits_succ_iter_length k t : length (Nat.iter k trits_succ t) = length t.
Proof.
  induction k as [|k IH]; [reflexivity|].
  rewrite Nat.iter_succ, trits_succ_length. exact IH.
Qed.

Lemma nonce_field_bounds :
  nonceInitStart = 166%nat /\ nonceIncrementStart = 193%nat
  /\ HashTrinarySize = 243%nat /\ StateSize = 729%nat.
Proof. repeat split. Qed.

(** The state after [k] turns of [incrN], on a window of uniform lanes. *)
Lemma incrN_window k : forall st ts,
  length (fst st) = StateSize -> length (snd st) = StateSize ->
  length ts = (nonceIncrementStart - nonceInitStart)%nat ->
  window_is st nonceInitStart ts = true ->
  length (fst (incrN k st)) = StateSize /\ length (snd (incrN k st)) = StateSize
  /\ window_is (incrN k st) nonceInitStart (Nat.iter k trits_succ ts) = true.
Proof.
  destruct nonce_field_bounds as (N1 & N2 & N3 & N4).
  induction k as [|k IH]; intros st ts Ll Lh Lts W.
  - repeat split; assumption.
  - destruct (IH st ts Ll Lh Lts W) as (Ll' & Lh' & W').
    rewrite incrN_succ. unfold incrN_turn.
    assert (Lk : length (Nat.iter k trits_succ ts) = (nonceIncrementStart - nonceInitStart)%nat)
      by (rewrite trits_succ_iter_length; exact Lts).
    pose proof (counter_loop_frame (nonceIncrementStart - nonceInitStart) nonceInitStart 1
                  (incrN k st)) as (_ & Fl & Fh).
    pose proof (counter_loop_window (Nat.iter k trits_succ ts) nonceInitStart 1 (incrN k st)
                  Ll' Lh' ltac:(lia) W' ltac:(discriminate)) as Wn.
    rewrite Lk in Wn. rewrite Nat.iter_succ.
    split; [congruence|]. split; [congruence | exact Wn].
Qed.

(** C7 (as the code has it): on a nonce field whose lanes each hold one trit
    at all 64 bit positions, as [para] leaves them, the trits [seri] reads at
    any bit position after [incr] are the balanced-ternary successor of those
    before, and after [k] turns of [incrN] the [k]-th successor on its shorter
    window; the successor adds one to the value, except that all +1 wraps
    around to all -1. *)
Theorem counter_is_ternary_successor (st : lanes) (ts : Trits) (n : Z) :
  length (fst st) = StateSize -> length (snd st) = StateSize ->
  length ts = (HashTrinarySize - nonceInitStart)%nat ->
  window_is st nonceInitStart ts = true ->
  0 <= n < 64 ->
  window_trits st nonceInitStart (HashTrinarySize - nonceInitStart) n = ts
  /\ window_trits (fst (incr st)) nonceInitStart (HashTrinarySize - nonceInitStart) n
     = trits_succ ts
  /\ (forall k,
        window_trits (incrN k st) nonceInitStart (nonceIncrementStart - nonceInitStart) n
        = Nat.iter k trits_succ (firstn (nonceIncrementStart - nonceInitStart) ts))
  /\ trits_value (trits_succ ts)
     = trits_value ts + 1
       - (if forallb (fun x => x =? 1) ts then 3 ^ Z.of_nat (length ts) else 0).
Proof.
  intros Ll Lh Lts W Hn.
  destruct nonce_field_bounds as (N1 & N2 & N3 & N4).
  split; [rewrite <- Lts; apply window_is_trits; assumption|].
  split; [|split].
  - pose proof (counter_loop_window ts nonceInitStart 1 st Ll Lh ltac:(lia) W
                  ltac:(discriminate)) as Wn.
    rewrite Lts in Wn. unfold incr.
    destruct (counter_loop (HashTrinarySize - nonceInitStart) nonceInitStart 1 st)
      as [[i c] st'].
    cbn [fst snd] in *.
    rewrite <- Lts, <- (trits_succ_length ts). apply window_is_trits; assumption.
  - intros k.
    set (pre := firstn (nonceIncrementStart - nonceInitStart) ts).
    assert (Lp : length pre = (nonceIncrementStart - nonceInitStart)%nat).
    { subst pre. rewrite length_firstn. lia. }
    destruct (incrN_window k st pre Ll Lh Lp (window_is_firstn ts st nonceInitStart _ W))
      as (_ & _ & Wk).
    assert (Lk : length (Nat.iter k trits_succ pre) = (nonceIncrementStart - nonceInitStart)%nat)
      by (rewrite trits_succ_iter_length; exact Lp).
    rewrite <- Lk. apply window_is_trits; assumption.
  - apply trits_succ_value. apply (window_is_valid ts st nonceInitStart W).
Qed.

(** The arrays of a worker of [goProofOfWork] for the Curl state [trits]:
    [para], then the four seed lanes. *)
Definition worker_lanes (trits : Trits) : lanes :=
  match para trits with
  | Ok st => seed_nonce st
  | _ => (repeat 0 StateSize, repeat 0 StateSize)
  end.

(** A Curl state whose trits from [nonceInitStart] on start with +1, +1, -1:
    the counter carries over two lanes. *)
Definition carry_trits : Trits := repeat 0 166 ++ [1; 1; -1; 0; 1] ++ repeat 0 558.

Definition carry_window : Trits := [1; 1; -1; 0; 1] ++ repeat 0 72.

Lemma counter_is_ternary_successor_witness :
  (window_trits (worker_lanes carry_trits) nonceInitStart
     (HashTrinarySize - nonceInitStart) 5 = carry_window
   /\ window_trits (fst (incr (worker_lanes carry_trits))) nonceInitStart
        (HashTrinarySize - nonceInitStart) 5
      = trits_succ carry_window
   /\ (forall k,
         window_trits (incrN k (worker_lanes carry_trits)) nonceInitStart
           (nonceIncrementStart - nonceInitStart) 5
         = Nat.iter k trits_succ (firstn (nonceIncrementStart - nonceInitStart) carry_window))
   /\ trits_value (trits_succ carry_window)
      = trits_value carry_window + 1
        - (if forallb (fun x => x =? 1) carry_window
           then 3 ^ Z.of_nat (length carry_window) else 0))
  /\ trits_succ carry_window = [-1; -1; 0; 0; 1] ++ repeat 0 72.
Proof.
  split; [|reflexivity].
  apply (counter_is_ternary_successor (worker_lanes carry_trits) carry_window 5).
  - vm_compute. reflexivity.
  - vm_compute. reflexivity.
  - reflexivity.
  - vm_compute. reflexivity.
  - lia.
Defined.

(** A Curl state whose 77 trits from [nonceInitStart] on are all +1, as the
    nonce trits of a transaction can be. *)
Definition full_trits : Trits := repeat 0 166 ++ repeat 1 77 ++ repeat 0 486.

(** C7 as stated fails at the end of the counter.  On the arrays [para] and
    the seed lanes give for these 729 valid trits, every lane of the window
    holds +1; [incr] turns them all into -1 and the carry leaves the last
    lane: the trits decoded afterwards are not those before plus one, their
    value is smaller. *)
Lemma counter_wraps_around :
  forallb ValidTrit full_trits = true
  /\ length full_trits = StateSize
  /\ window_is (worker_lanes full_trits) nonceInitStart (repeat 1 77) = true
  /\ window_trits (worker_lanes full_trits) nonceInitStart
       (HashTrinarySize - nonceInitStart) 0
     = repeat 1 77
  /\ window_trits (fst (incr (worker_lanes full_trits))) nonceInitStart
       (HashTrinarySize - nonceInitStart) 0
     = repeat (-1) 77
  /\ trits_value (repeat (-1) 77) < trits_value (repeat 1 77) + 1.
Proof. repeat split; vm_compute; reflexivity. Qed.

(** The hypothesis on the lanes cannot be dropped.  In this state, which no
    worker builds, lane [nonceInitStart] holds +1 at bit position 0 and 0 at
    every other position: the carry of position 0 makes the loop step the
    next lane at every position, and at position 1 the field goes from 0 to
    1 + 3 = 4. *)
Definition skewed_state : lanes :=
  (upd 166 (hBits - 1) (repeat hBits 729), repeat hBits 729).

Lemma counter_steps_every_position_of_a_lane :
  forallb (fun p => Z.lor (fst p) (snd p) =? hBits)
    (combine (fst skewed_state) (snd skewed_state)) = true
  /\ window_trits skewed_state nonceInitStart (HashTrinarySize - nonceInitStart) 1
     = repeat 0 77
  /\ window_trits (fst (incr skewed_state)) nonceInitStart
       (HashTrinarySize - nonceInitStart) 1
     = 1 :: 1 :: repeat 0 75
  /\ trits_succ (repeat 0 77) = 1 :: repeat 0 76
  /\ trits_value (1 :: 1 :: repeat 0 75) = 4.
Proof. repeat split; vm_compute; reflexivity. Qed.

(** *** What [incr] returns *)

(** The carry the counter holds after at most [k] lanes of the nonce field,
    from [nonceInitStart] up: zero as soon as a lane stops it. *)
Definition carry_after (k : nat) (st : lanes) : Z :=
  snd (fst (counter_loop k nonceInitStart 1 st)).

Lemma counter_loop_step n i c l h :
  c <> 0 ->
  counter_loop (S n) i c (l, h)
  = counter_loop n (S i) (Z.land (nth i h 0) (not64 (nth i l 0)))
      (upd i (Z.lxor (nth i h 0) (nth i l 0)) l, upd i (nth i l 0) h).
Proof.
  intros Hc. cbn [counter_loop].
  destruct (Z.eqb_spec c 0) as [C | _]; [contradiction | reflexivity].
Qed.

(** A carry that is still set means that no lane stopped the loop. *)
Lemma counter_loop_carry_out n : forall i c st,
  snd (fst (counter_loop n i c st)) <> 0 ->
  fst (fst (counter_loop n i c st)) = (i + n)%nat.
Proof.
  induction n as [|n IH]; intros i c st.
  - cbn [counter_loop fst snd]. lia.
  - destruct (Z.eq_dec c 0) as [-> | Ne].
    + rewrite counter_loop_no_carry. cbn [fst snd]. contradiction.
    + destruct st as [l h]. rewrite (counter_loop_step n i c l h Ne).
      intros H. rewrite (IH _ _ _ H). lia.
Qed.

(** The loop runs through all of [S m] lanes exactly when the carry is still
    set after the first [m]. *)
Lemma counter_loop_reaches_end m : forall i c st,
  c <> 0 ->
  (fst (fst (counter_loop (S m) i c st)) = (i + S m)%nat
   <-> snd (fst (counter_loop m i c st)) <> 0).
Proof.
  induction m as [|m IH]; intros i c [l h] Hc.
  - rewrite (counter_loop_step 0 i c l h Hc). cbn [counter_loop fst snd].
    split; [intros _; exact Hc | intros _; lia].
  - rewrite (counter_loop_step (S m) i c l h Hc), (counter_loop_step m i c l h Hc).
    set (c' := Z.land (nth i h 0) (not64 (nth i l 0))).
    set (st1 := (upd i (Z.lxor (nth i h 0) (nth i l 0)) l, upd i (nth i l 0) h)).
    destruct (Z.eq_dec c' 0) as [C0 | C1].
    + rewrite C0, !counter_loop_no_carry. cbn [fst snd]. split; [lia | contradiction].
    + replace (i + S (S m))%nat with (S i + S m)%nat by lia.
      apply IH. exact C1.
Qed.

(** C8 (as the code has it): [incr] returns true exactly when its loop runs
    up to the last lane of the nonce field, which is when the carry is still
    set after the lane at index [HashTrinarySize - 2]; a carry that leaves
    the last lane is one such case. *)
Theorem incr_returns_true_iff (st : lanes) :
  (snd (incr st) = true
   <-> carry_after (HashTrinarySize - 1 - nonceInitStart) st <> 0)
  /\ (carry_after (HashTrinarySize - nonceInitStart) st <> 0 -> snd (incr st) = true).
Proof.
  destruct nonce_field_bounds as (N1 & _ & N3 & _).
  assert (E : (HashTrinarySize - nonceInitStart
               = S (HashTrinarySize - 1 - nonceInitStart))%nat) by lia.
  unfold carry_after. split.
  - pose proof (counter_loop_reaches_end (HashTrinarySize - 1 - nonceInitStart)
                  nonceInitStart 1 st ltac:(discriminate)) as R.
    rewrite <- E in R. rewrite <- R. unfold incr.
    destruct (counter_loop (HashTrinarySize - nonceInitStart) nonceInitStart 1 st)
      as [[i c] st'].
    cbn [fst snd]. rewrite Nat.eqb_eq. lia.
  - intros H. apply counter_loop_carry_out in H. unfold incr.
    destruct (counter_loop (HashTrinarySize - nonceInitStart) nonceInitStart 1 st)
      as [[i c] st'].
    cbn [fst snd] in *. apply Nat.eqb_eq. lia.
Qed.

(** A state as [para] writes it: +1 in the lanes 166 to 241 of the nonce
    field, 0 everywhere else, the last lane 242 included. *)
Definition nearly_full_state : lanes :=
  (repeat hBits 166 ++ repeat lBits 76 ++ repeat hBits 487, repeat hBits 729).

(** C8 as stated fails: on this state the last lane takes the carry, going
    from 0 to +1, and no carry leaves the field; [incr] returns true all the
    same. *)
Lemma incr_true_without_carry_out :
  window_is nearly_full_state nonceInitStart (repeat 1 76 ++ [0]) = true
  /\ snd (incr nearly_full_state) = true
  /\ carry_after (HashTrinarySize - nonceInitStart) nearly_full_state = 0
  /\ window_is (fst (incr nearly_full_state)) nonceInitStart (repeat (-1) 76 ++ [1]) = true.
Proof. repeat split; vm_compute; reflexivity. Qed.

(** *** The guard of the proof-of-work function *)

(** C9: the proof-of-work function returns [ErrInvalidTrytesForProofOfWork]
    exactly when its trytes are the empty string; then it returns the empty
    nonce whatever the search would do, the search is not run. *)
Theorem pow_error_iff_empty
  (search search' : Trytes -> Z -> list Z -> option Trytes)
  (trytes : Trytes) (mwm : Z) (parallelism : list Z) :
  ((exists nonce, goProofOfWork search trytes mwm parallelism
                  = Returns nonce (Some ErrInvalidTrytesForProofOfWork))
   <-> trytes = EmptyString)
  /\ ((exists nonce, GoProofOfWork search trytes mwm parallelism
                     = Returns nonce (Some ErrInvalidTrytesForProofOfWork))
      <-> trytes = EmptyString)
  /\ ((exists nonce, SyncGoProofOfWork search trytes mwm parallelism
                     = Returns nonce (Some ErrInvalidTrytesForProofOfWork))
      <-> trytes = EmptyString)
  /\ goProofOfWork search EmptyString mwm parallelism
     = Returns EmptyString (Some ErrInvalidTrytesForProofOfWork)
  /\ goProofOfWork search EmptyString mwm parallelism
     = goProofOfWork search' EmptyString mwm parallelism.
Proof.
  assert (G : (exists nonce, goProofOfWork search trytes mwm parallelism
                             = Returns nonce (Some ErrInvalidTrytesForProofOfWork))
              <-> trytes = EmptyString).
  { unfold goProofOfWork. destruct (String.eqb_spec trytes EmptyString) as [E | NE].
    - split; [intros _; exact E | intros _; eexists; reflexivity].
    - split; [|intros C; contradiction].
      intros [nonce H]. destruct (search trytes mwm parallelism); discriminate H. }
  split; [exact G|]. split; [exact G|]. split; [|split; reflexivity].
  rewrite <- G. unfold SyncGoProofOfWork.
  destruct (goProofOfWork search trytes mwm parallelism) as [nonce [e|]|].
  - split; intros [x H]; inversion H; subst; eexists; reflexivity.
  - split; intros [x H]; discriminate H.
  - split; intros [x H]; discriminate H.
Qed.

(** *** [check] and [seri] *)

(** The first loop of [check]: the probe and-ed with the lanes [i, i + n);
    [None] is the early [return -1]. *)
Fixpoint check_probe (n i : nat) (nonceProbe : Z) (st : lanes) : option Z :=
  match n with
  | O => Some nonceProbe
  | S n' =>
      let nonceProbe :=
        Z.land nonceProbe (not64 (Z.lxor (nth i (fst st) 0) (nth i (snd st) 0))) in
      if nonceProbe =? 0 then None else check_probe n' (S i) nonceProbe st
  end.

(** The second loop of [check], over the bit positions [i, i + n). *)
Fixpoint first_set_bit (n : nat) (i : Z) (nonceProbe : Z) : Z :=
  match n with
  | O => -1
  | S n' =>
      if Z.land (Z.shiftr nonceProbe i) 1 =? 1 then i
      else first_set_bit n' (i + 1) nonceProbe
  end.

(** [check]: the first lane read is [HashTrinarySize - m]; a negative index
    panics. *)
Definition check (st : lanes) (m : Z) : result Z :=
  let start := int64 (Z.of_nat HashTrinarySize - m) in
  if start <? Z.of_nat HashTrinarySize then
    if start <? 0 then Panic
    else
      match check_probe (HashTrinarySize - Z.to_nat start) (Z.to_nat start) hBits st with
      | None => Ok (-1)
      | Some nonceProbe => Ok (first_set_bit 64 0 nonceProbe)
      end
  else Ok (first_set_bit 64 0 hBits).

(** The probe after all the lanes [i, i + n), with no early return. *)
Fixpoint probe_all (n i : nat) (nonceProbe : Z) (st : lanes) : Z :=
  match n with
  | O => nonceProbe
  | S n' =>
      probe_all n' (S i)
        (Z.land nonceProbe (not64 (Z.lxor (nth i (fst st) 0) (nth i (snd st) 0)))) st
  end.

(** The two words of lane [i] agree at bit position [b]. *)
Definition lane_agrees (st : lanes) (b : Z) (i : nat) : bool :=
  Bool.eqb (Z.testbit (nth i (fst st) 0) b) (Z.testbit (nth i (snd st) 0) b).

Lemma probe_all_zero n : forall i st, probe_all n i 0 st = 0.
Proof. induction n as [|n IH]; intros i st; cbn [probe_all]; [reflexivity|]. apply IH. Qed.

Lemma check_probe_all n : forall i p st,
  p <> 0 ->
  check_probe n i p st
  = if probe_all n i p st =? 0 then None else Some (probe_all n i p st).
Proof.
  induction n as [|n IH]; intros i p st Hp; cbn [check_probe probe_all].
  - destruct (Z.eqb_spec p 0); [contradiction | reflexivity].
  - destruct (Z.eqb_spec
                (Z.land p (not64 (Z.lxor (nth i (fst st) 0) (nth i (snd st) 0)))) 0)
      as [E | Ne].
    + rewrite E, probe_all_zero. reflexivity.
    + apply IH. exact Ne.
Qed.

Lemma probe_all_bits n : forall i p st b,
  0 <= b ->
  Z.testbit (probe_all n i p st) b
  = Z.testbit p b && forallb (fun j => (b <? 64) && lane_agrees st b j) (seq i n).
Proof.
  induction n as [|n IH]; intros i p st b Hb; cbn [probe_all seq forallb].
  - rewrite andb_true_r. reflexivity.
  - rewrite IH by exact Hb. rewrite Z.land_spec, testbit_not64, Z.lxor_spec by exact Hb.
    unfold lane_agrees at 2.
    destruct (Z.testbit p b), (b <? 64), (Z.testbit (nth i (fst st) 0) b),
      (Z.testbit (nth i (snd st) 0) b); reflexivity.
Qed.

Lemma first_set_bit_spec n : forall i p,
  0 <= i ->
  (first_set_bit n i p = -1
   /\ forall b, i <= b < i + Z.of_nat n -> Z.testbit p b = false)
  \/ (i <= first_set_bit n i p < i + Z.of_nat n
      /\ Z.testbit p (first_set_bit n i p) = true
      /\ forall b, i <= b < first_set_bit n i p -> Z.testbit p b = false).
Proof.
  induction n as [|n IH]; intros i p Hi; cbn [first_set_bit].
  - left. split; [reflexivity | intros b Hb; lia].
  - rewrite bit_at by exact Hi. destruct (Z.testbit p i) eqn:Ei; cbn [Z.b2z].
    + right. change (1 =? 1) with true. cbv iota.
      split; [lia|]. split; [exact Ei | intros b Hb; lia].
    + change (0 =? 1) with false. cbv iota.
      destruct (IH (i + 1) p ltac:(lia)) as [(E & Z0) | (R & T & Z0)].
      * left. split; [exact E|]. intros b Hb.
        destruct (Z.eq_dec b i) as [-> | Nb]; [exact Ei | apply Z0; lia].
      * right. split; [lia|]. split; [exact T|]. intros b Hb.
        destruct (Z.eq_dec b i) as [-> | Nb]; [exact Ei | apply Z0; lia].
Qed.

(** [seri] reads the trit 0 exactly where the two words agree. *)
Lemma seri_lane_zero st n i :
  0 <= n -> (seri_lane st n i = 0 <-> lane_agrees st n i = true).
Proof.
  intros Hn. unfold seri_lane, lane_agrees. rewrite !bit_at by exact Hn.
  destruct (Z.testbit (nth i (fst st) 0) n), (Z.testbit (nth i (snd st) 0) n);
    cbn; split; intros H; try reflexivity; discriminate H.
Qed.

Lemma forallb_false_witness {A} (f : A -> bool) (l : list A) :
  forallb f l = false -> exists x, In x l /\ f x = false.
Proof.
  induction l as [|x l IH]; intros H; [discriminate H|].
  cbn [forallb] in H. destruct (f x) eqn:Fx.
  - destruct (IH H) as (y & Iy & Fy). exists y. split; [right; exact Iy | exact Fy].
  - exists x. split; [left; reflexivity | exact Fx].
Qed.

(** What [check] answers for [0 <= m <= 243]. *)
Lemma check_cases (st : lanes) (m : Z) :
  0 <= m <= Z.of_nat HashTrinarySize ->
  exists r, check st m = Ok r /\ -1 <= r < 64
    /\ (0 <= r ->
        forall i, (HashTrinarySize - Z.to_nat m <= i < HashTrinarySize)%nat ->
          seri_lane st r i = 0)
    /\ (forall n, 0 <= n < 64 -> r = -1 \/ n < r ->
        exists i, (HashTrinarySize - Z.to_nat m <= i < HashTrinarySize)%nat
          /\ seri_lane st n i <> 0).
Proof.
  intros Hm. unfold check.
  assert (S : int64 (Z.of_nat HashTrinarySize - m) = Z.of_nat HashTrinarySize - m).
  { apply int64_small. unfold in_int64, MinInt64, MaxInt64, HashTrinarySize in *. lia. }
  rewrite S. clear S.
  set (lo := (HashTrinarySize - Z.to_nat m)%nat).
  assert (Elo : Z.to_nat (Z.of_nat HashTrinarySize - m) = lo) by (subst lo; lia).
  assert (Ecount : (HashTrinarySize - lo)%nat = Z.to_nat m) by (subst lo; lia).
  assert (Range : forall i, In i (seq lo (Z.to_nat m))
                    <-> (lo <= i < HashTrinarySize)%nat).
  { intros i. rewrite in_seq. subst lo. lia. }
  assert (Bits : forall b, 0 <= b ->
            Z.testbit (probe_all (Z.to_nat m) lo hBits st) b
            = (b <? 64) && forallb (fun j => (b <? 64) && lane_agrees st b j)
                             (seq lo (Z.to_nat m))).
  { intros b Hb. rewrite probe_all_bits, testbit_hBits by exact Hb. reflexivity. }
  assert (Low : forall b, 0 <= b < 64 ->
            Z.testbit (probe_all (Z.to_nat m) lo hBits st) b = false ->
            exists i, (lo <= i < HashTrinarySize)%nat /\ seri_lane st b i <> 0).
  { intros b Hb F. rewrite (Bits b) in F by lia.
    destruct (Z.ltb_spec b 64) as [_ | C]; [|lia]. cbn [andb] in F.
    destruct (forallb_false_witness _ _ F) as (i & Ii & Fi).
    exists i. split; [apply Range; exact Ii|].
    intros Z0. apply seri_lane_zero in Z0; [|lia]. congruence. }
  assert (High : forall b, 0 <= b ->
            Z.testbit (probe_all (Z.to_nat m) lo hBits st) b = true ->
            b < 64 /\ forall i, (lo <= i < HashTrinarySize)%nat -> seri_lane st b i = 0).
  { intros b Hb T. rewrite (Bits b) in T by lia.
    apply andb_true_iff in T. destruct T as [T1 T2].
    apply Z.ltb_lt in T1. split; [exact T1|]. intros i Hi.
    apply seri_lane_zero; [lia|].
    rewrite forallb_forall in T2. specialize (T2 i (proj2 (Range i) Hi)).
    apply andb_true_iff in T2. apply T2. }
  destruct (Z.ltb_spec (Z.of_nat HashTrinarySize - m) (Z.of_nat HashTrinarySize))
    as [Pos | Zero].
  + destruct (Z.ltb_spec (Z.of_nat HashTrinarySize - m) 0) as [C | _]; [lia|].
    rewrite Elo, Ecount, check_probe_all by discriminate.
    set (q := probe_all (Z.to_nat m) lo hBits st) in *.
    destruct (Z.eqb_spec q 0) as [Q0 | Qn].
    * exists (-1). split; [reflexivity|]. split; [lia|]. split; [intros C; lia|].
      intros n Hn _. apply Low; [exact Hn|]. rewrite Q0. apply Z.bits_0.
    * destruct (first_set_bit_spec 64 0 q (Z.le_refl 0)) as [(E & Z0) | (R & T & Z0)].
      -- exfalso. apply Qn. apply Z.bits_inj'. intros b Hb. rewrite Z.bits_0.
         destruct (Z.lt_ge_cases b 64) as [L | G]; [apply Z0; lia|].
         destruct (Z.testbit q b) eqn:Eb; [|reflexivity].
         destruct (High b Hb Eb) as [C _]. lia.
      -- exists (first_set_bit 64 0 q). split; [reflexivity|].
         change (0 + Z.of_nat 64) with 64 in R. split; [lia|]. split.
         ++ intros _. apply (High _ (proj1 R) T).
         ++ intros n Hn [C | Lt]; [lia|]. apply Low; [exact Hn|]. apply Z0. lia.
  + assert (M0 : m = 0) by lia. subst m.
    exists 0. split; [reflexivity|]. split; [lia|]. split.
    * intros _ i Hi. subst lo. change (Z.to_nat 0) with 0%nat in Hi. lia.
    * intros n Hn [C | Lt]; lia.
Qed.

(** X9: for [0 <= m <= 243], [check] returns the lowest bit position at
    which the last [m] lanes of the hash all read as the trit 0, and -1
    exactly when every bit position has a lane among them that reads
    otherwise; the [return -1] after its second loop is never reached.  A
    larger [m] makes the first read panic. *)
Theorem check_finds_lowest_zero_position (st : lanes) (m : Z) :
  (0 <= m <= Z.of_nat HashTrinarySize ->
   exists r, check st m = Ok r /\ -1 <= r < 64
     /\ (0 <= r ->
         forall i, (HashTrinarySize - Z.to_nat m <= i < HashTrinarySize)%nat ->
           seri_lane st r i = 0)
     /\ (forall n, 0 <= n < 64 -> r = -1 \/ n < r ->
         exists i, (HashTrinarySize - Z.to_nat m <= i < HashTrinarySize)%nat
           /\ seri_lane st n i <> 0))
  /\ (Z.of_nat HashTrinarySize < m <= MaxInt64 -> check st m = Panic).
Proof.
  split.
  - apply check_cases.
  - intros Hm. unfold check.
    assert (S : int64 (Z.of_nat HashTrinarySize - m) = Z.of_nat HashTrinarySize - m).
    { apply int64_small. unfold in_int64, MinInt64, MaxInt64, HashTrinarySize in *. lia. }
    rewrite S.
    destruct (Z.ltb_spec (Z.of_nat HashTrinarySize - m) (Z.of_nat HashTrinarySize)); [|lia].
    destruct (Z.ltb_spec (Z.of_nat HashTrinarySize - m) 0); [reflexivity | lia].
Qed.

Lemma seri_lane_valid st n i : ValidTrit (seri_lane st n i) = true.
Proof.
  unfold seri_lane.
  destruct ((Z.land (Z.shiftr (nth i (snd st) 0) n) 1 =? 0)
            && (Z.land (Z.shiftr (nth i (fst st) 0) n) 1 =? 1)); [reflexivity|].
  destruct ((Z.land (Z.shiftr (nth i (snd st) 0) n) 1 =? 1)
            && (Z.land (Z.shiftr (nth i (fst st) 0) n) 1 =? 1)); [reflexivity|].
  destruct ((Z.land (Z.shiftr (nth i (snd st) 0) n) 1 =? 1)
            && (Z.land (Z.shiftr (nth i (fst st) 0) n) 1 =? 0)); reflexivity.
Qed.

(** X10: whatever the arrays hold, [seri] returns [NonceTrinarySize] valid
    trits, so [MustTritsToTrytes] turns the nonce into 27 valid trytes without
    a panic, and they convert back to the same trits.  Where the two words of
    a lane are not both 0 at the bit position, the trit read determines both
    bits: l is 0 only for +1 and h is 0 only for -1. *)
Theorem seri_gives_a_nonce (st : lanes) (n : Z) :
  length (seri st n) = NonceTrinarySize
  /\ valid_trits (seri st n)
  /\ (exists s, MustTritsToTrytes (seri st n) = Ok s
        /\ String.length s = 27%nat /\ ValidTrytes s = Ok tt
        /\ TrytesToTrits s = Ok (seri st n))
  /\ (forall i, 0 <= n ->
        Z.testbit (Z.lor (nth i (fst st) 0) (nth i (snd st) 0)) n = true ->
        Z.testbit (nth i (fst st) 0) n = negb (seri_lane st n i =? 1)
        /\ Z.testbit (nth i (snd st) 0) n = negb (seri_lane st n i =? -1)).
Proof.
  assert (L : length (seri st n) = NonceTrinarySize).
  { unfold seri. rewrite length_map, length_seq. reflexivity. }
  assert (V : valid_trits (seri st n)).
  { unfold seri, valid_trits. apply Forall_forall. intros x Hx.
    apply in_map_iff in Hx. destruct Hx as (i & <- & _). apply seri_lane_valid. }
  split; [exact L|]. split; [exact V|]. split.
  - destruct (trits_to_trytes_loop_spec 27 (seri st n) L V) as (s & Es & Ls & Cs & Ds).
    exists s. unfold MustTritsToTrytes, TritsToTrytes, CanTritsToTrytes.
    rewrite L. change (negb _) with false. cbv iota. rewrite Es.
    split; [reflexivity|]. split; [exact Ls|].
    assert (Vs : ValidTrytes s = Ok tt).
    { unfold ValidTrytes. destruct s as [|c s]; [discriminate Ls|].
      rewrite Cs. reflexivity. }
    split; [exact Vs|]. unfold TrytesToTrits. rewrite Vs. exact Ds.
  - intros i Hn U. rewrite Z.lor_spec in U. unfold seri_lane.
    rewrite !bit_at by exact Hn.
    destruct (Z.testbit (nth i (fst st) 0) n), (Z.testbit (nth i (snd st) 0) n);
      try discriminate U; split; reflexivity.
Qed.

(** *** The seed lanes *)

(** The lanes [nonceOffset .. nonceOffset + 3] hold the seed constants, in
    arrays of [StateSize] words. *)
Definition seeded (st : lanes) : Prop :=
  length (fst st) = StateSize /\ length (snd st) = StateSize
  /\ forall p, (p < 4)%nat ->
       nth (nonceOffset + p) (fst st) 0 = nth p [low0; low1; low2; low3] 0
       /\ nth (nonceOffset + p) (snd st) 0 = nth p [high0; high1; high2; high3] 0.

(** The trit at place [p] of the number [n] written in base 3 with the
    digit 2 replaced by -1. *)
Definition seed_digit (n : Z) (p : nat) : Z :=
  let d := (n / 3 ^ Z.of_nat p) mod 3 in
  if d =? 2 then -1 else d.

(** The bit position a four-trit prefix belongs to. *)
Definition seed_position (prefix : Trits) : Z :=
  fold_right (fun t acc => (if t =? -1 then 2 else t) + 3 * acc) 0 prefix.

Lemma seed_nonce_seeded st :
  length (fst st) = StateSize -> length (snd st) = StateSize -> seeded (seed_nonce st).
Proof.
  destruct st as [l h]. cbn [fst snd]. intros Ll Lh. unfold seeded, seed_nonce.
  cbn [fst snd]. rewrite !upd_length. split; [exact Ll|]. split; [exact Lh|].
  change nonceOffset with 162%nat. unfold StateSize in Ll, Lh.
  intros p Hp.
  destruct p as [|[|[|[|p]]]]; [| | | |lia]; cbn [nth Nat.add];
    (split; repeat (rewrite nth_upd_other by lia);
     apply nth_upd_same; rewrite ?upd_length; lia).
Qed.

Lemma counter_loop_seeded n c st :
  seeded st -> seeded (snd (counter_loop n nonceInitStart c st)).
Proof.
  intros (Ll & Lh & S).
  destruct (counter_loop_frame n nonceInitStart c st) as (F & Ll' & Lh').
  split; [congruence|]. split; [congruence|].
  intros p Hp. destruct (F (nonceOffset + p)%nat) as [Fl Fh].
  { unfold nonceInitStart. lia. }
  rewrite Fl, Fh. apply S, Hp.
Qed.

Lemma incr_state st :
  fst (incr st) = snd (counter_loop (HashTrinarySize - nonceInitStart) nonceInitStart 1 st).
Proof.
  unfold incr.
  destruct (counter_loop (HashTrinarySize - nonceInitStart) nonceInitStart 1 st)
    as [[i c] st'].
  reflexivity.
Qed.

Lemma incrN_seeded k st : seeded st -> seeded (incrN k st).
Proof.
  intros S. induction k as [|k IH]; [exact S|].
  rewrite incrN_succ. unfold incrN_turn. apply counter_loop_seeded, IH.
Qed.

Lemma incr_iter_seeded j st : seeded st -> seeded (Nat.iter j (fun s => fst (incr s)) st).
Proof.
  intros S. induction j as [|j IH]; [exact S|].
  rewrite Nat.iter_succ, incr_state. apply counter_loop_seeded, IH.
Qed.

Lemma seri_lane_ext st st' n i :
  nth i (fst st) 0 = nth i (fst st') 0 -> nth i (snd st) 0 = nth i (snd st') 0 ->
  seri_lane st n i = seri_lane st' n i.
Proof. unfold seri_lane. intros -> ->. reflexivity. Qed.

Lemma below_64 (P : Z -> bool) :
  forallb (fun i => P (Z.of_nat i)) (seq 0 64) = true ->
  forall n, 0 <= n < 64 -> P n = true.
Proof.
  intros H n Hn. rewrite forallb_forall in H.
  specialize (H (Z.to_nat n)). rewrite Z2Nat.id in H by lia.
  apply H, in_seq. lia.
Qed.

(** The arrays of a worker before its first [incrN]. *)
Definition seed_lanes : lanes :=
  seed_nonce (repeat 0 StateSize, repeat 0 StateSize).

Lemma seed_lanes_digits n :
  0 <= n < 64 ->
  map (seri_lane seed_lanes n) (seq nonceOffset 4) = map (seed_digit n) (seq 0 4)
  /\ seed_position (map (seed_digit n) (seq 0 4)) = n.
Proof.
  intros Hn.
  pose proof (below_64
    (fun n => (if list_eq_dec Z.eq_dec
                    (map (seri_lane seed_lanes n) (seq nonceOffset 4))
                    (map (seed_digit n) (seq 0 4)) then true else false)
              && (seed_position (map (seed_digit n) (seq 0 4)) =? n))) as B.
  cbv beta in B. specialize (B ltac:(vm_compute; reflexivity) n Hn).
  apply andb_true_iff in B. destruct B as [B1 B2].
  destruct (list_eq_dec Z.eq_dec (map (seri_lane seed_lanes n) (seq nonceOffset 4))
              (map (seed_digit n) (seq 0 4))) as [E | _]; [|discriminate B1].
  split; [exact E | apply Z.eqb_eq, B2].
Qed.

(** X11: the four seed lanes give the 64 bit positions 64 different
    prefixes, position [n] the digits of [n] in base 3 (2 written as -1), and
    neither [incrN] nor [incr] ever touches them: after any number of calls
    the 64 nonces [seri] can read are pairwise different. *)
Theorem seeded_positions_stay_distinct (st : lanes) (k j : nat) (n : Z) :
  length (fst st) = StateSize -> length (snd st) = StateSize -> 0 <= n < 64 ->
  firstn 4 (seri (Nat.iter j (fun s => fst (incr s)) (incrN k (seed_nonce st))) n)
  = map (seed_digit n) (seq 0 4)
  /\ forall n', 0 <= n' < 64 ->
       seri (Nat.iter j (fun s => fst (incr s)) (incrN k (seed_nonce st))) n
       = seri (Nat.iter j (fun s => fst (incr s)) (incrN k (seed_nonce st))) n' ->
       n = n'.
Proof.
  intros Ll Lh Hn.
  set (st' := Nat.iter j (fun s => fst (incr s)) (incrN k (seed_nonce st))).
  assert (S : seeded st').
  { subst st'. apply incr_iter_seeded, incrN_seeded, seed_nonce_seeded; assumption. }
  assert (S0 : seeded seed_lanes).
  { apply seed_nonce_seeded; apply repeat_length. }
  assert (P : forall b, 0 <= b < 64 ->
            firstn 4 (seri st' b) = map (seed_digit b) (seq 0 4)).
  { intros b Hb. destruct (seed_lanes_digits b Hb) as [<- _].
    unfold seri. rewrite firstn_map.
    change (firstn 4 (seq nonceOffset (HashTrinarySize - nonceOffset)))
      with (seq nonceOffset 4).
    apply map_ext_in. intros i Hi. apply in_seq in Hi.
    destruct S as (_ & _ & S). destruct S0 as (_ & _ & S0).
    replace i with (nonceOffset + (i - nonceOffset))%nat by lia.
    destruct (S (i - nonceOffset)%nat ltac:(lia)) as [El Eh].
    destruct (S0 (i - nonceOffset)%nat ltac:(lia)) as [El0 Eh0].
    apply seri_lane_ext; congruence. }
  split; [apply P, Hn|].
  intros n' Hn' E.
  destruct (seed_lanes_digits n Hn) as [_ <-].
  destruct (seed_lanes_digits n' Hn') as [_ <-].
  rewrite <- (P n Hn), <- (P n' Hn'), E. reflexivity.
Qed.

Lemma seeded_positions_stay_distinct_witness :
  firstn 4 (seri (Nat.iter 1 (fun s => fst (incr s))
                    (incrN 2 (seed_nonce (repeat hBits 729, repeat hBits 729)))) 5)
  = map (seed_digit 5) (seq 0 4)
  /\ forall n', 0 <= n' < 64 ->
       seri (Nat.iter 1 (fun s => fst (incr s))
               (incrN 2 (seed_nonce (repeat hBits 729, repeat hBits 729)))) 5
       = seri (Nat.iter 1 (fun s => fst (incr s))
                 (incrN 2 (seed_nonce (repeat hBits 729, repeat hBits 729)))) n' ->
       5 = n'.
Proof.
  apply (seeded_positions_stay_distinct (repeat hBits 729, repeat hBits 729) 2 1 5).
  - reflexivity.
  - reflexivity.
  - lia.
Defined.

(** *** The workers of [goProofOfWork] *)

(** Once the carry is 0 the loop has stopped: more lanes change nothing. *)
Lemma counter_loop_stopped n : forall m i c st,
  snd (fst (counter_loop n i c st)) = 0 ->
  counter_loop (n + m) i c st = counter_loop n i c st.
Proof.
  induction n as [|n IH]; intros m i c st H.
  - cbn [counter_loop fst snd] in H. subst c. cbn [Nat.add counter_loop].
    apply counter_loop_no_carry.
  - destruct (Z.eq_dec c 0) as [-> | Ne].
    + rewrite !counter_loop_no_carry. reflexivity.
    + destruct st as [l h]. change (S n + m)%nat with (S (n + m)).
      rewrite (counter_loop_step (n + m) i c l h Ne).
      rewrite (counter_loop_step n i c l h Ne) in *.
      apply IH. exact H.
Qed.

Lemma counter_loop_index n : forall i c st,
  (i <= fst (fst (counter_loop n i c st)) <= i + n)%nat.
Proof.
  induction n as [|n IH]; intros i c st.
  - cbn [counter_loop fst]. lia.
  - destruct (Z.eq_dec c 0) as [-> | Ne].
    + rewrite counter_loop_no_carry. cbn [fst]. lia.
    + destruct st as [l h]. rewrite (counter_loop_step n i c l h Ne).
      specialize (IH (S i) (Z.land (nth i h 0) (not64 (nth i l 0)))
                    (upd i (Z.lxor (nth i h 0) (nth i l 0)) l, upd i (nth i l 0) h)).
      lia.
Qed.

(** On a window of uniform lanes the carry leaves only when every trit
    is +1. *)
Lemma counter_loop_window_carry ts : forall lo c st,
  window_is st lo ts = true -> c <> 0 ->
  forallb (fun x => x =? 1) ts = false ->
  snd (fst (counter_loop (length ts) lo c st)) = 0.
Proof.
  induction ts as [|t ts IH]; intros lo c [l h] W Hc A; [discriminate A|].
  cbn [length]. rewrite (counter_loop_step (length ts) lo c l h Hc).
  cbn [window_is fst snd] in W.
  apply andb_true_iff in W. destruct W as [W Wr].
  apply andb_true_iff in W. destruct W as [W Wh].
  apply andb_true_iff in W. destruct W as [Wt Wl].
  apply Z.eqb_eq in Wl, Wh. rewrite Wl, Wh.
  cbn [forallb] in A.
  destruct (Z.eqb_spec t 1) as [-> | Ne].
  - cbn [andb] in A.
    change (Z.land (snd (para_lane 1)) (not64 (fst (para_lane 1)))) with hBits.
    apply IH; [|discriminate | exact A].
    rewrite <- Wr. apply window_is_ext. intros j Hj. cbn [fst snd].
    rewrite !nth_upd_other by lia. split; reflexivity.
  - assert (C0 : Z.land (snd (para_lane t)) (not64 (fst (para_lane t))) = 0).
    { trit_cases Wt; [reflexivity | reflexivity | contradiction]. }
    rewrite C0, counter_loop_no_carry. reflexivity.
Qed.

(** A loop that stops within its first [n] lanes, short of [last], ends as
    the loop over those [n] lanes. *)
Lemma counter_loop_short n m i0 last st :
  snd (fst (counter_loop n i0 1 st)) = 0 -> (i0 + n < last)%nat ->
  (let '(i, _, st') := counter_loop (n + m) i0 1 st in (st', (i =? last)%nat))
  = (snd (counter_loop n i0 1 st), false).
Proof.
  intros C B. rewrite (counter_loop_stopped n m i0 1 st C).
  pose proof (counter_loop_index n i0 1 st) as I.
  destruct (counter_loop n i0 1 st) as [[i c] st'].
  cbn [fst snd] in *. f_equal. apply Nat.eqb_neq. lia.
Qed.

Lemma carry_after_eq k st :
  carry_after k st = snd (fst (counter_loop k nonceInitStart 1 st)).
Proof. reflexivity. Qed.

(** When the carry stops inside the window of [incrN], [incr] does what one
    turn of [incrN] does. *)
Lemma incr_stopped st :
  carry_after (nonceIncrementStart - nonceInitStart) st = 0 ->
  incr st = (incrN_turn st, false).
Proof.
  intros C. rewrite carry_after_eq in C. unfold incr, incrN_turn.
  assert (E : (HashTrinarySize - nonceInitStart
               = (nonceIncrementStart - nonceInitStart) + 50)%nat) by reflexivity.
  rewrite E.
  apply counter_loop_short; [exact C | apply Nat.ltb_lt; reflexivity].
Qed.

(** X12: the workers walk one sequence of states.  On a nonce field of
    uniform lanes, as [para] leaves it, a call of [incr] after [k] turns of
    [incrN] gives the state of [k + 1] turns and returns false, as long as
    the 27 trits [incrN] counts on are not all +1; so the [j]-th state worker
    [k] examines is the state of [k + j] turns, the one worker [k + 1]
    examines a step earlier. *)
Theorem incr_after_incrN (st : lanes) (ts : Trits) (k j : nat) :
  length (fst st) = StateSize -> length (snd st) = StateSize ->
  length ts = (nonceIncrementStart - nonceInitStart)%nat ->
  window_is st nonceInitStart ts = true ->
  (forall i, (k <= i < k + j)%nat ->
     forallb (fun x => x =? 1) (Nat.iter i trits_succ ts) = false) ->
  Nat.iter j (fun s => fst (incr s)) (incrN k st) = incrN (k + j) st
  /\ (forall i, (i < j)%nat ->
        snd (incr (Nat.iter i (fun s => fst (incr s)) (incrN k st))) = false).
Proof.
  intros Ll Lh Lts W.
  assert (Step : forall i,
            forallb (fun x => x =? 1) (Nat.iter i trits_succ ts) = false ->
            incr (incrN i st) = (incrN (S i) st, false)).
  { intros i A. rewrite incrN_succ. apply incr_stopped. rewrite carry_after_eq.
    destruct (incrN_window i st ts Ll Lh Lts W) as (_ & _ & Wi).
    rewrite <- Lts, <- (trits_succ_iter_length i ts).
    apply counter_loop_window_carry; [exact Wi | discriminate | exact A]. }
  induction j as [|j IH]; intros A.
  - split; [rewrite Nat.add_0_r; reflexivity | intros i Hi; lia].
  - destruct IH as [E F]; [intros i Hi; apply A; lia|].
    split.
    + rewrite Nat.iter_succ, E, (Step (k + j)%nat) by (apply A; lia).
      cbn [fst]. f_equal. lia.
    + intros i Hi. destruct (Nat.eq_dec i j) as [-> | Ni]; [|apply F; lia].
      rewrite E, (Step (k + j)%nat) by (apply A; lia). reflexivity.
Qed.

Lemma incr_after_incrN_witness :
  Nat.iter 1 (fun s => fst (incr s)) (incrN 1 (repeat hBits 729, repeat hBits 729))
  = incrN (1 + 1) (repeat hBits 729, repeat hBits 729)
  /\ (forall i, (i < 1)%nat ->
        snd (incr (Nat.iter i (fun s => fst (incr s))
                     (incrN 1 (repeat hBits 729, repeat hBits 729)))) = false).
Proof.
  apply (incr_after_incrN (repeat hBits 729, repeat hBits 729) (repeat 0 27) 1 1).
  - reflexivity.
  - reflexivity.
  - reflexivity.
  - vm_compute. reflexivity.
  - intros i Hi. replace i with 1%nat by lia. vm_compute. reflexivity.
Defined.

(** Lane [i] holds one valid trit at all 64 bit positions. *)
Definition uniform_lane (st : lanes) (i : nat) : Prop :=
  exists t, ValidTrit t = true
    /\ nth i (fst st) 0 = fst (para_lane t) /\ nth i (snd st) 0 = snd (para_lane t).

(** The arrays of a worker: [StateSize] words each, the lanes from
    [nonceInitStart] on uniform. *)
Definition uniform_field (st : lanes) : Prop :=
  length (fst st) = StateSize /\ length (snd st) = StateSize
  /\ forall i, (nonceInitStart <= i < StateSize)%nat -> uniform_lane st i.

(** The counter step takes the words of a trit to the words of a trit. *)
Lemma counter_step_uniform t :
  ValidTrit t = true ->
  exists t', ValidTrit t' = true
    /\ Z.lxor (snd (para_lane t)) (fst (para_lane t)) = fst (para_lane t')
    /\ fst (para_lane t) = snd (para_lane t').
Proof.
  intros H. trit_cases H; [exists 0 | exists 1 | exists (-1)]; repeat split.
Qed.

Lemma counter_loop_uniform n : forall i c st,
  (nonceInitStart <= i)%nat -> uniform_field st ->
  uniform_field (snd (counter_loop n i c st)).
Proof.
  induction n as [|n IH]; intros i c st Hi U; [exact U|].
  destruct (Z.eq_dec c 0) as [-> | Ne]; [rewrite counter_loop_no_carry; exact U|].
  destruct st as [l h]. rewrite (counter_loop_step n i c l h Ne).
  apply IH; [lia|].
  destruct U as (Ll & Lh & U). cbn [fst snd] in Ll, Lh.
  split; [cbn [fst]; rewrite upd_length; exact Ll|].
  split; [cbn [snd]; rewrite upd_length; exact Lh|].
  intros j Hj. destruct (U j Hj) as (t & Vt & El & Eh). cbn [fst snd] in El, Eh.
  destruct (Nat.eq_dec i j) as [-> | Nj].
  - destruct (counter_step_uniform t Vt) as (t' & Vt' & E1 & E2).
    exists t'. cbn [fst snd]. rewrite !nth_upd_same by lia.
    rewrite El, Eh. split; [exact Vt'|]. split; [exact E1 | exact E2].
  - exists t. cbn [fst snd]. rewrite !nth_upd_other by exact Nj.
    split; [exact Vt|]. split; [exact El | exact Eh].
Qed.

(** Uniform lanes hold a window of trits. *)
Lemma uniform_window len : forall st lo,
  (forall i, (lo <= i < lo + len)%nat -> uniform_lane st i) ->
  exists ts, length ts = len /\ window_is st lo ts = true.
Proof.
  induction len as [|len IH]; intros st lo U.
  - exists []. split; reflexivity.
  - destruct (U lo ltac:(lia)) as (t & Vt & El & Eh).
    destruct (IH st (S lo)) as (ts & L & W); [intros i Hi; apply U; lia|].
    exists (t :: ts). split; [cbn [length]; congruence|].
    cbn [window_is]. rewrite Vt, El, Eh, W, !Z.eqb_refl. reflexivity.
Qed.

Lemma worker_lanes_uniform (trits : Trits) :
  valid_trits trits -> (StateSize <= length trits)%nat ->
  uniform_field (worker_lanes trits).
Proof.
  intros V L.
  set (ts := firstn StateSize trits).
  assert (Lts : length ts = StateSize) by (subst ts; rewrite length_firstn; lia).
  assert (Vts : valid_trits ts) by (subst ts; apply Forall_firstn; exact V).
  assert (E : worker_lanes trits
              = seed_nonce (map fst (map para_lane ts), map snd (map para_lane ts))).
  { unfold worker_lanes, para.
    destruct (Nat.ltb_spec (length trits) StateSize) as [C | _]; [lia | reflexivity]. }
  rewrite E. unfold seed_nonce, uniform_field. cbn [fst snd].
  rewrite !upd_length, !length_map.
  split; [exact Lts|]. split; [exact Lts|].
  intros i Hi. exists (nth i ts 0). split; [apply nth_valid; exact Vts|].
  cbn [fst snd]. rewrite !nth_upd_other by (unfold nonceInitStart in Hi; lia).
  apply para_lanes_nth. lia.
Qed.

(** Every state a worker examines has a nonce field of uniform lanes.  The
    arrays [para] and the seed lanes give for [StateSize] valid trits, after
    any number of turns of [incrN] and any number of calls of [incr], hold
    one trit per lane from [nonceInitStart] on: the counter never meets
    lanes that differ from one bit position to another. *)
Lemma search_lanes_uniform (trits : Trits) (k j : nat) :
  valid_trits trits -> (StateSize <= length trits)%nat ->
  exists ts,
    length ts = (HashTrinarySize - nonceInitStart)%nat
    /\ length (fst (Nat.iter j (fun s => fst (incr s)) (incrN k (worker_lanes trits))))
       = StateSize
    /\ length (snd (Nat.iter j (fun s => fst (incr s)) (incrN k (worker_lanes trits))))
       = StateSize
    /\ window_is (Nat.iter j (fun s => fst (incr s)) (incrN k (worker_lanes trits)))
         nonceInitStart ts = true.
Proof.
  intros V L.
  assert (U0 : uniform_field (worker_lanes trits)) by (apply worker_lanes_uniform; assumption).
  assert (Uk : uniform_field (incrN k (worker_lanes trits))).
  { induction k as [|k IH]; [exact U0|].
    rewrite incrN_succ. unfold incrN_turn. apply counter_loop_uniform; [lia | exact IH]. }
  assert (Uj : uniform_field (Nat.iter j (fun s => fst (incr s)) (incrN k (worker_lanes trits)))).
  { induction j as [|j IH]; [exact Uk|].
    rewrite Nat.iter_succ, incr_state. apply counter_loop_uniform; [lia | exact IH]. }
  destruct Uj as (Ll & Lh & U).
  destruct nonce_field_bounds as (N1 & N2 & N3 & N4).
  destruct (uniform_window (HashTrinarySize - nonceInitStart)
              (Nat.iter j (fun s => fst (incr s)) (incrN k (worker_lanes trits)))
              nonceInitStart) as (ts & Lt & W).
  { intros i Hi. apply U. lia. }
  exists ts. split; [exact Lt|]. split; [exact Ll|]. split; [exact Lh | exact W].
Qed.

(** *** The number of workers *)

(** [init]: the default parallelism, from [runtime.NumCPU()]. *)
Definition init_parallelism (numCPU : Z) : Z :=
  let defaultProofOfWorkParallelism := numCPU in
  if negb (defaultProofOfWorkParallelism =? 1)
  then int64 (defaultProofOfWorkParallelism - 1)
  else defaultProofOfWorkParallelism.

(** [proofOfWorkParallelism] *)
Definition proofOfWorkParallelism (defaultProofOfWorkParallelism : Z) (parallelism : list Z)
  : Z :=
  match parallelism with
  | p :: _ => if p >? 0 then p else defaultProofOfWorkParallelism
  | [] => defaultProofOfWorkParallelism
  end.

(** X16: on a machine with at least one CPU [goProofOfWork] always starts
    at least one worker: the default is [max(1, NumCPU - 1)], and the option
    replaces it only when its first element is positive, the other elements
    being ignored. *)
Theorem proofOfWorkParallelism_is_positive (numCPU : Z) (parallelism : list Z) :
  1 <= numCPU <= MaxInt64 ->
  init_parallelism numCPU = Z.max 1 (numCPU - 1)
  /\ 1 <= proofOfWorkParallelism (init_parallelism numCPU) parallelism
  /\ proofOfWorkParallelism (init_parallelism numCPU) parallelism
     = (if 0 <? hd 0 parallelism then hd 0 parallelism else Z.max 1 (numCPU - 1)).
Proof.
  intros H.
  assert (E : init_parallelism numCPU = Z.max 1 (numCPU - 1)).
  { unfold init_parallelism. destruct (Z.eqb_spec numCPU 1) as [-> | Ne]; cbn [negb].
    - reflexivity.
    - rewrite int64_small by (unfold in_int64, MinInt64, MaxInt64 in *; lia). lia. }
  rewrite E. split; [reflexivity|].
  unfold proofOfWorkParallelism. destruct parallelism as [|p rest]; cbn [hd].
  - change (0 <? 0) with false. cbv iota. split; [lia | reflexivity].
  - rewrite Z.gtb_ltb. destruct (Z.ltb_spec 0 p); split; try reflexivity; lia.
Qed.

Lemma proofOfWorkParallelism_is_positive_witness :
  init_parallelism 8 = Z.max 1 (8 - 1)
  /\ 1 <= proofOfWorkParallelism (init_parallelism 8) [0; 3]
  /\ proofOfWorkParallelism (init_parallelism 8) [0; 3]
     = (if 0 <? hd 0 [0; 3] then hd 0 [0; 3] else Z.max 1 (8 - 1)).
Proof.
  apply (proofOfWorkParallelism_is_positive 8 [0; 3]). vm_compute.
  split; discriminate.
Defined.

(** *** [para] and [seri] *)

Lemma para_window ts post : forall pre,
  valid_trits ts ->
  window_is (map fst (map para_lane (pre ++ ts ++ post)),
             map snd (map para_lane (pre ++ ts ++ post))) (length pre) ts = true.
Proof.
  induction ts as [|t ts IH]; intros pre V; [reflexivity|].
  inversion V as [|? ? Vt Vr]; subst.
  cbn [window_is fst snd].
  destruct (para_lanes_nth (pre ++ (t :: ts) ++ post) (length pre)) as [El Eh].
  { rewrite length_app. cbn [app length]. lia. }
  cbn [app] in El, Eh. rewrite nth_middle in El, Eh.
  cbn [app]. rewrite El, Eh, Vt, !Z.eqb_refl. cbn [andb].
  specialize (IH (pre ++ [t]) Vr).
  rewrite <- app_assoc in IH. cbn [app] in IH.
  rewrite length_app in IH. cbn [length] in IH.
  replace (length pre + 1)%nat with (S (length pre)) in IH by lia.
  exact IH.
Qed.

(** X17: [seri] undoes [para].  For at least [StateSize] valid trits,
    [para] returns arrays in which every bit position of lane [i] holds trit
    [i], so at each of the 64 positions the lanes read back as the first
    [StateSize] trits and [seri] returns the trits [nonceOffset ..
    HashTrinarySize) of the input; fewer trits make [para] panic. *)
Theorem seri_of_para (inp : Trits) (n : Z) :
  ((length inp < StateSize)%nat -> para inp = Panic)
  /\ (valid_trits inp -> (StateSize <= length inp)%nat -> 0 <= n < 64 ->
      exists st, para inp = Ok st
        /\ window_trits st 0 StateSize n = firstn StateSize inp
        /\ seri st n = firstn NonceTrinarySize (skipn nonceOffset inp)).
Proof.
  split.
  - intros L. unfold para. apply Nat.ltb_lt in L. rewrite L. reflexivity.
  - intros V L Hn. unfold para.
    destruct (Nat.ltb_spec (length inp) StateSize) as [C | _]; [lia|].
    eexists. split; [reflexivity|].
    set (ts := firstn StateSize inp).
    assert (Lts : length ts = StateSize) by (subst ts; rewrite length_firstn; lia).
    assert (Vts : valid_trits ts) by (subst ts; apply Forall_firstn; exact V).
    split.
    + pose proof (para_window ts [] [] Vts) as W.
      cbn [app length] in W. rewrite app_nil_r in W.
      rewrite <- Lts at 1. apply window_is_trits; assumption.
    + set (pre := firstn nonceOffset ts).
      set (mid := firstn NonceTrinarySize (skipn nonceOffset ts)).
      set (post := skipn NonceTrinarySize (skipn nonceOffset ts)).
      assert (Split : ts = pre ++ mid ++ post).
      { subst pre mid post. rewrite firstn_skipn, firstn_skipn. reflexivity. }
      assert (Lpre : length pre = nonceOffset).
      { subst pre. rewrite length_firstn, Lts. reflexivity. }
      assert (Lmid : length mid = NonceTrinarySize).
      { subst mid. rewrite length_firstn, length_skipn, Lts. reflexivity. }
      assert (Vmid : valid_trits mid).
      { subst mid. apply Forall_firstn. unfold valid_trits.
        apply Forall_forall. intros x Hx. unfold valid_trits in Vts.
        rewrite Forall_forall in Vts. apply Vts.
        rewrite <- (firstn_skipn nonceOffset ts). apply in_or_app. right. exact Hx. }
      pose proof (para_window mid post pre Vmid) as W.
      rewrite <- Split, Lpre in W.
      assert (Emid : mid = firstn NonceTrinarySize (skipn nonceOffset inp)).
      { subst mid ts. rewrite skipn_firstn_comm, firstn_firstn. reflexivity. }
      rewrite <- Emid.
      change (seri ?s n) with (window_trits s nonceOffset NonceTrinarySize n).
      rewrite <- Lmid at 1. apply window_is_trits; assumption.
Qed.

(** *** [transform64] is bit-sliced *)

(** The bits an array holds at position [n], lane by lane. *)
Definition bits_at (n : Z) (l : list Z) : list bool := map (fun x => Z.testbit x n) l.

(** Position [n] of the arrays [a] holds what position [n'] of [b] holds. *)
Definition same_at (n n' : Z) (a b : lanes) : Prop :=
  bits_at n (fst a) = bits_at n' (fst b) /\ bits_at n (snd a) = bits_at n' (snd b).

Lemma nth_bits_at n (l : list Z) : forall i,
  nth i (bits_at n l) false = Z.testbit (nth i l 0) n.
Proof.
  induction l as [|x l IH]; intros [|i]; cbn [bits_at map nth];
    try (symmetry; apply Z.testbit_0_l); [reflexivity | apply IH].
Qed.

Lemma bits_at_nth n n' (l l' : list Z) :
  bits_at n l = bits_at n' l' <->
  length l = length l'
  /\ forall i, Z.testbit (nth i l 0) n = Z.testbit (nth i l' 0) n'.
Proof.
  split.
  - intros E. split.
    + unfold bits_at in E.
      rewrite <- (length_map (fun x => Z.testbit x n) l), E. apply length_map.
    + intros i. rewrite <- !nth_bits_at, E. reflexivity.
  - unfold bits_at. revert l'. induction l as [|x l IH]; intros [|y l'] [L B]; try discriminate L.
    + reflexivity.
    + cbn [map]. f_equal; [exact (B 0%nat)|].
      apply IH. split; [simpl in L; lia|]. intros i. exact (B (S i)).
Qed.

Lemma upd_overflow {A} (v : A) l : forall j, (length l <= j)%nat -> upd j v l = l.
Proof.
  induction l as [|x l IH]; intros [|j] H; simpl in *; try lia; try reflexivity.
  f_equal. apply IH. lia.
Qed.

Lemma bits_at_upd n n' j v v' (l l' : list Z) :
  bits_at n l = bits_at n' l' -> Z.testbit v n = Z.testbit v' n' ->
  bits_at n (upd j v l) = bits_at n' (upd j v' l').
Proof.
  intros E Ev. apply bits_at_nth in E. destruct E as [L B].
  apply bits_at_nth. rewrite !upd_length. split; [exact L|]. intros i.
  destruct (Nat.lt_ge_cases j (length l)) as [In | Out].
  - destruct (Nat.eq_dec j i) as [-> | Ne].
    + rewrite !nth_upd_same by lia. exact Ev.
    + rewrite !nth_upd_other by exact Ne. apply B.
  - rewrite !upd_overflow by lia. apply B.
Qed.

Section TransformSlices.

Variable Indices : list nat.
Variables n n' : Z.
Hypothesis Hn : 0 <= n < 64.
Hypothesis Hn' : 0 <= n' < 64.

Lemma sbox_same a b t1 t2 :
  same_at n n' a b ->
  Z.testbit (fst (sbox a t1 t2)) n = Z.testbit (fst (sbox b t1 t2)) n'
  /\ Z.testbit (snd (sbox a t1 t2)) n = Z.testbit (snd (sbox b t1 t2)) n'.
Proof.
  intros [Sl Sh]. apply bits_at_nth in Sl, Sh.
  destruct Sl as [_ Sl], Sh as [_ Sh].
  destruct a as [la ha], b as [lb hb]. unfold sbox. cbn [fst snd] in *.
  assert (Bn : (n <? 64) = true) by (apply Z.ltb_lt; lia).
  assert (Bn' : (n' <? 64) = true) by (apply Z.ltb_lt; lia).
  rewrite !Z.lor_spec, !Z.lxor_spec, !testbit_not64, !Z.land_spec,
    !Z.lor_spec, !Z.lxor_spec, !testbit_not64 by lia.
  rewrite Bn, Bn', (Sl t1), (Sl t2), (Sh t1), (Sh t2). split; reflexivity.
Qed.

Lemma round_lanes_same from from' :
  same_at n n' from from' ->
  forall k j to to' r r',
  same_at n n' to to' ->
  round_lanes Indices k j from to = Ok r ->
  round_lanes Indices k j from' to' = Ok r' ->
  same_at n n' r r'.
Proof.
  intros Sf. induction k as [|k IH]; intros j to to' r r' St E E'.
  - cbn [round_lanes] in E, E'. inversion E; inversion E'; subst. exact St.
  - cbn [round_lanes] in E, E'.
    destruct (index_at Indices j) as [t1| |]; cbn [bind] in E, E'; try discriminate E.
    destruct (index_at Indices (j + 1)) as [t2| |]; cbn [bind] in E, E'; try discriminate E.
    destruct (sbox_same from from' t1 t2 Sf) as [Bl Bh].
    destruct (sbox from t1 t2) as [l1 h1], (sbox from' t1 t2) as [l1' h1'].
    cbn [fst snd] in Bl, Bh.
    destruct to as [lto hto], to' as [lto' hto'].
    destruct St as [Sl Sh]. cbn [fst snd] in Sl, Sh.
    apply (IH (S j) (upd j l1 lto, upd j h1 hto) (upd j l1' lto', upd j h1' hto') r r');
      [|exact E | exact E'].
    split; cbn [fst snd]; apply bits_at_upd; assumption.
Qed.

Definition buffers_same (b b' : buffers) : Prop :=
  same_at n n' (mid b) (mid b') /\ same_at n n' (tmp b) (tmp b').

Lemma round_same from to b b' r r' :
  buffers_same b b' ->
  round Indices from to b = Ok r -> round Indices from to b' = Ok r' ->
  buffers_same r r'.
Proof.
  intros [Sm St] E E'. unfold round in E, E'.
  assert (Sf : same_at n n' (buffer b from) (buffer b' from)) by (destruct from; assumption).
  assert (So : same_at n n' (buffer b to) (buffer b' to)) by (destruct to; assumption).
  destruct (round_lanes Indices StateSize 0 (buffer b from) (buffer b to)) as [v| |] eqn:Ev;
    cbn [bind] in E; try discriminate E.
  destruct (round_lanes Indices StateSize 0 (buffer b' from) (buffer b' to)) as [v'| |] eqn:Ev';
    cbn [bind] in E'; try discriminate E'.
  pose proof (round_lanes_same _ _ Sf _ _ _ _ _ _ So Ev Ev') as Sv.
  inversion E; inversion E'; subst.
  destruct to; unfold set_buffer, buffers_same; cbn [mid tmp]; split; assumption.
Qed.

Lemma rounds_same k : forall from to b b' f t r f' t' r',
  buffers_same b b' ->
  rounds Indices k from to b = Ok (f, t, r) ->
  rounds Indices k from to b' = Ok (f', t', r') ->
  f = f' /\ t = t' /\ buffers_same r r'.
Proof.
  induction k as [|k IH]; intros from to b b' f t r f' t' r' S E E'.
  - cbn [rounds] in E, E'. inversion E; inversion E'; subst. repeat split; apply S.
  - cbn [rounds] in E, E'.
    destruct (round Indices from to b) as [b1| |] eqn:E1; cbn [bind] in E; try discriminate E.
    destruct (round Indices from to b') as [b1'| |] eqn:E1'; cbn [bind] in E';
      try discriminate E'.
    apply (IH to from b1 b1' f t r f' t' r'); [|exact E | exact E'].
    apply (round_same from to b b'); assumption.
Qed.

Lemma transform64_same st st' r r' :
  same_at n n' st st' ->
  transform64 Indices st = Ok r -> transform64 Indices st' = Ok r' ->
  same_at n n' r r'.
Proof.
  intros S E E'. unfold transform64 in E, E'.
  set (b := {| mid := st; tmp := (repeat 0 StateSize, repeat 0 StateSize) |}) in E.
  set (b' := {| mid := st'; tmp := (repeat 0 StateSize, repeat 0 StateSize) |}) in E'.
  assert (Sb : buffers_same b b').
  { split; [exact S|]. subst b b'. cbn [tmp]. split; cbn [fst snd];
      apply bits_at_nth; (split; [reflexivity|]); intros i;
      replace (nth i (repeat 0 StateSize) 0) with 0
        by (symmetry; apply nth_repeat);
      rewrite !Z.testbit_0_l; reflexivity. }
  destruct (rounds Indices (NumberOfRounds - 1) false true b) as [[[f t] b1]| |] eqn:R;
    cbn [bind] in E; try discriminate E.
  destruct (rounds Indices (NumberOfRounds - 1) false true b') as [[[f' t'] b1']| |] eqn:R';
    cbn [bind] in E'; try discriminate E'.
  destruct (rounds_same _ _ _ _ _ _ _ _ _ _ _ Sb R R') as (<- & <- & S1).
  destruct (round Indices f t b1) as [b2| |] eqn:R2; cbn [bind] in E; try discriminate E.
  destruct (round Indices f t b1') as [b2'| |] eqn:R2'; cbn [bind] in E'; try discriminate E'.
  inversion E; inversion E'; subst.
  apply (round_same f t b1 b1' b2 b2' S1 R2 R2').
Qed.

Lemma same_at_trits a b lo len :
  same_at n n' a b -> window_trits a lo len n = window_trits b lo len n'.
Proof.
  intros [Sl Sh]. apply bits_at_nth in Sl, Sh.
  destruct Sl as [_ Sl], Sh as [_ Sh].
  unfold window_trits. apply map_ext. intros i. unfold seri_lane.
  rewrite !bit_at by lia. rewrite (Sl i), (Sh i). reflexivity.
Qed.

End TransformSlices.

(** X18: [transform64] is bit-sliced.  With a table of indices in range it
    returns, and what it leaves at a bit position depends only on what the
    arrays held at that position, by the same function at each of the 64
    positions: if position [n] of one state holds what position [n'] of
    another holds, the same is true of the two results, and the trits read
    there are the same. *)
Theorem transform64_is_bit_sliced (Indices : list nat) (st st' : lanes) (n n' : Z) :
  indices_ok Indices = true -> words_ok st -> words_ok st' ->
  0 <= n < 64 -> 0 <= n' < 64 ->
  same_at n n' st st' ->
  exists r r', transform64 Indices st = Ok r /\ transform64 Indices st' = Ok r'
    /\ same_at n n' r r'
    /\ window_trits r 0 StateSize n = window_trits r' 0 StateSize n'.
Proof.
  intros I W W' Hn Hn' S.
  destruct (transform64_good Indices I st W) as (r & E & _).
  destruct (transform64_good Indices I st' W') as (r' & E' & _).
  exists r, r'. split; [exact E|]. split; [exact E'|].
  pose proof (transform64_same Indices n n' Hn Hn' st st' r r' S E E') as Sr.
  split; [exact Sr|]. apply same_at_trits; assumption.
Qed.

(** The arrays [para] writes for 729 zero trits. *)
Definition zero_lanes : lanes := (repeat hBits 729, repeat hBits 729).

(** *** One position of the arrays as a state of its own *)

(** The arrays are [StateSize] 64-bit words each and no lane holds the pair
    (0, 0) at any position. *)
Definition good_lanes (st : lanes) : bool :=
  (length (fst st) =? StateSize)%nat && (length (snd st) =? StateSize)%nat
  && forallb (fun x => (0 <=? x) && (x <? 2 ^ 64)) (fst st)
  && forallb (fun x => (0 <=? x) && (x <? 2 ^ 64)) (snd st)
  && forallb (fun p => Z.lor (fst p) (snd p) =? hBits) (combine (fst st) (snd st)).

Lemma good_lanes_spec st : good_lanes st = true -> words_ok st /\ no_zero_pair st.
Proof.
  unfold good_lanes. intros G.
  apply andb_true_iff in G. destruct G as [G U].
  apply andb_true_iff in G. destruct G as [G Oh].
  apply andb_true_iff in G. destruct G as [G Ol].
  apply andb_true_iff in G. destruct G as [Ll Lh].
  apply Nat.eqb_eq in Ll, Lh.
  assert (R : forall l, forallb (fun x => (0 <=? x) && (x <? 2 ^ 64)) l = true ->
                Forall in_uint64 l).
  { intros l F. apply Forall_forall. intros x Hx. rewrite forallb_forall in F.
    apply constant_in_uint64, F, Hx. }
  split; [repeat split; auto|].
  intros i Hi. rewrite forallb_forall in U.
  specialize (U (nth i (fst st) 0, nth i (snd st) 0)). cbn [fst snd] in U.
  apply Z.eqb_eq, U. rewrite <- combine_nth by congruence.
  apply nth_In. rewrite length_combine. lia.
Qed.

Lemma window_trits_length st lo len n : length (window_trits st lo len n) = len.
Proof. unfold window_trits. rewrite length_map. apply length_seq. Qed.

Lemma window_trits_nth st lo len n i :
  (i < len)%nat -> nth i (window_trits st lo len n) 0 = seri_lane st n (lo + i).
Proof.
  intros H. unfold window_trits.
  rewrite (nth_indep _ 0 (seri_lane st n 0)) by (rewrite length_map, length_seq; exact H).
  rewrite map_nth, seq_nth by exact H. reflexivity.
Qed.

Lemma window_trits_valid st lo len n : valid_trits (window_trits st lo len n).
Proof.
  apply Forall_forall. intros x Hx. unfold window_trits in Hx.
  apply in_map_iff in Hx. destruct Hx as (i & <- & _). apply seri_lane_valid.
Qed.

(** Where a lane does not hold the pair (0, 0), [para] of the trit read
    writes the two bits back, at every position. *)
Lemma seri_para_bits st n n' i :
  0 <= n < 64 -> 0 <= n' < 64 ->
  Z.lor (nth i (fst st) 0) (nth i (snd st) 0) = hBits ->
  Z.testbit (nth i (fst st) 0) n = Z.testbit (fst (para_lane (seri_lane st n i))) n'
  /\ Z.testbit (nth i (snd st) 0) n = Z.testbit (snd (para_lane (seri_lane st n i))) n'.
Proof.
  intros Hn Hn' U.
  assert (Un : Z.testbit (Z.lor (nth i (fst st) 0) (nth i (snd st) 0)) n = true).
  { rewrite U, testbit_hBits by lia. apply Z.ltb_lt. lia. }
  rewrite Z.lor_spec in Un. unfold seri_lane. rewrite !bit_at by lia.
  assert (B1 : Z.testbit hBits n' = true).
  { rewrite testbit_hBits by lia. apply Z.ltb_lt. lia. }
  assert (B0 : Z.testbit lBits n' = false) by apply Z.bits_0.
  destruct (Z.testbit (nth i (fst st) 0) n), (Z.testbit (nth i (snd st) 0) n);
    try discriminate Un; cbn [Z.b2z].
  - change ((1 =? 0) && (1 =? 1)) with false. change ((1 =? 1) && (1 =? 1)) with true.
    cbv iota. change (para_lane 0) with (hBits, hBits). cbn [fst snd].
    rewrite B1. split; reflexivity.
  - change ((0 =? 0) && (1 =? 1)) with true.
    cbv iota. change (para_lane (-1)) with (hBits, lBits). cbn [fst snd].
    rewrite B1, B0. split; reflexivity.
  - change ((1 =? 0) && (0 =? 1)) with false. change ((1 =? 1) && (0 =? 1)) with false.
    change ((1 =? 1) && (0 =? 0)) with true.
    cbv iota. change (para_lane 1) with (lBits, hBits). cbn [fst snd].
    rewrite B1, B0. split; reflexivity.
Qed.

Lemma para_of_window st st1 n n' :
  words_ok st -> no_zero_pair st -> 0 <= n < 64 -> 0 <= n' < 64 ->
  para (window_trits st 0 StateSize n) = Ok st1 ->
  same_at n n' st st1.
Proof.
  intros (Ll & Lh & _) N Hn Hn' E.
  pose proof (window_trits_length st 0 StateSize n) as Lts.
  assert (Nth : forall i, (i < StateSize)%nat ->
            nth i (window_trits st 0 StateSize n) 0 = seri_lane st n i).
  { intros i Hi. apply (window_trits_nth st 0 StateSize n i Hi). }
  remember (window_trits st 0 StateSize n) as ts eqn:Ets. clear Ets.
  unfold para in E. rewrite Lts, Nat.ltb_irrefl in E.
  rewrite firstn_all2 in E by (rewrite Lts; apply le_n).
  injection E as E. subst st1.
  assert (P : forall i,
            Z.testbit (nth i (fst st) 0) n
            = Z.testbit (nth i (map fst (map para_lane ts)) 0) n'
            /\ Z.testbit (nth i (snd st) 0) n
               = Z.testbit (nth i (map snd (map para_lane ts)) 0) n').
  { intros i. destruct (Nat.lt_ge_cases i StateSize) as [In | Out].
    - destruct (para_lanes_nth ts i ltac:(lia)) as [-> ->].
      rewrite (Nth i In).
      apply seri_para_bits; [exact Hn | exact Hn' | apply N, In].
    - rewrite !nth_overflow by (rewrite ?length_map; lia).
      rewrite !Z.testbit_0_l. split; reflexivity. }
  split; cbn [fst snd]; apply bits_at_nth;
    (split; [rewrite !length_map; congruence|]); intros i; apply P.
Qed.

Lemma same_at_lane n n' a b i :
  0 <= n < 64 -> 0 <= n' < 64 -> same_at n n' a b ->
  seri_lane a n i = seri_lane b n' i.
Proof.
  intros Hn Hn' S. pose proof (same_at_trits n n' Hn Hn' a b i 1 S) as E.
  unfold window_trits in E. cbn [seq map] in E. inversion E. reflexivity.
Qed.

(** X19: each bit position is a search of its own.  For arrays without the
    pair (0, 0), the trits read at position [n], written out by [para] and
    transformed alone, give at every position the trits that [transform64]
    leaves at position [n] of the shared arrays; so when [check] answers [n]
    for the transformed arrays, the state of candidate [n] transformed on its
    own has a hash with at least [m] trailing zeros. *)
Theorem checked_position_is_a_scalar_hash (Indices : list nat) (st : lanes) (m : Z) :
  indices_ok Indices = true -> good_lanes st = true ->
  0 <= m <= Z.of_nat HashTrinarySize ->
  exists h, transform64 Indices st = Ok h
    /\ forall n, 0 <= n < 64 ->
       exists st1 h1,
         para (window_trits st 0 StateSize n) = Ok st1
         /\ transform64 Indices st1 = Ok h1
         /\ forall n', 0 <= n' < 64 ->
              window_trits h1 0 StateSize n' = window_trits h 0 StateSize n
              /\ (check h m = Ok n ->
                  m <= TrailingZeros (window_trits h1 0 HashTrinarySize n')).
Proof.
  intros I G Hm. destruct (good_lanes_spec st G) as [W N].
  destruct (transform64_good Indices I st W) as (h & Eh & _).
  exists h. split; [exact Eh|]. intros n Hn.
  pose proof (window_trits_length st 0 StateSize n) as Lts.
  destruct (para_good (window_trits st 0 StateSize n)
              (window_trits_valid st 0 StateSize n) ltac:(lia))
    as (st1 & E1 & W1 & _).
  destruct (transform64_good Indices I st1 W1) as (h1 & Eh1 & _).
  exists st1, h1. split; [exact E1|]. split; [exact Eh1|].
  intros n' Hn'.
  pose proof (para_of_window st st1 n n' W N Hn Hn' E1) as S.
  pose proof (transform64_same Indices n n' Hn Hn' st st1 h h1 S Eh Eh1) as Sh.
  split; [symmetry; apply same_at_trits; assumption|].
  intros C. destruct (check_cases h m Hm) as (r & Er & _ & Hit & _).
  rewrite Er in C. inversion C; subst r.
  rewrite <- (Z2Nat.id m) by lia.
  apply TrailingZeros_ge; rewrite window_trits_length.
  - vm_compute. discriminate.
  - unfold HashTrinarySize in *. lia.
  - intros i Hi. rewrite window_trits_nth by lia. cbn [Nat.add].
    rewrite <- (same_at_lane n n' h h1 i Hn Hn' Sh). apply Hit; lia.
Qed.

(** 729 trits that are not all alike, and the arrays of a worker built from
    them: [para], the seed lanes, five turns of [incrN] and one [incr].  The
    64 bit positions of these arrays hold 64 different states. *)
Definition sample_state_trits : Trits :=
  map (fun i => (i * i + i / 7) mod 3 - 1) (map Z.of_nat (seq 0 729)).

Definition sample_lanes : lanes :=
  Eval vm_compute in fst (incr (incrN 5 (worker_lanes sample_state_trits))).

(** What bit position 3 of [sample_lanes] holds, written out by [para] at
    all 64 positions. *)
Definition sample_position_3 : lanes :=
  Eval vm_compute in
    match para (window_trits sample_lanes 0 StateSize 3) with
    | Ok st => st
    | _ => zero_lanes
    end.

Lemma transform64_is_bit_sliced_witness :
  exists r r', transform64 (reference_indices 730 0) sample_lanes = Ok r
    /\ transform64 (reference_indices 730 0) sample_position_3 = Ok r'
    /\ same_at 3 5 r r'
    /\ window_trits r 0 StateSize 3 = window_trits r' 0 StateSize 5.
Proof.
  apply (transform64_is_bit_sliced (reference_indices 730 0) sample_lanes sample_position_3
           3 5).
  - vm_compute. reflexivity.
  - apply good_lanes_spec. vm_compute. reflexivity.
  - apply good_lanes_spec. vm_compute. reflexivity.
  - lia.
  - lia.
  - split; vm_compute; reflexivity.
Defined.

Lemma checked_position_is_a_scalar_hash_witness :
  exists h, transform64 (reference_indices 730 0) sample_lanes = Ok h
    /\ forall n, 0 <= n < 64 ->
       exists st1 h1,
         para (window_trits sample_lanes 0 StateSize n) = Ok st1
         /\ transform64 (reference_indices 730 0) st1 = Ok h1
         /\ forall n', 0 <= n' < 64 ->
              window_trits h1 0 StateSize n' = window_trits h 0 StateSize n
              /\ (check h 3 = Ok n ->
                  3 <= TrailingZeros (window_trits h1 0 HashTrinarySize n')).
Proof.
  apply (checked_position_is_a_scalar_hash (reference_indices 730 0) sample_lanes 3).
  - vm_compute. reflexivity.
  - vm_compute. reflexivity.
  - vm_compute. split; discriminate.
Defined.

(** On [sample_lanes] the positions differ, before and after [transform64],
    and [check] finds position 6 for [m = 3]: the trits of position 6
    transformed alone end in three zeros. *)
Example sample_lanes_run :
  window_trits sample_lanes nonceOffset 4 3 = [0; 1; 0; 0]
  /\ window_trits sample_lanes nonceOffset 4 5 = [-1; 1; 0; 0]
  /\ match transform64 (reference_indices 730 0) sample_lanes with
     | Ok h =>
         (firstn 8 (window_trits h 0 StateSize 3),
          firstn 8 (window_trits h 0 StateSize 5), check h 3)
     | _ => ([], [], Panic)
     end = ([1; -1; -1; -1; -1; 1; 1; 0], [-1; -1; -1; 0; -1; -1; 1; 1], Ok 6)
  /\ match para (window_trits sample_lanes 0 StateSize 6) with
     | Ok st1 =>
         match transform64 (reference_indices 730 0) st1 with
         | Ok h1 => firstn 4 (skipn 239 (window_trits h1 0 HashTrinarySize 0))
         | _ => []
         end
     | _ => []
     end = [1; 0; 0; 0].
Proof.
  split; [vm_compute; reflexivity|].
  split; [vm_compute; reflexivity|].
  split; vm_compute; reflexivity.
Qed.

Example check_examples :
  check zero_lanes 14 = Ok 0
  /\ check (repeat lBits 729, repeat hBits 729) 1 = Ok (-1)
  /\ check (upd 242 8 (repeat lBits 729), repeat hBits 729) 1 = Ok 3
  /\ check zero_lanes 0 = Ok 0
  /\ check zero_lanes 244 = Panic.
Proof. repeat split; vm_compute; reflexivity. Qed.

End Pow.
